(** * CXO: schema registry, schema codec, size engine and message framing

    A shallow embedding of the Go sources

    - [node/messages.go]       (message framing: [Encode], [Decode]),
    - [skyobject/registry.go]  ([Reg], [Registry], [decodeSchema], ...),
    - [skyobject/value.go]     ([SchemaSize] and its helpers),

    together with the properties of the specification that concern them.

    Conventions.  Go's [int] is the 64-bit one; sizes and lengths are kept
    in [Z].  A Go function returning [(x, err)] becomes a function into
    [result]; a run-time panic is the separate outcome [Panic].  Byte
    buffers are [list byte].  Go maps are [gmap]s; every [range] over a map
    takes the visiting order as an explicit argument, because Go leaves
    that order unspecified. *)

From Stdlib Require Import ZArith List Lia Bool.
From Stdlib Require Import Strings.Ascii Strings.String Strings.Byte.
From Stdlib Require Import Sorting.Permutation Sorting.Sorted.
From Stdlib Require Import Structures.OrderedTypeEx.
From stdpp Require Import base option list gmap strings vector countable.
From stdpp Require Import pretty.

Local Open Scope Z_scope.

#[global] Set Warnings "-clear-no-such-hyp".

(** ** Outcomes of a call *)

Inductive error : Type :=
  (* package node *)
  | ErrEmptyMessage
  | ErrIncomplieDecoding
  | ErrInvalidMsgType (msgType : Z)
  (* package encoder: the buffer is shorter than the value it should hold *)
  | ErrBufferUnderflow
  (* package skyobject *)
  | ErrInvalidSchemaOrData
  | ErrInvalidSchema
  | ErrInvalidEncodedSchema
  | ErrInvalidReferenceType (rt : Z)
  | ErrMissingSchema (name : string)
  | ErrTag (msg : string).

Inductive result (A : Type) : Type :=
  | Ok (a : A)
  | Err (e : error)
  | Panic.

Arguments Ok {A} a.
Arguments Err {A} e.
Arguments Panic {A}.

#[global] Instance result_bind : MBind result := fun A B k r =>
  match r with
  | Ok a => k a
  | Err e => Err e
  | Panic => Panic
  end.

Definition is_Err {A : Type} (r : result A) : Prop :=
  match r with Err _ => True | _ => False end.

(** two outcomes of one kind, with what is returned related by [R] *)
Definition result_rel {A : Type} (R : A -> A -> Prop) (r r' : result A)
  : Prop :=
  match r, r' with
  | Ok a, Ok a' => R a a'
  | Err e, Err e' => e = e'
  | Panic, Panic => True
  | _, _ => False
  end.

Definition len {A : Type} (l : list A) : Z := Z.of_nat (length l).

(** ** The raw encoder ([cipher/encoder])

    The generic encoder is an external primitive.  Its wire format is the
    one the specification fixes: fixed-width little-endian integers, a
    4-byte count in front of strings, byte sequences and slices, arrays and
    structs as the concatenation of their parts. *)

Module encoder.

Definition byte_of_Z (z : Z) : byte :=
  match Byte.of_N (Z.to_N (z mod 256)) with
  | Some b => b
  | None => x00
  end.

Definition Z_of_byte (b : byte) : Z := Z.of_N (Byte.to_N b).

(** [w] bytes of [z], least significant first *)
Fixpoint le_split (w : nat) (z : Z) : list byte :=
  match w with
  | O => []
  | S w' => byte_of_Z z :: le_split w' (z / 256)
  end.

Fixpoint le_combine (bs : list byte) : Z :=
  match bs with
  | [] => 0
  | b :: bs' => Z_of_byte b + 256 * le_combine bs'
  end.

Definition uint32 (z : Z) : list byte := le_split 4 z.

(** [DeserializeRaw(p, &u)] for [u uint32] *)
Definition read_uint32 (p : list byte) : result (Z * list byte) :=
  match p with
  | b0 :: b1 :: b2 :: b3 :: rest => Ok (le_combine [b0; b1; b2; b3], rest)
  | _ => Err ErrBufferUnderflow
  end.

(** the first [n] bytes, when there are that many *)
Definition read_bytes (n : Z) (p : list byte) : result (list byte * list byte) :=
  if len p <? n then Err ErrBufferUnderflow
  else Ok (firstn (Z.to_nat n) p, skipn (Z.to_nat n) p).

(** [[]byte] and [string]: a [uint32] count, then the bytes; the count
    is [uint32(len(b))] *)
Definition bytes (b : list byte) : list byte := uint32 (len b) ++ b.

Definition read_lbytes (p : list byte) : result (list byte * list byte) :=
  '(n, rest) ← read_uint32 p;
  read_bytes n rest.

(** a fixed array of [n] bytes *)
Fixpoint read_array (n : nat) (p : list byte) : result (vec byte n * list byte) :=
  match n with
  | O => Ok ([#], p)
  | S n' =>
      match p with
      | [] => Err ErrBufferUnderflow
      | b :: p' =>
          '(v, rest) ← read_array n' p';
          Ok (b ::: v, rest)
      end
  end.

(** [n] values, one after the other *)
Fixpoint read_n {A : Type} (read : list byte -> result (A * list byte))
    (n : nat) (p : list byte) : result (list A * list byte) :=
  match n with
  | O => Ok ([], p)
  | S n' =>
      '(x, rest) ← read p;
      '(xs, rest') ← read_n read n' rest;
      Ok (x :: xs, rest')
  end.

(** a slice: a [uint32] count, then the elements *)
Definition slice {A : Type} (write : A -> list byte) (xs : list A)
  : list byte :=
  uint32 (len xs) ++ concat (map write xs).

Definition read_slice {A : Type} (read : list byte -> result (A * list byte))
    (p : list byte) : result (list A * list byte) :=
  '(n, rest) ← read_uint32 p;
  read_n read (Z.to_nat n) rest.

End encoder.

#[global] Instance byte_eq_dec : EqDecision byte := Byte.byte_eq_dec.

#[global] Instance byte_countable : Countable byte :=
  inj_countable Byte.to_N Byte.of_N Byte.of_to_N.

(** ** Package [cipher] *)

Module cipher.
(** [type SHA256 [32]byte], [type PubKey [33]byte] *)
Definition SHA256 : Type := vec byte 32.
Definition PubKey : Type := vec byte 33.
Definition SHA256_len : Z := 32.
End cipher.

(** ** Package [node]: message framing ([node/messages.go]) *)

Module node.

Section Messages.

(** [data.RootPack] is declared in package [data], which is not part of the
    sources at hand; it is kept abstract, with the encoder's functions for
    it. *)
Context {RootPack : Type}.
Context (serializeRootPack : RootPack -> list byte).
Context (deserializeRootPack : list byte -> result (RootPack * list byte)).

Inductive Msg : Type :=
  | PingMsg
  | PongMsg
  | JoinFeedMsg (Feed : cipher.PubKey)
  | LeaveFeedMsg (Feed : cipher.PubKey)
  | RootMsg (Feed : cipher.PubKey) (RootPack_ : RootPack)
  | RequestDataMsg (Ref : cipher.SHA256)
  | DataMsg (Data : list byte)
  | RequestRegistryMsg (Ref : cipher.SHA256)
  | RegistryMsg (Reg : list byte).

(** [type MsgType uint8] *)
Definition MsgType : Type := Z.

Definition PingMsgType : MsgType := 1.
Definition PongMsgType : MsgType := 2.
Definition JoinFeedMsgType : MsgType := 3.
Definition LeaveFeedMsgType : MsgType := 4.
Definition RootMsgType : MsgType := 5.
Definition RequestDataMsgType : MsgType := 6.
Definition DataMsgType : MsgType := 7.
Definition RequestRegistryMsgType : MsgType := 8.
Definition RegistryMsgType : MsgType := 9.

(** the method [MsgType()] of each message *)
Definition Msg_MsgType (msg : Msg) : MsgType :=
  match msg with
  | PingMsg => PingMsgType
  | PongMsg => PongMsgType
  | JoinFeedMsg _ => JoinFeedMsgType
  | LeaveFeedMsg _ => LeaveFeedMsgType
  | RootMsg _ _ => RootMsgType
  | RequestDataMsg _ => RequestDataMsgType
  | DataMsg _ => DataMsgType
  | RequestRegistryMsg _ => RequestRegistryMsgType
  | RegistryMsg _ => RegistryMsgType
  end.

(** the [reflect.Type] of each message struct *)
Inductive msgStruct : Type :=
  | TPingMsg | TPongMsg | TJoinFeedMsg | TLeaveFeedMsg | TRootMsg
  | TRequestDataMsg | TDataMsg | TRequestRegistryMsg | TRegistryMsg.

(** [forwardRegistry]: an array indexed by [MsgType]; index 0 is not
    assigned, so the array has ten entries *)
Definition forwardRegistry : list (option msgStruct) :=
  [ None;
    Some TPingMsg; Some TPongMsg; Some TJoinFeedMsg; Some TLeaveFeedMsg;
    Some TRootMsg; Some TRequestDataMsg; Some TDataMsg;
    Some TRequestRegistryMsg; Some TRegistryMsg ].

(** [reflect.TypeOf] of a message *)
Definition TypeOf (msg : Msg) : msgStruct :=
  match msg with
  | PingMsg => TPingMsg
  | PongMsg => TPongMsg
  | JoinFeedMsg _ => TJoinFeedMsg
  | LeaveFeedMsg _ => TLeaveFeedMsg
  | RootMsg _ _ => TRootMsg
  | RequestDataMsg _ => TRequestDataMsg
  | DataMsg _ => TDataMsg
  | RequestRegistryMsg _ => TRequestRegistryMsg
  | RegistryMsg _ => TRegistryMsg
  end.

(** [encoder.Serialize(msg)] *)
Definition Serialize (msg : Msg) : list byte :=
  match msg with
  | PingMsg | PongMsg => []
  | JoinFeedMsg f | LeaveFeedMsg f => vec_to_list f
  | RootMsg f rp => vec_to_list f ++ serializeRootPack rp
  | RequestDataMsg r | RequestRegistryMsg r => vec_to_list r
  | DataMsg d | RegistryMsg d => encoder.bytes d
  end.

(** [encoder.DeserializeRawToValue(p, reflect.New(typ))]: the decoded
    message and the number of bytes it used *)
Definition DeserializeRawToValue (typ : msgStruct) (p : list byte)
  : result (Msg * Z) :=
  let used (rest : list byte) : Z := len p - len rest in
  match typ with
  | TPingMsg => Ok (PingMsg, 0)
  | TPongMsg => Ok (PongMsg, 0)
  | TJoinFeedMsg =>
      '(f, rest) ← encoder.read_array 33 p; Ok (JoinFeedMsg f, used rest)
  | TLeaveFeedMsg =>
      '(f, rest) ← encoder.read_array 33 p; Ok (LeaveFeedMsg f, used rest)
  | TRootMsg =>
      '(f, rest) ← encoder.read_array 33 p;
      '(rp, rest') ← deserializeRootPack rest;
      Ok (RootMsg f rp, used rest')
  | TRequestDataMsg =>
      '(r, rest) ← encoder.read_array 32 p; Ok (RequestDataMsg r, used rest)
  | TDataMsg =>
      '(d, rest) ← encoder.read_lbytes p; Ok (DataMsg d, used rest)
  | TRequestRegistryMsg =>
      '(r, rest) ← encoder.read_array 32 p;
      Ok (RequestRegistryMsg r, used rest)
  | TRegistryMsg =>
      '(d, rest) ← encoder.read_lbytes p; Ok (RegistryMsg d, used rest)
  end.

(** [Encode]: the message prefixed by its [MsgType] *)
Definition Encode (msg : Msg) : list byte :=
  encoder.byte_of_Z (Msg_MsgType msg) :: Serialize msg.

Definition Decode (p : list byte) : result Msg :=
  match p with
  | [] => Err ErrEmptyMessage
  | p0 :: p1 =>
      let mt : MsgType := encoder.Z_of_byte p0 in
      if (mt <=? 0) || (len forwardRegistry <=? mt) then
        Err (ErrInvalidMsgType mt)
      else
        match forwardRegistry !! Z.to_nat mt with
        | Some (Some typ) =>
            '(msg, n) ← DeserializeRawToValue typ p1;
            if negb (n + 1 =? len p) then Err ErrIncomplieDecoding
            else Ok msg
        | _ => Panic
        end
  end.

(** what the encoder can represent: a byte sequence is written behind a
    4-byte count *)
Definition encodable (msg : Msg) : Prop :=
  match msg with
  | DataMsg d | RegistryMsg d => len d < 2 ^ 32
  | _ => True
  end.

(** [msgTypeString]: an array indexed by [MsgType]; index 0 is not
    assigned and holds the empty string *)
Definition msgTypeString : list string :=
  [ ""; "PING"; "PONG"; "ADD"; "DEL"; "ROOT"; "RQDT"; "DATA"; "RQREG";
    "REG" ]%string.

(** the method [String()] of a [MsgType]; [pretty] writes the number in
    decimal, as the verb [%d] does *)
Definition MsgType_String (m : MsgType) : string :=
  if (0 <? m) && (m <? len msgTypeString) then
    match msgTypeString !! Z.to_nat m with
    | Some name => name
    | None => EmptyString (* not met: the index is in range *)
    end
  else ("MsgType<" ++ pretty m ++ ">")%string.

(** the method [Error()] of an [ErrInvalidMsgType] *)
Definition ErrInvalidMsgType_Error (msgType : MsgType) : string :=
  ("invalid message type: " ++ MsgType_String msgType)%string.

End Messages.

(** a message for concrete runs, with one digest standing for the
    [RootPack] *)
Definition DataMsg_example : @Msg cipher.SHA256 := DataMsg [x01; x02; x03].

End node.

(** ** Package [strings] *)

Module gostrings.

(** [strings.Split(s, sep)] for a separator of one character: the pieces
    of [s] between the separators, at least one piece *)
Fixpoint Split (s : string) (sep : ascii) : list string :=
  match s with
  | EmptyString => [EmptyString]
  | String c s' =>
      if Ascii.eqb c sep then EmptyString :: Split s' sep
      else
        match Split s' sep with
        | [] => [String c EmptyString]
        | piece :: pieces => String c piece :: pieces
        end
  end.

(** [strings.HasPrefix(s, prefix)] *)
Definition HasPrefix (s prefix : string) : bool := String.prefix prefix s.

End gostrings.

(** ** Package [reflect]: kinds and types *)

Module reflect.

(** [type Kind uint] *)
Definition Kind : Type := Z.

Definition Invalid : Kind := 0.
Definition Bool : Kind := 1.
Definition Int : Kind := 2.
Definition Int8 : Kind := 3.
Definition Int16 : Kind := 4.
Definition Int32 : Kind := 5.
Definition Int64 : Kind := 6.
Definition Uint : Kind := 7.
Definition Uint8 : Kind := 8.
Definition Uint16 : Kind := 9.
Definition Uint32 : Kind := 10.
Definition Uint64 : Kind := 11.
Definition Uintptr : Kind := 12.
Definition Float32 : Kind := 13.
Definition Float64 : Kind := 14.
Definition Complex64 : Kind := 15.
Definition Complex128 : Kind := 16.
Definition Array : Kind := 17.
Definition Chan : Kind := 18.
Definition Func : Kind := 19.
Definition Interface : Kind := 20.
Definition Map : Kind := 21.
Definition Ptr : Kind := 22.
Definition Slice : Kind := 23.
Definition String : Kind := 24.
Definition Struct : Kind := 25.
Definition UnsafePointer : Kind := 26.

(** [reflect.StructTag]: the pairs of key and quoted value of a
    conventional tag *)
Definition StructTag : Type := list (string * string).

(** the double quote, character 34 *)
Definition quote : string :=
  String.String (Ascii.Ascii false true false false false true false false)
    EmptyString.

(** [tag.Get(key)]: the value of the first pair with this key, or the
    empty string *)
Fixpoint StructTag_Get (tag : StructTag) (key : string) : string :=
  match tag with
  | [] => EmptyString
  | (k, v) :: tag' => if String.eqb k key then v else StructTag_Get tag' key
  end.

(** the tag as the string it is written as *)
Fixpoint StructTag_string (tag : StructTag) : string :=
  match tag with
  | [] => EmptyString
  | (k, v) :: tag' =>
      let pair := (k ++ ":" ++ quote ++ v ++ quote)%string in
      match tag' with
      | [] => pair
      | _ => (pair ++ " " ++ StructTag_string tag')%string
      end
  end.

#[local] Set Warnings "-register-all".

(** [reflect.Type]: a type that is not recursive, as a tree.  [name] is
    what [Name()] returns, empty for a type without a name. *)
Inductive Type_ : Type :=
  | TBasic (kind : Kind) (name : string)
  | TPtr (elem : Type_)
  | TSlice (name : string) (elem : Type_)
  | TArray (name : string) (len : Z) (elem : Type_)
  | TStruct (name : string) (fields : list StructField)
with StructField : Type :=
  | Build_StructField (Name : string) (Tag : StructTag) (PkgPath : string)
      (Type__ : Type_).

Definition Type_Kind (typ : Type_) : Kind :=
  match typ with
  | TBasic kind _ => kind
  | TPtr _ => Ptr
  | TSlice _ _ => Slice
  | TArray _ _ _ => Array
  | TStruct _ _ => Struct
  end.

Definition Type_Name (typ : Type_) : string :=
  match typ with
  | TBasic _ name | TSlice name _ | TArray name _ _ | TStruct name _ => name
  | TPtr _ => EmptyString
  end.

(** Types are keys of a Go map: they are countable, through trees of
    numbers and strings. *)
Fixpoint tag_enc (tag : StructTag) : list (gen_tree (Z + string)) :=
  match tag with
  | [] => []
  | (k, v) :: tag' => GenLeaf (inr k) :: GenLeaf (inr v) :: tag_enc tag'
  end.

Fixpoint tag_dec (gs : list (gen_tree (Z + string))) : option StructTag :=
  match gs with
  | [] => Some []
  | GenLeaf (inr k) :: GenLeaf (inr v) :: gs' => ((k, v) ::.) <$> tag_dec gs'
  | _ => None
  end.

Fixpoint Type_enc (t : Type_) : gen_tree (Z + string) :=
  match t with
  | TBasic k n => GenNode 0 [GenLeaf (inl k); GenLeaf (inr n)]
  | TPtr e => GenNode 1 [Type_enc e]
  | TSlice n e => GenNode 2 [GenLeaf (inr n); Type_enc e]
  | TArray n l e => GenNode 3 [GenLeaf (inr n); GenLeaf (inl l); Type_enc e]
  | TStruct n fs =>
      GenNode 4 (GenLeaf (inr n) ::
        map (fun sf => match sf with
                       | Build_StructField nm tag pkg ty =>
                           GenNode 5 [GenLeaf (inr nm); GenNode 6 (tag_enc tag);
                                      GenLeaf (inr pkg); Type_enc ty]
                       end) fs)
  end.

Fixpoint Type_dec (g : gen_tree (Z + string)) : option Type_ :=
  match g with
  | GenNode 0 [GenLeaf (inl k); GenLeaf (inr n)] => Some (TBasic k n)
  | GenNode 1 [e] => TPtr <$> Type_dec e
  | GenNode 2 [GenLeaf (inr n); e] => TSlice n <$> Type_dec e
  | GenNode 3 [GenLeaf (inr n); GenLeaf (inl l); e] => TArray n l <$> Type_dec e
  | GenNode 4 (GenLeaf (inr n) :: gs) =>
      TStruct n <$>
        mapM (fun g' => match g' with
                        | GenNode 5 [GenLeaf (inr nm); GenNode 6 ts;
                                     GenLeaf (inr pkg); ty] =>
                            t ← Type_dec ty;
                            tg ← tag_dec ts;
                            Some (Build_StructField nm tg pkg t)
                        | _ => None
                        end) gs
  | _ => None
  end.

Definition Type_dec_enc : forall t, Type_dec (Type_enc t) = Some t.
Proof.
  assert (Htag : forall tag, tag_dec (tag_enc tag) = Some tag).
  { induction tag as [|[k v] tag IH]; [reflexivity|]. cbn. rewrite IH. reflexivity. }
  fix IH 1. intros [k n|e|n e|n l e|n fs]; cbn.
  - reflexivity.
  - rewrite IH. reflexivity.
  - rewrite IH. reflexivity.
  - rewrite IH. reflexivity.
  - match goal with |- _ <$> ?m = _ => assert (E : m = Some fs) end.
    { induction fs as [|[nm tag pkg ty] fs IHfs]; [reflexivity|].
      cbn. rewrite IH, Htag. cbn. rewrite IHfs. reflexivity. }
    rewrite E. reflexivity.
Qed.

#[global] Instance Type_eq_dec : EqDecision Type_.
Proof.
  intros x y. destruct (decide (Type_enc x = Type_enc y)) as [E|E].
  - left. apply (inj Some). rewrite <- !Type_dec_enc, E. reflexivity.
  - right. intros ->. apply E. reflexivity.
Defined.

#[global] Instance Type_countable : Countable Type_ :=
  inj_countable Type_enc Type_dec Type_dec_enc.

(** a value of type [interface{}]: nil, or a value with its type; a value
    of a pointer type may be the nil pointer *)
Inductive any : Type :=
  | nil_interface
  | value_of (typ : Type_)
  | nil_pointer (elem : Type_).

(** [reflect.Indirect(reflect.ValueOf(i)).Type()]: [ValueOf(nil)] is the
    zero [Value], [Indirect] of a nil pointer is the zero [Value], and
    [Type()] panics on the zero [Value] *)
Definition Indirect_ValueOf_Type (i : any) : result Type_ :=
  match i with
  | nil_interface => Panic
  | nil_pointer _ => Panic
  | value_of (TPtr elem) => Ok elem
  | value_of typ => Ok typ
  end.

End reflect.

(** ** Package [skyobject]: schemas *)

Module skyobject.

(** Modelled from the spec: the discriminator of an encoded schema, "not a
    reference" or one of Single, Slice, Dynamic (the declaration of
    [ReferenceType] is in the schema file, which is not at hand). *)
Definition ReferenceType : Type := Z.

Definition ReferenceTypeNone : ReferenceType := 0.
Definition ReferenceTypeSingle : ReferenceType := 1.
Definition ReferenceTypeSlice : ReferenceType := 2.
Definition ReferenceTypeDynamic : ReferenceType := 3.

(** Modelled from the spec: the schema variants of section 3 (the types
    [schema], [sliceSchema], [arraySchema], [structSchema],
    [referenceSchema] and [field] are declared in the schema file, which
    is not at hand; their fields are the ones [getSchema] and
    [decodeSchema] fill in).  A slice, array or struct schema is only ever
    built with the kind of its variant, so these carry no kind of their
    own.  A [Schema] is a freshly built schema: a tree without sharing. *)
#[local] Set Warnings "-register-all".

Inductive Schema : Type :=
  | schema (kind : reflect.Kind) (name : string)
  | sliceSchema (name : string) (elem : Schema)
  | arraySchema (name : string) (length : Z) (elem : Schema)
  | structSchema (name : string) (fields : list Field)
  | referenceSchema (kind : reflect.Kind) (typ : ReferenceType)
      (elem : option Schema)
with Field : Type :=
  | field (name : string) (tag : string) (schema_ : Schema).

Definition Field_Name (f : Field) : string :=
  match f with field n _ _ => n end.
Definition Field_Tag (f : Field) : string :=
  match f with field _ t _ => t end.
Definition Field_Schema (f : Field) : Schema :=
  match f with field _ _ s => s end.

Definition IsReference (s : Schema) : bool :=
  match s with referenceSchema _ _ _ => true | _ => false end.

Definition Schema_ReferenceType (s : Schema) : ReferenceType :=
  match s with referenceSchema _ typ _ => typ | _ => ReferenceTypeNone end.

Definition Schema_Kind (s : Schema) : reflect.Kind :=
  match s with
  | schema k _ => k
  | sliceSchema _ _ => reflect.Slice
  | arraySchema _ _ _ => reflect.Array
  | structSchema _ _ => reflect.Struct
  | referenceSchema k _ _ => k
  end.

Definition Schema_Name (s : Schema) : string :=
  match s with
  | schema _ n | sliceSchema n _ | arraySchema n _ _ | structSchema n _ => n
  | referenceSchema _ _ _ => EmptyString
  end.

(** [Elem()]: [nil] for a schema that has no element *)
Definition Schema_Elem (s : Schema) : option Schema :=
  match s with
  | sliceSchema _ el | arraySchema _ _ el => Some el
  | referenceSchema _ _ el => el
  | _ => None
  end.

Definition Schema_Len (s : Schema) : Z :=
  match s with arraySchema _ l _ => l | _ => 0 end.

Definition Schema_Fields (s : Schema) : list Field :=
  match s with structSchema _ fs => fs | _ => [] end.

(** Modelled from the spec: a schema is registered (named) when its name
    is not empty. *)
Definition IsRegistered (s : Schema) : bool :=
  negb (String.eqb (Schema_Name s) EmptyString).

(** ** The size engine ([SchemaSize] and its helpers) *)

(** [fixedSize] returns -1 for a kind of variable size *)
Definition fixedSize (kind : reflect.Kind) : Z :=
  if (kind =? reflect.Bool) || (kind =? reflect.Int8) || (kind =? reflect.Uint8)
  then 1
  else if (kind =? reflect.Int16) || (kind =? reflect.Uint16) then 2
  else if (kind =? reflect.Int32) || (kind =? reflect.Uint32)
          || (kind =? reflect.Float32) then 4
  else if (kind =? reflect.Int64) || (kind =? reflect.Uint64)
          || (kind =? reflect.Float64) then 8
  else -1.

(** [getLength] of a length-prefixed value *)
Definition getLength (p : list byte) : result Z :=
  '(u, _) ← encoder.read_uint32 p;
  Ok u.

(** Modelled from the spec: the wire layout of [References] is the one
    section 9 proposes, a 4-byte count followed by that many digests (the
    type is declared elsewhere).  [refSize] deserializes one from [p] and
    returns the number of bytes used. *)
Definition refSize (p : list byte) : result Z :=
  '(l, rest) ← encoder.read_uint32 p;
  if len rest <? l * cipher.SHA256_len then Err ErrBufferUnderflow
  else Ok (4 + l * cipher.SHA256_len).

(** [p[n:]] *)
Definition slice_from (n : Z) (p : list byte) : list byte :=
  skipn (Z.to_nat n) p.

(** [schemaArraySliceSize]: [size_el] is [SchemaSize] of the element
    schema, [elKind] its kind.  The loop [for i := 0; i < l; i++] runs over
    the [l - i] iterations left. *)
Fixpoint schemaArraySliceSize_loop (size_el : list byte -> result Z)
    (left : nat) (n : Z) (p : list byte) : result Z :=
  match left with
  | O => Ok n
  | S left' =>
      if n >=? len p then Err ErrInvalidSchemaOrData
      else
        m ← size_el (slice_from n p);
        schemaArraySliceSize_loop size_el left' (n + m) p
  end.

Definition schemaArraySliceSize (size_el : list byte -> result Z)
    (elKind : reflect.Kind) (l shift : Z) (p : list byte) : result Z :=
  let n := shift in
  let s := fixedSize elKind in
  if s >? 0 then Ok (n + l * s)
  else schemaArraySliceSize_loop size_el (Z.to_nat l) n p.

(** [schemaStructSize]: [sizes] is [SchemaSize] of each field's schema, in
    the order of the fields *)
Fixpoint schemaStructSize_loop (sizes : list (list byte -> result Z))
    (n : Z) (p : list byte) : result Z :=
  match sizes with
  | [] => Ok n
  | size_sf :: sizes' =>
      if n >=? len p then Err ErrInvalidSchemaOrData
      else
        m ← size_sf (slice_from n p);
        schemaStructSize_loop sizes' (n + m) p
  end.

(** [SchemaSize]: the size used by the encoded data of the given schema.
    (In the source the three reference cases read [sch], [p] and a
    one-value [return]; they are taken as [s], [p] and [n, nil].) *)
Fixpoint SchemaSize (s : Schema) (p : list byte) {struct s} : result Z :=
  let check (n : Z) : result Z :=
    if n >? len p then Err ErrInvalidSchemaOrData else Ok n in
  match s with
  | referenceSchema _ rt _ =>
      if rt =? ReferenceTypeSingle then Ok cipher.SHA256_len
      else if rt =? ReferenceTypeSlice then refSize p
      else if rt =? ReferenceTypeDynamic then Ok (2 * cipher.SHA256_len)
      else Err (ErrInvalidReferenceType rt)
  | schema kind _ =>
      if (kind =? reflect.Bool) || (kind =? reflect.Int8)
         || (kind =? reflect.Uint8) then check 1
      else if (kind =? reflect.Int16) || (kind =? reflect.Uint16) then check 2
      else if (kind =? reflect.Int32) || (kind =? reflect.Uint32)
              || (kind =? reflect.Float32) then check 4
      else if (kind =? reflect.Int64) || (kind =? reflect.Uint64)
              || (kind =? reflect.Float64) then check 8
      else if kind =? reflect.String then
        n ← getLength p; check (n + 4)
      else if (kind =? reflect.Slice) || (kind =? reflect.Array) then
        (* [s.Elem()] is nil, and [el.Kind()] is called on it *)
        if kind =? reflect.Slice then _ ← getLength p; Panic else Panic
      else if kind =? reflect.Struct then
        (* [s.Fields()] is empty *)
        check 0
      else Err ErrInvalidSchema
  | sliceSchema _ el =>
      (* [schemaSliceSize] *)
      n ← (l ← getLength p;
           schemaArraySliceSize (SchemaSize el) (Schema_Kind el) l 4 p);
      check n
  | arraySchema _ l el =>
      (* [schemaArraySize] *)
      n ← schemaArraySliceSize (SchemaSize el) (Schema_Kind el) l 0 p;
      check n
  | structSchema _ fields =>
      (* [schemaStructSize] *)
      n ← schemaStructSize_loop
             (map (fun sf => SchemaSize (Field_Schema sf)) fields) 0 p;
      check n
  end.

(** the lengths of the array schemas of [s] are not negative; an element
    of a reference is not looked at, as [SchemaSize] does not look at it *)
Fixpoint lengths_nonneg (s : Schema) : bool :=
  match s with
  | schema _ _ => true
  | sliceSchema _ el => lengths_nonneg el
  | arraySchema _ l el => (0 <=? l) && lengths_nonneg el
  | structSchema _ fields =>
      forallb (fun sf => match sf with
                         | field _ _ sch => lengths_nonneg sch
                         end) fields
  | referenceSchema _ _ _ => true
  end.

(** ** Values and their encoding

    Modelled from the spec: the encoder is an external primitive; section
    4.4 and section 6 fix what it writes for a value of each schema.  A
    [Value] is a value of some Go type, and [encode s v] is its encoding
    when [v] is a value of the type that [s] describes ([None] when it is
    not).  A scalar is kept as the unsigned number of its bit pattern. *)

Inductive Value : Type :=
  | VNum (z : Z)
  | VString (b : list byte)
  | VElems (vs : list Value)
  | VStruct (vs : list Value)
  | VReference (hash : cipher.SHA256)
  | VReferences (hashes : list cipher.SHA256)
  | VDynamic (schemaRef objectRef : cipher.SHA256).

(** two buffers agree as far as both go *)
Definition comparable (p q : list byte) : Prop :=
  p `prefix_of` q \/ q `prefix_of` p.

(** a struct: the fields one after the other; [encs] is [encode] of
    each field's schema *)
Fixpoint encode_fields (encs : list (Value -> option (list byte)))
    (vs : list Value) : option (list byte) :=
  match encs, vs with
  | [], [] => Some []
  | enc_sf :: encs', v :: vs' =>
      e ← enc_sf v;
      r ← encode_fields encs' vs';
      Some (e ++ r)
  | _, _ => None
  end.

Fixpoint encode (s : Schema) (v : Value) {struct s} : option (list byte) :=
  match s, v with
  | schema kind _, VNum z =>
      if (0 <? fixedSize kind) && (0 <=? z) && (z <? 2 ^ (8 * fixedSize kind))
         && (negb (kind =? reflect.Bool) || (z <? 2))
      then Some (encoder.le_split (Z.to_nat (fixedSize kind)) z)
      else None
  | schema kind _, VString b =>
      if (kind =? reflect.String) && (len b <? 2 ^ 32)
      then Some (encoder.bytes b)
      else None
  | sliceSchema _ el, VElems vs =>
      if len vs <? 2 ^ 32 then
        es ← mapM (encode el) vs;
        Some (encoder.uint32 (len vs) ++ concat es)
      else None
  | arraySchema _ l el, VElems vs =>
      if len vs =? l then
        es ← mapM (encode el) vs;
        Some (concat es)
      else None
  | structSchema _ fields, VStruct vs =>
      encode_fields (map (fun sf => encode (Field_Schema sf)) fields) vs
  | referenceSchema kind rt _, v =>
      (* the kind of a reference schema is the kind of the Go type
         [Reference], [References] or [Dynamic]: not a scalar one *)
      if 0 <? fixedSize kind then None
      else
        match v with
        | VReference h =>
            if rt =? ReferenceTypeSingle then Some (vec_to_list h) else None
        | VReferences hs =>
            if (rt =? ReferenceTypeSlice) && (len hs <? 2 ^ 32)
            then Some (encoder.uint32 (len hs) ++ concat (map vec_to_list hs))
            else None
        | VDynamic sr h =>
            if rt =? ReferenceTypeDynamic
            then Some (vec_to_list sr ++ vec_to_list h)
            else None
        | _ => None
        end
  | _, _ => None
  end.

(** a struct whose last field takes no bytes,
    [struct { A uint8; B struct{} }], and a value of it *)
Definition trailing_empty_schema : Schema :=
  structSchema "T"
    [ field "A" "" (schema reflect.Uint8 "uint8");
      field "B" "" (structSchema "" []) ].

Definition trailing_empty_value : Value := VStruct [VNum 7; VStruct []].

(** [[]string] and the value [["A", ""]] *)
Definition strings_schema : Schema :=
  sliceSchema "" (schema reflect.String "string").

Definition strings_value : Value := VElems [VString [x41]; VString []].

(** the property of a size function at one encoding [e]: on a buffer that
    agrees with [e] it returns the length of [e] or fails *)
Definition sound_on (size : list byte -> result Z) (e : list byte) : Prop :=
  forall q, comparable q e -> size q = Ok (len e) \/ is_Err (size q).

(** ... and on a buffer that holds [e] and more it returns the length *)
Definition exact_on (size : list byte -> result Z) (e : list byte) : Prop :=
  forall rest, rest <> [] -> size (e ++ rest) = Ok (len e).

(** ** The schema codec: [decodeSchema]

    The two structs that the encoder reads, as the comment in
    [decodeSchema] gives them. *)

Record encodedSchema : Type := {
  es_ReferenceType : Z;
  es_Kind : Z;
  es_Name : list byte;
  es_Len : Z;
  es_Fields : list (list byte);
  es_Elem : list byte
}.

Record encodedField : Type := {
  ef_Name : list byte;
  ef_Tag : list byte;
  ef_Schema : list byte
}.

(** [encoder.Serialize] and [encoder.DeserializeRaw] at these structs;
    [DeserializeRaw] does not look at what follows the value *)
Definition Serialize_encodedSchema (x : encodedSchema) : list byte :=
  encoder.uint32 (es_ReferenceType x) ++ encoder.uint32 (es_Kind x)
  ++ encoder.bytes (es_Name x) ++ encoder.uint32 (es_Len x)
  ++ encoder.slice encoder.bytes (es_Fields x) ++ encoder.bytes (es_Elem x).

Definition DeserializeRaw_encodedSchema (b : list byte)
  : result encodedSchema :=
  '(rt, b) ← encoder.read_uint32 b;
  '(kind, b) ← encoder.read_uint32 b;
  '(name, b) ← encoder.read_lbytes b;
  '(l, b) ← encoder.read_uint32 b;
  '(fields, b) ← encoder.read_slice encoder.read_lbytes b;
  '(elem, _) ← encoder.read_lbytes b;
  Ok {| es_ReferenceType := rt; es_Kind := kind; es_Name := name;
        es_Len := l; es_Fields := fields; es_Elem := elem |}.

Definition Serialize_encodedField (x : encodedField) : list byte :=
  encoder.bytes (ef_Name x) ++ encoder.bytes (ef_Tag x)
  ++ encoder.bytes (ef_Schema x).

Definition DeserializeRaw_encodedField (b : list byte)
  : result encodedField :=
  '(name, b) ← encoder.read_lbytes b;
  '(tag, b) ← encoder.read_lbytes b;
  '(sch, _) ← encoder.read_lbytes b;
  Ok {| ef_Name := name; ef_Tag := tag; ef_Schema := sch |}.

(** a loop that returns at the first failure *)
Fixpoint mapM_result {A B : Type} (f : A -> result B) (l : list A)
  : result (list B) :=
  match l with
  | [] => Ok []
  | x :: l' =>
      y ← f x;
      ys ← mapM_result f l';
      Ok (y :: ys)
  end.

(** [decodeSchema] and [decodeField].  The recursion is on the encoded
    element and on the encoded fields, which are pieces of [b]; [fuel]
    bounds its depth, and [S (length b)] is enough. *)
Fixpoint decodeSchema_fuel (fuel : nat) (b : list byte) : result Schema :=
  match fuel with
  | O => Panic
  | S fuel' =>
      x ← DeserializeRaw_encodedSchema b;
      let rt := es_ReferenceType x in
      if (rt =? ReferenceTypeSingle) || (rt =? ReferenceTypeSlice)
         || (rt =? ReferenceTypeDynamic) then
        if negb (rt =? ReferenceTypeDynamic) then
          el ← decodeSchema_fuel fuel' (es_Elem x);
          Ok (referenceSchema (es_Kind x) rt (Some el))
        else Ok (referenceSchema (es_Kind x) rt None)
      else if rt =? ReferenceTypeNone then
        let name := string_of_list_byte (es_Name x) in
        let k := es_Kind x in
        if k =? reflect.Slice then
          el ← decodeSchema_fuel fuel' (es_Elem x);
          Ok (sliceSchema name el)
        else if k =? reflect.Array then
          el ← decodeSchema_fuel fuel' (es_Elem x);
          Ok (arraySchema name (es_Len x) el)
        else if k =? reflect.Struct then
          fields ← mapM_result
                     (fun ef_bytes =>
                        (* [decodeField] *)
                        ef ← DeserializeRaw_encodedField ef_bytes;
                        sch ← decodeSchema_fuel fuel' (ef_Schema ef);
                        Ok (field (string_of_list_byte (ef_Name ef))
                                  (string_of_list_byte (ef_Tag ef)) sch))
                     (es_Fields x);
          Ok (structSchema name fields)
        else Ok (schema k name)
      else Err ErrInvalidEncodedSchema
  end.

Definition decodeSchema (b : list byte) : result Schema :=
  decodeSchema_fuel (S (length b)) b.

(** the kinds that [getSchema] and [SchemaSize] know *)
Definition recognizedKind (kind : reflect.Kind) : bool :=
  (0 <? fixedSize kind) || (kind =? reflect.String)
  || (kind =? reflect.Slice) || (kind =? reflect.Array)
  || (kind =? reflect.Struct).

Definition recognizedReferenceType (rt : ReferenceType) : bool :=
  (rt =? ReferenceTypeNone) || (rt =? ReferenceTypeSingle)
  || (rt =? ReferenceTypeSlice) || (rt =? ReferenceTypeDynamic).

(** an encoded schema with the discriminator "not a reference" and the
    kind [reflect.Map] *)
Definition encoded_map_schema : list byte :=
  Serialize_encodedSchema
    {| es_ReferenceType := ReferenceTypeNone; es_Kind := reflect.Map;
       es_Name := []; es_Len := 0; es_Fields := []; es_Elem := [] |}.

(** ** The type registrar ([Reg]) *)

(** [TAG]: the struct tag that names the schema of a reference field *)
Definition TAG : string := "skyobject".

(** Modelled from the spec: the three reference-wrapper types are declared
    elsewhere; a [Reference] is one digest, [References] a list of them, a
    [Dynamic] two digests (sections 4.4 and 6). *)
Definition typeOfRef : reflect.Type_ :=
  reflect.TArray "Reference" 32 (reflect.TBasic reflect.Uint8 "uint8").

Definition typeOfRefs : reflect.Type_ := reflect.TSlice "References" typeOfRef.

Definition typeOfDynamic : reflect.Type_ :=
  reflect.TStruct "Dynamic"
    [ reflect.Build_StructField "Schema" [] "" typeOfRef;
      reflect.Build_StructField "Object" [] "" typeOfRef ].

(** [Reg]: [tn] maps a type to its registered name *)
Record Reg : Type := Build_Reg { Reg_tn : gmap reflect.Type_ string }.

Definition newReg : Reg := {| Reg_tn := ∅ |}.

Definition typeOf (i : reflect.any) : result reflect.Type_ :=
  reflect.Indirect_ValueOf_Type i.

(** the values of a map that holds names *)
Definition names_of {K : Type} `{Countable K} (m : gmap K string)
  : list string :=
  (map_to_list m).*2.

Definition Register (r : Reg) (name : string) (val : reflect.any)
  : result Reg :=
  if String.eqb name "" then Panic (* "empty name" *)
  else
    typ ← typeOf val;
    if bool_decide (typ = typeOfRef) || bool_decide (typ = typeOfRefs)
       || bool_decide (typ = typeOfDynamic)
    then Panic (* "can't register reference type" *)
    else if existsb (String.eqb name) (names_of (Reg_tn r))
    then Panic (* "this name already registered" *)
    else Ok {| Reg_tn := <[typ := name]> (Reg_tn r) |}.

(** the function that [NewRegistry] is given: it registers the
    declarations [decls], a name and an exemplar each, one after the
    other *)
Fixpoint declare (decls : list (string * reflect.any)) (t : Reg)
  : result Reg :=
  match decls with
  | [] => Ok t
  | (name, val) :: decls' =>
      t ← Register t name val;
      declare decls' t
  end.

(** [typeName]: the registered name, or else the name of the type *)
Definition typeName (r : Reg) (typ : reflect.Type_) : string :=
  match Reg_tn r !! typ with
  | Some name => name
  | None => reflect.Type_Name typ
  end.

(** the loop of [TagSchemaName] over the parts of the tag *)
Fixpoint TagSchemaName_parts (parts : list string) (skytag : string)
  : result string :=
  match parts with
  | [] => Err (ErrTag ("invalid skyobject tag: " ++ skytag))
  | part :: parts' =>
      if negb (gostrings.HasPrefix part "schema=") then
        TagSchemaName_parts parts' skytag
      else
        match gostrings.Split part "=" with
        | [_; sch] =>
            if String.eqb sch "" then
              Err (ErrTag ("empty tag schema name: " ++ part))
            else Ok sch
        | _ => Err (ErrTag ("invalid schema tag: " ++ part))
        end
  end.

Definition TagSchemaName (tag : reflect.StructTag) : result string :=
  let skytag := reflect.StructTag_Get tag TAG in
  if String.eqb skytag "" then
    Err (ErrTag "empty skyobject tag, expected schema=XXX")
  else TagSchemaName_parts (gostrings.Split skytag ",") skytag.

Definition mustTagSchemaName (tag : reflect.StructTag) : result string :=
  match TagSchemaName tag with
  | Ok sch => Ok sch
  | _ => Panic
  end.

(** the placeholder of a registered schema: its kind and its name *)
Definition placeholder (s : Schema) : Schema :=
  schema (Schema_Kind s) (Schema_Name s).

(** the kinds of the first case of the switch in [getSchema] *)
Definition basicKind (kind : reflect.Kind) : bool :=
  (0 <? fixedSize kind) || (kind =? reflect.String).

(** [getSchema] and, for the fields of a struct, [getField] *)
Fixpoint getSchema (r : Reg) (typ : reflect.Type_) {struct typ}
  : result Schema :=
  if bool_decide (typ = typeOfDynamic) then
    Ok (referenceSchema (reflect.Type_Kind typ) ReferenceTypeDynamic None)
  else if bool_decide (typ = typeOfRef) || bool_decide (typ = typeOfRefs) then
    Panic (* "Ref or Refs are not allowed in arrays and slices" *)
  else
    match typ with
    | reflect.TBasic kind _ =>
        if basicKind kind then Ok (schema kind (typeName r typ))
        else Panic (* "invlaid type" *)
    | reflect.TPtr _ => Panic
    | reflect.TSlice _ elem =>
        el ← getSchema r elem;
        if IsRegistered el then Ok (sliceSchema (typeName r typ) (placeholder el))
        else Ok (sliceSchema (typeName r typ) el)
    | reflect.TArray _ l elem =>
        el ← getSchema r elem;
        if IsRegistered el
        then Ok (arraySchema (typeName r typ) l (placeholder el))
        else Ok (arraySchema (typeName r typ) l el)
    | reflect.TStruct _ fields =>
        fs ← (fix fields_loop (sfs : list reflect.StructField)
                : result (list Field) :=
                match sfs with
                | [] => Ok []
                | reflect.Build_StructField sf_Name sf_Tag sf_PkgPath t :: sfs' =>
                    if String.eqb (reflect.StructTag_Get sf_Tag "enc") "-"
                       || negb (String.eqb sf_PkgPath "")
                       || String.eqb sf_Name "_"
                    then fields_loop sfs'
                    else
                      f ← (* [getField] *)
                          (let name := sf_Name in
                           let tag := reflect.StructTag_string sf_Tag in
                           if bool_decide (t = typeOfRef) then
                             tagRef ← mustTagSchemaName sf_Tag;
                             Ok (field name tag
                                   (referenceSchema (reflect.Type_Kind t)
                                      ReferenceTypeSingle
                                      (Some (schema reflect.Struct tagRef))))
                           else if bool_decide (t = typeOfRefs) then
                             tagRef ← mustTagSchemaName sf_Tag;
                             Ok (field name tag
                                   (referenceSchema (reflect.Type_Kind t)
                                      ReferenceTypeSlice
                                      (Some (schema reflect.Struct tagRef))))
                           else if bool_decide (t = typeOfDynamic) then
                             Ok (field name tag
                                   (referenceSchema (reflect.Type_Kind t)
                                      ReferenceTypeDynamic None))
                           else
                             s ← getSchema r t;
                             if IsRegistered s
                             then Ok (field name tag (placeholder s))
                             else Ok (field name tag s));
                      fs' ← fields_loop sfs';
                      Ok (f :: fs')
                end) fields;
        Ok (structSchema (typeName r typ) fs)
    end.

(** [getField], on its own *)
Definition getField (r : Reg) (sf : reflect.StructField) : result Field :=
  match sf with
  | reflect.Build_StructField sf_Name sf_Tag _ t =>
      let name := sf_Name in
      let tag := reflect.StructTag_string sf_Tag in
      if bool_decide (t = typeOfRef) then
        tagRef ← mustTagSchemaName sf_Tag;
        Ok (field name tag
              (referenceSchema (reflect.Type_Kind t) ReferenceTypeSingle
                 (Some (schema reflect.Struct tagRef))))
      else if bool_decide (t = typeOfRefs) then
        tagRef ← mustTagSchemaName sf_Tag;
        Ok (field name tag
              (referenceSchema (reflect.Type_Kind t) ReferenceTypeSlice
                 (Some (schema reflect.Struct tagRef))))
      else if bool_decide (t = typeOfDynamic) then
        Ok (field name tag
              (referenceSchema (reflect.Type_Kind t) ReferenceTypeDynamic None))
      else
        s ← getSchema r t;
        if IsRegistered s then Ok (field name tag (placeholder s))
        else Ok (field name tag s)
  end.

(** the field is a reference to the schema [name]: a [Reference] or
    [References] whose tag names it *)
Definition references (sf : reflect.StructField) (name : string) : Prop :=
  match sf with
  | reflect.Build_StructField _ sf_Tag _ t =>
      (t = typeOfRef \/ t = typeOfRefs) /\ TagSchemaName sf_Tag = Ok name
  end.

(** a struct with one field, which is a [Reference], or [References] if
    [many], with the tag [tag] *)
Definition refStruct (tname fname : string) (tag : reflect.StructTag)
    (many : bool) : reflect.Type_ :=
  reflect.TStruct tname
    [ reflect.Build_StructField fname tag ""
        (if many then typeOfRefs else typeOfRef) ].

(** the fields that [getSchema] leaves out *)
Definition skipped (sf : reflect.StructField) : bool :=
  match sf with
  | reflect.Build_StructField sf_Name sf_Tag sf_PkgPath _ =>
      String.eqb (reflect.StructTag_Get sf_Tag "enc") "-"
      || negb (String.eqb sf_PkgPath "")
      || String.eqb sf_Name "_"
  end.

(** the loop of [getSchema] over the fields of a struct *)
Fixpoint getFields (r : Reg) (sfs : list reflect.StructField)
  : result (list Field) :=
  match sfs with
  | [] => Ok []
  | sf :: sfs' =>
      if skipped sf then getFields r sfs'
      else
        f ← getField r sf;
        fs' ← getFields r sfs';
        Ok (f :: fs')
  end.

(** the three reference-wrapper types *)
Definition isReferenceType (typ : reflect.Type_) : Prop :=
  typ = typeOfRef \/ typ = typeOfRefs \/ typ = typeOfDynamic.

(** ** Schemas in memory

    A [Registry] holds its schemas by pointer, and [fillSchema] redirects
    pointers, so that schemas come to share, and to reach one another in
    cycles.  The schemas of a registry are objects in a store; a pointer
    is the address of an object.  An address names the object by the
    place it was created at: the entry of the registry that the schema
    was built for (its name, and its position among the decoded entries),
    and the path from that schema down to the object. *)

Definition addr : Type := (string * nat) * list nat.

Inductive object : Type :=
  | schemaObj (kind : reflect.Kind) (name : string)
  | sliceObj (name : string) (elem : addr)
  | arrayObj (name : string) (length : Z) (elem : addr)
  | structObj (name : string) (fields : list (string * string * addr))
  | referenceObj (kind : reflect.Kind) (typ : ReferenceType)
      (elem : option addr).

Abbreviation heap := (gmap addr object).

Definition Kind_of (o : object) : reflect.Kind :=
  match o with
  | schemaObj kind _ => kind
  | sliceObj _ _ => reflect.Slice
  | arrayObj _ _ _ => reflect.Array
  | structObj _ _ => reflect.Struct
  | referenceObj kind _ _ => kind
  end.

Definition Name_of (o : object) : string :=
  match o with
  | schemaObj _ name | sliceObj name _ | arrayObj name _ _
  | structObj name _ => name
  | referenceObj _ _ _ => EmptyString
  end.

Definition IsRegistered_of (o : object) : bool :=
  negb (String.eqb (Name_of o) EmptyString).

(** the pointers of an object *)
Definition children (o : object) : list addr :=
  match o with
  | schemaObj _ _ => []
  | sliceObj _ elem | arrayObj _ _ elem => [elem]
  | structObj _ fields => fields.*2
  | referenceObj _ _ elem => option_list elem
  end.

(** a freshly built schema put in the store, at [(root, path)] and below *)
Fixpoint store (root : string * nat) (path : list nat) (s : Schema)
    (h : heap) {struct s} : heap :=
  match s with
  | schema kind name => <[(root, path) := schemaObj kind name]> h
  | sliceSchema name el =>
      <[(root, path) := sliceObj name (root, path ++ [0%nat])]>
        (store root (path ++ [0%nat]) el h)
  | arraySchema name l el =>
      <[(root, path) := arrayObj name l (root, path ++ [0%nat])]>
        (store root (path ++ [0%nat]) el h)
  | structSchema name fields =>
      <[(root, path) :=
          structObj name
            (imap (fun i sf =>
                     (Field_Name sf, Field_Tag sf, (root, path ++ [i])))
               fields)]>
        ((fix store_fields (fs : list Field) (i : nat) (h : heap) : heap :=
            match fs with
            | [] => h
            | field _ _ sch :: fs' =>
                store_fields fs' (S i) (store root (path ++ [i]) sch h)
            end) fields 0%nat h)
  | referenceSchema kind typ el =>
      match el with
      | Some e =>
          <[(root, path) := referenceObj kind typ (Some (root, path ++ [0%nat]))]>
            (store root (path ++ [0%nat]) e h)
      | None => <[(root, path) := referenceObj kind typ None]> h
      end
  end.

(** Modelled from the spec: the encoding of a schema (section 4.3; the
    method [Encode] is in the schema file, which is not at hand).  The
    discriminator, the kind, the name, then the length of an array, the
    element, or the fields, each with its name, its tag and its schema;
    an element or field schema that is registered is written as its
    placeholder, kind and name.  The layout is the [encodedSchema] that
    [decodeSchema] reads.  [fuel] bounds the depth of the schema. *)
Fixpoint Schema_Encode_fuel (fuel : nat) (h : heap) (s : addr)
  : result (list byte) :=
  match fuel with
  | O => Panic
  | S fuel' =>
      let plain (kind : reflect.Kind) (name : string) (l : Z)
          (fields : list (list byte)) (elem : list byte) : list byte :=
        Serialize_encodedSchema
          {| es_ReferenceType := ReferenceTypeNone; es_Kind := kind;
             es_Name := list_byte_of_string name; es_Len := l;
             es_Fields := fields; es_Elem := elem |} in
      let encodedElem (e : addr) : result (list byte) :=
        match h !! e with
        | None => Panic
        | Some eo =>
            if IsRegistered_of eo
            then Ok (plain (Kind_of eo) (Name_of eo) 0 [] [])
            else Schema_Encode_fuel fuel' h e
        end in
      match h !! s with
      | None => Panic
      | Some (schemaObj kind name) => Ok (plain kind name 0 [] [])
      | Some (sliceObj name elem) =>
          el ← encodedElem elem;
          Ok (plain reflect.Slice name 0 [] el)
      | Some (arrayObj name l elem) =>
          el ← encodedElem elem;
          Ok (plain reflect.Array name l [] el)
      | Some (structObj name fields) =>
          fs ← mapM_result
                 (fun '(fname, ftag, fsch) =>
                    sch ← encodedElem fsch;
                    Ok (Serialize_encodedField
                          {| ef_Name := list_byte_of_string fname;
                             ef_Tag := list_byte_of_string ftag;
                             ef_Schema := sch |}))
                 fields;
          Ok (plain reflect.Struct name 0 fs [])
      | Some (referenceObj kind typ elem) =>
          el ← match elem with
               | Some e => encodedElem e
               | None => Ok []
               end;
          Ok (Serialize_encodedSchema
                {| es_ReferenceType := typ; es_Kind := kind; es_Name := [];
                   es_Len := 0; es_Fields := []; es_Elem := el |})
      end
  end.

Definition Schema_Encode (h : heap) (s : addr) : result (list byte) :=
  Schema_Encode_fuel (S (size h)) h s.

(** ** The registry *)

Section Registry.

(** [cipher.SumSHA256] *)
Context (SumSHA256 : list byte -> cipher.SHA256).

(** Modelled from the spec: the identifier of a schema is the digest of its
    encoding. *)
Definition Schema_Reference (h : heap) (s : addr) : result cipher.SHA256 :=
  b ← Schema_Encode h s;
  Ok (SumSHA256 b).

Record Registry : Type := Build_Registry {
  done : bool;
  ref : cipher.SHA256;
  reg : gmap string addr;
  srf : gmap cipher.SHA256 addr;
  nt : gmap string reflect.Type_;
  tn : gmap reflect.Type_ string;
  (** the schema objects that [reg] and [srf] point to *)
  mem : heap
}.

(** [range] over a map, in the order [order] of its keys: the entries
    visited.  Go fixes no order; any arrangement of the keys is one. *)
Definition range {K V : Type} `{Countable K} (m : gmap K V)
    (order : list K) : list (K * V) :=
  omap (fun k => (k,.) <$> m !! k) order.

Definition valid_order {K V : Type} `{Countable K} (m : gmap K V)
    (order : list K) : Prop :=
  order ≡ₚ (map_to_list m).*1.

(** the orders of the [range] loops of one build: in [register], the two of
    [finialize], and the one of [Encode] *)
Record orders : Type := Build_orders {
  order_register : list reflect.Type_;
  order_fill : list string;
  order_srf : list string;
  order_encode : list string
}.

Definition newRegistry : Registry :=
  {| done := false; ref := vreplicate 32 x00; reg := ∅; srf := ∅;
     nt := ∅; tn := ∅; mem := ∅ |}.

Record registryEntity : Type := Build_registryEntity {
  re_Name : string;
  re_Schema : list byte
}.

Definition Serialize_registryEntities (ent : list registryEntity)
  : list byte :=
  encoder.slice
    (fun re => encoder.bytes (list_byte_of_string (re_Name re))
               ++ encoder.bytes (re_Schema re)) ent.

Definition DeserializeRaw_registryEntities (b : list byte)
  : result (list registryEntity) :=
  '(res, _) ← encoder.read_slice
                 (fun p =>
                    '(name, p) ← encoder.read_lbytes p;
                    '(sch, p) ← encoder.read_lbytes p;
                    Ok ({| re_Name := string_of_list_byte name;
                           re_Schema := sch |}, p)) b;
  Ok res.

(** [sort.Sort(ent)], with [Less(i, j)] being [r[i].Name < r[j].Name] *)
Fixpoint sort_insert (re : registryEntity) (ent : list registryEntity)
  : list registryEntity :=
  match ent with
  | [] => [re]
  | re' :: ent' =>
      if String.ltb (re_Name re) (re_Name re') then re :: ent
      else re' :: sort_insert re ent'
  end.

Fixpoint sort_Sort (ent : list registryEntity) : list registryEntity :=
  match ent with
  | [] => []
  | re :: ent' => sort_insert re (sort_Sort ent')
  end.

(** [Encode] the registry *)
Definition Registry_Encode (r : Registry) (order : list string)
  : result (list byte) :=
  if bool_decide (size (reg r) = 0%nat) then Ok (Serialize_registryEntities [])
  else
    ent ← mapM_result
            (fun '(name, sch) =>
               b ← Schema_Encode (mem r) sch;
               Ok {| re_Name := name; re_Schema := b |})
            (range (reg r) order);
    Ok (Serialize_registryEntities (sort_Sort ent)).

Definition Registry_Reference (r : Registry) : cipher.SHA256 := ref r.

Definition schemaByName (r : Registry) (name : string) : result addr :=
  match reg r !! name with
  | Some s => Ok s
  | None => Err (ErrMissingSchema name)
  end.

Definition SchemaByName (r : Registry) (name : string) : result addr :=
  schemaByName r name.

Definition SchemaByReference (r : Registry) (sr : cipher.SHA256)
  : result addr :=
  match srf r !! sr with
  | Some s => Ok s
  | None => Err (ErrMissingSchema "")
  end.

(** [Types]: the two maps between names and types *)
Record Types : Type := Build_Types {
  Direct : gmap string reflect.Type_;
  Inverse : gmap reflect.Type_ string
}.

Definition Registry_Types (r : Registry) : Types :=
  {| Direct := nt r; Inverse := tn r |}.

(** [register]: a schema for every registered type *)
Fixpoint register_loop (rg : Reg) (entries : list (reflect.Type_ * string))
    (r : Registry) : result Registry :=
  match entries with
  | [] => Ok r
  | (typ, name) :: entries' =>
      s ← getSchema rg typ;
      if negb (IsRegistered s) then Panic (* "can't register type" *)
      else
        register_loop rg entries'
          {| done := done r; ref := ref r;
             reg := <[name := ((name, 0%nat), [])]> (reg r);
             srf := srf r;
             nt := <[name := typ]> (nt r);
             tn := tn r;
             mem := store (name, 0%nat) [] s (mem r) |}
  end.

Definition register (r : Registry) (rg : Reg) (order : list reflect.Type_)
  : result Registry :=
  register_loop rg (range (Reg_tn rg) order)
    {| done := done r; ref := ref r; reg := reg r; srf := srf r;
       nt := nt r; tn := Reg_tn rg; mem := mem r |}.

(** the schema to put in the place of [e]: the registered one of that
    name if [e] is registered ([schemaByName], with a panic when there is
    none), else [e] itself *)
Definition resolve (rg : gmap string addr) (h : heap) (e : addr)
  : result addr :=
  match h !! e with
  | None => Panic
  | Some eo =>
      if IsRegistered_of eo then
        match rg !! Name_of eo with
        | Some a => Ok a
        | None => Panic
        end
      else Ok e
  end.

(** ... and for the element of a reference, which is looked up whatever
    it is *)
Definition resolve_reference (rg : gmap string addr) (h : heap) (e : addr)
  : result addr :=
  match h !! e with
  | None => Panic
  | Some eo =>
      match rg !! Name_of eo with
      | Some a => Ok a
      | None => Panic
      end
  end.

(** [x.schema = ...] for the field [i] of the struct [o] *)
Definition set_field_schema (i : nat) (a : addr) (o : object) : object :=
  match o with
  | structObj name fields =>
      structObj name (alter (fun '(fname, ftag, _) => (fname, ftag, a)) i fields)
  | _ => o
  end.

(** [fillSchema].  The recursion follows the pointers of the store, which
    may run in cycles; [fuel] bounds its depth, and the outcome [None]
    says that the fuel was not enough.  [filled] is the set of the schemas
    visited, by identity. *)
Fixpoint fillSchema (fuel : nat) (rg : gmap string addr) (s : addr)
    (st : heap * gset addr) {struct fuel}
  : option (result (heap * gset addr)) :=
  match fuel with
  | O => None
  | S fuel' =>
      let '(h, filled) := st in
      if bool_decide (s ∈ filled) then Some (Ok st) (* already *)
      else
        let filled := {[s]} ∪ filled in
        match h !! s with
        | None => Some Panic
        | Some (referenceObj kind typ elem) =>
            if (typ =? ReferenceTypeSingle) || (typ =? ReferenceTypeSlice)
            then
              match elem with
              | None => Some Panic
              | Some e =>
                  match resolve_reference rg h e with
                  | Ok a =>
                      fillSchema fuel' rg a
                        (<[s := referenceObj kind typ (Some a)]> h, filled)
                  | _ => Some Panic
                  end
              end
            else if typ =? ReferenceTypeDynamic then Some (Ok (h, filled))
            else Some Panic (* "invalid reference" *)
        | Some (arrayObj name l elem) =>
            match resolve rg h elem with
            | Ok a => fillSchema fuel' rg a (<[s := arrayObj name l a]> h, filled)
            | _ => Some Panic
            end
        | Some (sliceObj name elem) =>
            match resolve rg h elem with
            | Ok a => fillSchema fuel' rg a (<[s := sliceObj name a]> h, filled)
            | _ => Some Panic
            end
        | Some (structObj name fields) =>
            (fix fields_loop (fs : list (string * string * addr)) (i : nat)
                 (st : heap * gset addr) {struct fs}
               : option (result (heap * gset addr)) :=
               match fs with
               | [] => Some (Ok st)
               | (_, _, fsch) :: fs' =>
                   match resolve rg st.1 fsch with
                   | Ok a =>
                       match fillSchema fuel' rg a
                               (alter (set_field_schema i a) s st.1, st.2) with
                       | Some (Ok st') => fields_loop fs' (S i) st'
                       | other => other
                       end
                   | _ => Some Panic
                   end
               end) fields 0%nat (h, filled)
        | Some (schemaObj kind _) =>
            (* the type assertions to an array schema and to a slice schema *)
            if (kind =? reflect.Array) || (kind =? reflect.Slice)
            then Some Panic
            else Some (Ok (h, filled))
        end
  end.

(** the loop of [fillSchema] over the fields of the struct [s], on its
    own; [fill] is [fillSchema] itself, [i] the index of the first field
    of [fs] *)
Fixpoint fillFields
    (fill : addr -> heap * gset addr -> option (result (heap * gset addr)))
    (rg : gmap string addr) (s : addr) (fs : list (string * string * addr))
    (i : nat) (st : heap * gset addr) {struct fs}
  : option (result (heap * gset addr)) :=
  match fs with
  | [] => Some (Ok st)
  | (_, _, fsch) :: fs' =>
      match resolve rg st.1 fsch with
      | Ok a =>
          match fill a (alter (set_field_schema i a) s st.1, st.2) with
          | Some (Ok st') => fillFields fill rg s fs' (S i) st'
          | other => other
          end
      | _ => Some Panic
      end
  end.

(** the outcome of a fill that ends: some result, and on success the same
    objects in the store, and no schema forgotten *)
Definition fill_progress (h : heap) (F : gset addr)
    (r : option (result (heap * gset addr))) : Prop :=
  exists res, r = Some res
    /\ forall h' F', res = Ok (h', F') -> dom h' = dom h /\ F ⊆ F'.

(** the store that a fill leaves *)
Definition heap_of (res : result (heap * gset addr)) : result heap :=
  st ← res; Ok st.1.

(** *** What [fillSchema] makes of the store

    Relative to a table [rg] of names and a store [h0] before the fill:
    the pointers of an object that [fillSchema] resolves and then
    follows, what each of them is resolved to, and the object with all of
    them resolved. *)

Section Resolution.

Context (rg : gmap string addr) (h0 : heap).

Definition targets (o : object) : list addr :=
  match o with
  | schemaObj _ _ => []
  | sliceObj _ elem | arrayObj _ _ elem => [elem]
  | structObj _ fields => fields.*2
  | referenceObj _ typ elem =>
      if (typ =? ReferenceTypeSingle) || (typ =? ReferenceTypeSlice)
      then option_list elem
      else []
  end.

Definition resolve_child (o : object) (e : addr) : result addr :=
  match o with
  | referenceObj _ _ _ => resolve_reference rg h0 e
  | _ => resolve rg h0 e
  end.

Definition resolve_field (f : string * string * addr)
  : result (string * string * addr) :=
  a ← resolve rg h0 f.2;
  Ok (f.1, a).

Definition resolve_object (o : object) : result object :=
  match o with
  | schemaObj kind _ =>
      if (kind =? reflect.Array) || (kind =? reflect.Slice) then Panic
      else Ok o
  | sliceObj name elem =>
      a ← resolve rg h0 elem;
      Ok (sliceObj name a)
  | arrayObj name l elem =>
      a ← resolve rg h0 elem;
      Ok (arrayObj name l a)
  | structObj name fields =>
      fs ← mapM_result resolve_field fields;
      Ok (structObj name fs)
  | referenceObj kind typ elem =>
      if (typ =? ReferenceTypeSingle) || (typ =? ReferenceTypeSlice) then
        match elem with
        | None => Panic
        | Some e =>
            a ← resolve_reference rg h0 e;
            Ok (referenceObj kind typ (Some a))
        end
      else if typ =? ReferenceTypeDynamic then Ok o
      else Panic
  end.

(** the fill leaves the names of the objects alone *)
Definition names_agree (h : heap) : Prop :=
  forall a, Name_of <$> h !! a = Name_of <$> h0 !! a.

(** ... and the objects it did not visit *)
Definition untouched (h : heap) (F : gset addr) : Prop :=
  forall a, a ∉ F -> h !! a = h0 !! a.

(** the object at [a] is resolved, and what it points to is visited *)
Definition resolved (h : heap) (F : gset addr) (a : addr) : Prop :=
  exists o o', h0 !! a = Some o /\ resolve_object o = Ok o'
    /\ h !! a = Some o'
    /\ forall e c, e ∈ targets o -> resolve_child o e = Ok c -> c ∈ F.

(** the object at [a] cannot be resolved: the fill panics on it *)
Definition unresolvable (a : addr) : Prop :=
  forall o, h0 !! a = Some o -> forall o', resolve_object o <> Ok o'.

(** a set of schemas that holds what its members point to, resolved *)
Definition closed (R : addr -> Prop) : Prop :=
  forall a o e c, R a -> h0 !! a = Some o -> e ∈ targets o ->
    resolve_child o e = Ok c -> R c.

(** what a fill from [(h, F)] has to establish when it returns [res]; the
    fill was called on [s] *)
Definition fill_post (R : addr -> Prop) (h : heap) (F : gset addr)
    (res : result (heap * gset addr)) : Prop :=
  match res with
  | Ok (h', F') =>
      F ⊆ F' /\ names_agree h' /\ untouched h' F'
      /\ (forall a, a ∈ F -> h' !! a = h !! a)
      /\ (forall a, a ∈ F' -> a ∉ F -> resolved h' F' a /\ R a)
  | Panic => exists a, R a /\ unresolvable a
  | Err _ => False
  end.

(** what is asked of a fill function: [fillSchema] with some fuel *)
Definition fill_correct (R : addr -> Prop)
    (fill : addr -> heap * gset addr -> option (result (heap * gset addr)))
  : Prop :=
  forall a h F res,
    fill a (h, F) = Some res ->
    names_agree h -> untouched h F -> R a ->
    fill_post R h F res /\ (forall h' F', res = Ok (h', F') -> a ∈ F').

(** the schemas that the fill of [roots] comes to: the least closed set
    that holds them *)
Definition reach (roots : list addr) (a : addr) : Prop :=
  forall S : addr -> Prop,
    closed S -> (forall r, r ∈ roots -> S r) -> S a.

End Resolution.

(** the first loop of [finialize] *)
Fixpoint fill_loop (fuel : nat) (rg : gmap string addr)
    (entries : list (string * addr)) (st : heap * gset addr)
  : option (result (heap * gset addr)) :=
  match entries with
  | [] => Some (Ok st)
  | (_, sch) :: entries' =>
      match fillSchema fuel rg sch st with
      | Some (Ok st') => fill_loop fuel rg entries' st'
      | other => other
      end
  end.

(** the second one: the map by [SchemaRef] *)
Fixpoint srf_loop (h : heap) (entries : list (string * addr))
    (m : gmap cipher.SHA256 addr) : result (gmap cipher.SHA256 addr) :=
  match entries with
  | [] => Ok m
  | (_, sch) :: entries' =>
      sr ← Schema_Reference h sch;
      srf_loop h entries' (<[sr := sch]> m)
  end.

Definition finialize_fuel (fuel : nat) (r : Registry) (o : orders)
  : option (result Registry) :=
  match fill_loop fuel (reg r) (range (reg r) (order_fill o)) (mem r, ∅) with
  | None => None
  | Some Panic => Some Panic
  | Some (Err e) => Some (Err e)
  | Some (Ok (h, _)) =>
      Some (m ← srf_loop h (range (reg r) (order_srf o)) (srf r);
            let r' := {| done := done r; ref := ref r; reg := reg r;
                         srf := m; nt := nt r; tn := tn r; mem := h |} in
            encoded ← Registry_Encode r' (order_encode o);
            Ok {| done := done r; ref := SumSHA256 encoded; reg := reg r;
                  srf := m; nt := nt r; tn := tn r; mem := h |})
  end.

(** every schema is visited once at most, so that one unit of fuel for
    each object of the store, and one more, is enough *)
Definition finialize (r : Registry) (o : orders) : result Registry :=
  match finialize_fuel (S (size (mem r))) r o with
  | Some res => res
  | None => Panic
  end.

(** [NewRegistry]: [cl] registers the types *)
Definition NewRegistry (cl : Reg -> result Reg) (o : orders)
  : result Registry :=
  rg ← cl newReg;
  r ← register newRegistry rg (order_register o);
  finialize r o.

(** a build, and then [Encode] and [Reference] of the registry built;
    [oe] is the order of the [range] loop of that call of [Encode] *)
Definition Encode_Reference (cl : Reg -> result Reg) (o : orders)
    (oe : list string) : result (list byte * cipher.SHA256) :=
  r ← NewRegistry cl o;
  b ← Registry_Encode r oe;
  Ok (b, Registry_Reference r).

(** the orders are orders of the maps that the loops of the build range
    over *)
Definition valid_orders (cl : Reg -> result Reg) (o : orders)
    (oe : list string) : Prop :=
  forall rg, cl newReg = Ok rg ->
    valid_order (Reg_tn rg) (order_register o)
    /\ forall r, register newRegistry rg (order_register o) = Ok r ->
         valid_order (reg r) (order_fill o)
         /\ valid_order (reg r) (order_srf o)
         /\ valid_order (reg r) (order_encode o)
         /\ valid_order (reg r) oe.

#[global] Instance valid_order_dec {K V : Type} `{Countable K}
    (m : gmap K V) (order : list K) : Decision (valid_order m order).
Proof. unfold valid_order. apply _. Defined.

(** ... decided by running the build *)
Definition check_orders (cl : Reg -> result Reg) (o : orders)
    (oe : list string) : bool :=
  match cl newReg with
  | Ok rg =>
      bool_decide (valid_order (Reg_tn rg) (order_register o))
      && match register newRegistry rg (order_register o) with
         | Ok r =>
             bool_decide (valid_order (reg r) (order_fill o))
             && bool_decide (valid_order (reg r) (order_srf o))
             && bool_decide (valid_order (reg r) (order_encode o))
             && bool_decide (valid_order (reg r) oe)
         | _ => true
         end
  | _ => true
  end.

(** the loop of [DecodeRegistry]; [i] counts the entries.  The error of
    [decodeSchema] is not looked at: after a failure [s] is nil, and
    [s.Reference()] is a call on nil. *)
Fixpoint DecodeRegistry_loop (res : list registryEntity) (i : nat)
    (r : Registry) : result Registry :=
  match res with
  | [] => Ok r
  | re :: res' =>
      match decodeSchema (re_Schema re) with
      | Ok s =>
          let a : addr := ((re_Name re, i), []) in
          let h := store (re_Name re, i) [] s (mem r) in
          sr ← Schema_Reference h a;
          DecodeRegistry_loop res' (S i)
            {| done := done r; ref := ref r;
               reg := <[re_Name re := a]> (reg r);
               srf := <[sr := a]> (srf r);
               nt := nt r; tn := tn r; mem := h |}
      | _ => Panic
      end
  end.

Definition DecodeRegistry (b : list byte) (o : orders) : result Registry :=
  res ← DeserializeRaw_registryEntities b;
  r ← DecodeRegistry_loop res 0%nat newRegistry;
  finialize r o.

End Registry.

(** *** Inputs for concrete runs *)

(** a stand-in for [cipher.SumSHA256]: any function will do *)
Definition exampleSum (b : list byte) : cipher.SHA256 :=
  vreplicate 32 (encoder.byte_of_Z (fold_right (fun x acc => encoder.Z_of_byte x + 31 * acc) (len b) b)).

(** the tag of a reference field whose target is [name] *)
Definition schemaTag (name : string) : reflect.StructTag :=
  [("skyobject"%string, ("schema=" ++ name)%string)].

(** [struct { }] *)
Definition emptyStruct : reflect.Type_ := reflect.TStruct "T" [].

(** registering [emptyStruct] as "first", then as "second" *)
Definition register_twice (t : Reg) : result Reg :=
  t ← Register t "first" (reflect.value_of emptyStruct);
  Register t "second" (reflect.value_of emptyStruct).

Definition orders_twice : orders :=
  {| order_register := [emptyStruct]; order_fill := ["second"%string];
     order_srf := ["second"%string]; order_encode := ["second"%string] |}.

Definition registry_twice : Registry :=
  match NewRegistry exampleSum register_twice orders_twice with
  | Ok r => r
  | _ => newRegistry
  end.

(** the same two declarations, as a list, and in the other order *)
Definition decls_first_second : list (string * reflect.any) :=
  [ ("first"%string, reflect.value_of emptyStruct);
    ("second"%string, reflect.value_of emptyStruct) ].

Definition decls_second_first : list (string * reflect.any) :=
  [ ("second"%string, reflect.value_of emptyStruct);
    ("first"%string, reflect.value_of emptyStruct) ].

Definition orders_twice_rev : orders :=
  {| order_register := [emptyStruct]; order_fill := ["first"%string];
     order_srf := ["first"%string]; order_encode := ["first"%string] |}.

(** two structs that refer to one another: an [A] holds a [Reference] to
    a "b", a [B] holds [References] to "a"s *)
Definition structA : reflect.Type_ :=
  reflect.TStruct "A"
    [ reflect.Build_StructField "B" (schemaTag "b") "" typeOfRef ].

Definition structB : reflect.Type_ :=
  reflect.TStruct "B"
    [ reflect.Build_StructField "A" (schemaTag "a") "" typeOfRefs ].

Definition decls_AB : list (string * reflect.any) :=
  [ ("a"%string, reflect.value_of structA);
    ("b"%string, reflect.value_of structB) ].

Definition decls_BA : list (string * reflect.any) :=
  [ ("b"%string, reflect.value_of structB);
    ("a"%string, reflect.value_of structA) ].

Definition orders_AB : orders :=
  {| order_register := [structA; structB];
     order_fill := ["a"%string; "b"%string];
     order_srf := ["a"%string; "b"%string];
     order_encode := ["a"%string; "b"%string] |}.

Definition orders_BA : orders :=
  {| order_register := [structB; structA];
     order_fill := ["b"%string; "a"%string];
     order_srf := ["b"%string; "a"%string];
     order_encode := ["b"%string; "a"%string] |}.

(** the table of the [Reg] after the declarations [decls_AB] *)
Definition Reg_AB : Reg :=
  match declare decls_AB newReg with
  | Ok rg => rg
  | _ => newReg
  end.

(** the registry of [decls_AB] as [register] leaves it, and as
    [finialize] returns it *)
Definition registered_AB : Registry :=
  match rg ← declare decls_AB newReg;
        register newRegistry rg (order_register orders_AB) with
  | Ok r => r
  | _ => newRegistry
  end.

Definition registry_AB : Registry :=
  match finialize exampleSum registered_AB orders_AB with
  | Ok r => r
  | _ => newRegistry
  end.

(** ... encoded, and decoded again *)
Definition encoded_AB : list byte :=
  match Registry_Encode registry_AB ["a"%string; "b"%string] with
  | Ok b => b
  | _ => []
  end.

Definition decoded_AB : Registry :=
  match DecodeRegistry exampleSum encoded_AB orders_AB with
  | Ok r => r
  | _ => newRegistry
  end.

(** an encoded registry of two entries; the schema bytes of the first are
    empty, those of the second hold the schema of a [uint32] *)
Definition failing_registry : list byte :=
  Serialize_registryEntities
    [ {| re_Name := "A"; re_Schema := [] |};
      {| re_Name := "B";
         re_Schema :=
           Serialize_encodedSchema
             {| es_ReferenceType := ReferenceTypeNone;
                es_Kind := reflect.Uint32; es_Name := []; es_Len := 0;
                es_Fields := []; es_Elem := [] |} |} ].

(** an encoded schema with a discriminator that is none of the four *)
Definition bad_discriminator_schema : encodedSchema :=
  {| es_ReferenceType := 4; es_Kind := reflect.Uint8;
     es_Name := []; es_Len := 0; es_Fields := []; es_Elem := [] |}.

End skyobject.

(** * Properties *)

(** ** The raw encoder *)

Lemma Z_of_byte_range (b : byte) : 0 <= encoder.Z_of_byte b < 256.
Proof.
  unfold encoder.Z_of_byte.
  pose proof (Byte.to_N_bounded b). lia.
Qed.

Lemma Z_of_byte_of_Z (z : Z) :
  encoder.Z_of_byte (encoder.byte_of_Z z) = z mod 256.
Proof.
  unfold encoder.Z_of_byte, encoder.byte_of_Z.
  assert (Hr : 0 <= z mod 256 < 256) by (apply Z.mod_pos_bound; lia).
  destruct (Byte.of_N (Z.to_N (z mod 256))) as [b|] eqn:E.
  - apply Byte.to_of_N in E. rewrite E. lia.
  - apply Byte.of_N_None_iff in E. lia.
Qed.

Lemma byte_of_Z_of_byte (b : byte) :
  encoder.byte_of_Z (encoder.Z_of_byte b) = b.
Proof.
  unfold encoder.Z_of_byte, encoder.byte_of_Z.
  pose proof (Byte.to_N_bounded b).
  rewrite Z.mod_small by lia.
  rewrite N2Z.id, Byte.of_to_N. reflexivity.
Qed.

Lemma length_le_split (w : nat) (z : Z) : length (encoder.le_split w z) = w.
Proof. revert z; induction w as [|w IH]; intros z; simpl; [|rewrite IH]; reflexivity. Qed.

Lemma le_combine_split (w : nat) (z : Z) :
  encoder.le_combine (encoder.le_split w z) = z mod 2 ^ (8 * Z.of_nat w).
Proof.
  revert z; induction w as [|w IH]; intros z.
  - simpl. rewrite Z.mod_1_r. reflexivity.
  - cbn [encoder.le_split encoder.le_combine].
    rewrite Z_of_byte_of_Z, IH.
    replace (8 * Z.of_nat (S w)) with (8 + 8 * Z.of_nat w) by lia.
    rewrite Z.pow_add_r by lia.
    change (2 ^ 8) with 256.
    rewrite Z.rem_mul_r by lia. reflexivity.
Qed.

Lemma read_uint32_uint32 (z : Z) (rest : list byte) :
  encoder.read_uint32 (encoder.uint32 z ++ rest) = Ok (z mod 2 ^ 32, rest).
Proof.
  unfold encoder.uint32.
  pose proof (le_combine_split 4 z) as H.
  cbn [encoder.le_split] in *. cbn [app encoder.read_uint32].
  rewrite H. reflexivity.
Qed.

Lemma read_uint32_short (p : list byte) :
  len p < 4 -> encoder.read_uint32 p = Err ErrBufferUnderflow.
Proof.
  unfold len. intros H.
  destruct p as [|? [|? [|? [|? ?]]]]; simpl in *; try reflexivity; lia.
Qed.

Lemma byte_of_Z_low (b : byte) (y : Z) :
  encoder.byte_of_Z (encoder.Z_of_byte b + 256 * y) = b.
Proof.
  rewrite <- (byte_of_Z_of_byte b) at 2.
  unfold encoder.byte_of_Z.
  replace (encoder.Z_of_byte b + 256 * y) with (encoder.Z_of_byte b + y * 256) by lia.
  rewrite Z_mod_plus_full. reflexivity.
Qed.

Lemma div_256_low (b : byte) (y : Z) :
  (encoder.Z_of_byte b + 256 * y) / 256 = y.
Proof.
  pose proof (Z_of_byte_range b).
  replace (encoder.Z_of_byte b + 256 * y) with (y * 256 + encoder.Z_of_byte b) by lia.
  rewrite Z.div_add_l by lia. rewrite Z.div_small by lia. lia.
Qed.

Lemma le_split_combine (bs : list byte) :
  encoder.le_split (length bs) (encoder.le_combine bs) = bs.
Proof.
  induction bs as [|b bs IH]; [reflexivity|].
  cbn [length encoder.le_split encoder.le_combine].
  rewrite byte_of_Z_low, div_256_low, IH. reflexivity.
Qed.

Lemma le_combine_range (bs : list byte) :
  0 <= encoder.le_combine bs < 2 ^ (8 * len bs).
Proof.
  unfold len. induction bs as [|b bs IH].
  - simpl. lia.
  - cbn [length encoder.le_combine].
    pose proof (Z_of_byte_range b).
    replace (8 * Z.of_nat (S (length bs))) with (8 + 8 * Z.of_nat (length bs)) by lia.
    rewrite Z.pow_add_r by lia. change (2 ^ 8) with 256. nia.
Qed.

Lemma read_uint32_Ok (p : list byte) (n : Z) (rest : list byte) :
  encoder.read_uint32 p = Ok (n, rest) ->
  p = encoder.uint32 n ++ rest /\ 0 <= n < 2 ^ 32.
Proof.
  destruct p as [|b0 [|b1 [|b2 [|b3 r]]]]; cbn [encoder.read_uint32];
    try discriminate.
  intros [= <- <-].
  split.
  - unfold encoder.uint32.
    change 4%nat with (length [b0; b1; b2; b3]).
    rewrite le_split_combine. reflexivity.
  - apply (le_combine_range [b0; b1; b2; b3]).
Qed.

Lemma len_app {A : Type} (l1 l2 : list A) : len (l1 ++ l2) = len l1 + len l2.
Proof. unfold len. rewrite length_app. lia. Qed.

Lemma len_nonneg {A : Type} (l : list A) : 0 <= len l.
Proof. unfold len. lia. Qed.

Lemma len_uint32 (z : Z) : len (encoder.uint32 z) = 4.
Proof. reflexivity. Qed.

Lemma len_bytes (b : list byte) : len (encoder.bytes b) = 4 + len b.
Proof. unfold encoder.bytes. rewrite len_app, len_uint32. reflexivity. Qed.

Lemma read_bytes_app (b rest : list byte) :
  encoder.read_bytes (len b) (b ++ rest) = Ok (b, rest).
Proof.
  unfold encoder.read_bytes.
  rewrite len_app. pose proof (len_nonneg rest).
  destruct (Z.ltb_spec (len b + len rest) (len b)); [lia|].
  unfold len. rewrite Nat2Z.id.
  rewrite take_app_length, drop_app_length. reflexivity.
Qed.

Lemma read_lbytes_bytes (b rest : list byte) :
  len b < 2 ^ 32 ->
  encoder.read_lbytes (encoder.bytes b ++ rest) = Ok (b, rest).
Proof.
  intros H. unfold encoder.read_lbytes, encoder.bytes.
  rewrite <- app_assoc, read_uint32_uint32.
  pose proof (len_nonneg b).
  rewrite Z.mod_small by lia. cbn.
  apply read_bytes_app.
Qed.

Lemma read_array_vec {n : nat} (v : vec byte n) (rest : list byte) :
  encoder.read_array n (vec_to_list v ++ rest) = Ok (v, rest).
Proof.
  induction v as [|b n v IH]; [reflexivity|].
  cbn. rewrite IH. reflexivity.
Qed.

Lemma len_vec {n : nat} (v : vec byte n) : len (vec_to_list v) = Z.of_nat n.
Proof. unfold len. rewrite length_vec_to_list. reflexivity. Qed.

(** ** Message framing *)

Section MessageFraming.

Context {RootPack : Type}.
Context (serializeRootPack : RootPack -> list byte).
Context (deserializeRootPack : list byte -> result (RootPack * list byte)).

(** the encoder reads back what it wrote for a [RootPack], and leaves the
    bytes behind it alone *)
Hypothesis deserialize_serialize_RootPack :
  forall (rp : RootPack) (rest : list byte),
    deserializeRootPack (serializeRootPack rp ++ rest) = Ok (rp, rest).

Let Msg : Type := @node.Msg RootPack.
Let Encode : Msg -> list byte := node.Encode serializeRootPack.
Let Decode : list byte -> result Msg := node.Decode deserializeRootPack.

Lemma forwardRegistry_MsgType (msg : Msg) :
  node.forwardRegistry !! Z.to_nat (node.Msg_MsgType msg)
  = Some (Some (node.TypeOf msg)).
Proof. destruct msg; reflexivity. Qed.

Lemma MsgType_byte (msg : Msg) :
  encoder.Z_of_byte (encoder.byte_of_Z (node.Msg_MsgType msg))
  = node.Msg_MsgType msg.
Proof. destruct msg; reflexivity. Qed.

Lemma MsgType_range (msg : Msg) :
  0 < node.Msg_MsgType msg < len node.forwardRegistry.
Proof. destruct msg; cbv; split; reflexivity. Qed.

Lemma Deserialize_Serialize (msg : Msg) (rest : list byte) :
  node.encodable msg ->
  node.DeserializeRawToValue deserializeRootPack (node.TypeOf msg)
    (node.Serialize serializeRootPack msg ++ rest)
  = Ok (msg, len (node.Serialize serializeRootPack msg)).
Proof.
  intros Henc.
  destruct msg; cbn [node.TypeOf node.Serialize node.DeserializeRawToValue];
    rewrite ?len_app;
    try (rewrite read_array_vec; cbn; do 2 f_equal; lia).
  - reflexivity.
  - reflexivity.
  - rewrite <- app_assoc, read_array_vec. cbn.
    rewrite deserialize_serialize_RootPack. cbn.
    do 2 f_equal. lia.
  - rewrite read_lbytes_bytes by exact Henc. cbn. do 2 f_equal. lia.
  - rewrite read_lbytes_bytes by exact Henc. cbn. do 2 f_equal. lia.
Qed.

Lemma Decode_Encode_app (msg : Msg) (rest : list byte) :
  node.encodable msg ->
  Decode (Encode msg ++ rest)
  = if negb (len rest =? 0) then Err ErrIncomplieDecoding else Ok msg.
Proof.
  intros Henc. subst Decode Encode. unfold node.Decode, node.Encode.
  cbn [app]. rewrite MsgType_byte.
  pose proof (MsgType_range msg) as Hr.
  destruct (Z.leb_spec (node.Msg_MsgType msg) 0); [lia|].
  destruct (Z.leb_spec (len node.forwardRegistry) (node.Msg_MsgType msg)); [lia|].
  cbn [orb]. rewrite forwardRegistry_MsgType.
  rewrite Deserialize_Serialize by exact Henc. cbn.
  replace (len (encoder.byte_of_Z (node.Msg_MsgType msg)
                :: node.Serialize serializeRootPack msg ++ rest))
    with (len (node.Serialize serializeRootPack msg) + 1 + len rest)
    by (unfold len; cbn [length]; rewrite length_app; lia).
  pose proof (len_nonneg rest).
  destruct (Z.eqb_spec (len rest) 0) as [E|E].
  - rewrite E, Z.add_0_r, Z.eqb_refl. reflexivity.
  - destruct (Z.eqb_spec (len (node.Serialize serializeRootPack msg) + 1)
               (len (node.Serialize serializeRootPack msg) + 1 + len rest)); [lia|].
    reflexivity.
Qed.

(** C4.  A message of any of the nine variants, once encoded, decodes to
    itself.  ([encodable]: the byte sequence of a [DataMsg] or
    [RegistryMsg] is short enough for its 4-byte count.) *)
Theorem Decode_Encode (msg : Msg) :
  node.encodable msg ->
  Decode (Encode msg) = Ok msg.
Proof.
  intros Henc.
  rewrite <- (app_nil_r (Encode msg)).
  rewrite Decode_Encode_app by exact Henc. reflexivity.
Qed.

(** C5.  The three failures of [Decode]: the empty buffer is
    [ErrEmptyMessage]; a first byte that is 0 or not below the length of
    [forwardRegistry] is [ErrInvalidMsgType]; an encoded message followed
    by one more byte is [ErrIncomplieDecoding].  Each is a returned error. *)
Theorem Decode_failures :
  Decode [] = Err ErrEmptyMessage
  /\ (forall (b : byte) (rest : list byte),
        encoder.Z_of_byte b = 0 \/ len node.forwardRegistry <= encoder.Z_of_byte b ->
        Decode (b :: rest) = Err (ErrInvalidMsgType (encoder.Z_of_byte b)))
  /\ (forall (msg : Msg) (extra : byte),
        node.encodable msg ->
        Decode (Encode msg ++ [extra]) = Err ErrIncomplieDecoding).
Proof.
  split; [reflexivity|]. split.
  - intros b rest Hb. subst Decode. unfold node.Decode.
    destruct (Z.leb_spec (encoder.Z_of_byte b) 0) as [H0|H0];
      [reflexivity|].
    destruct (Z.leb_spec (len node.forwardRegistry) (encoder.Z_of_byte b));
      [reflexivity|].
    lia.
  - intros msg extra Henc.
    rewrite Decode_Encode_app by exact Henc. reflexivity.
Qed.

End MessageFraming.

Lemma Decode_Encode_witness :
  node.Decode (encoder.read_array 32)
    (node.Encode vec_to_list node.DataMsg_example) = Ok node.DataMsg_example.
Proof.
  apply (Decode_Encode vec_to_list (encoder.read_array 32)).
  - intros rp rest. apply read_array_vec.
  - vm_compute. reflexivity.
Defined.

Lemma Decode_failures_witness :
  node.Decode (encoder.read_array 32)
    (node.Encode vec_to_list node.DataMsg_example ++ [xff])
  = Err ErrIncomplieDecoding.
Proof.
  apply (Decode_failures vec_to_list (encoder.read_array 32)).
  - intros rp rest. apply read_array_vec.
  - vm_compute. reflexivity.
Defined.

(** ** The size engine *)

Section SchemaInduction.

Import skyobject.

Variable P : Schema -> Prop.

Hypothesis P_schema : forall kind name, P (schema kind name).
Hypothesis P_slice : forall name el, P el -> P (sliceSchema name el).
Hypothesis P_array : forall name l el, P el -> P (arraySchema name l el).
Hypothesis P_struct : forall name fields,
  Forall (fun sf => P (Field_Schema sf)) fields -> P (structSchema name fields).
Hypothesis P_reference : forall kind rt el,
  (forall e, el = Some e -> P e) -> P (referenceSchema kind rt el).

Lemma Schema_nested_ind : forall s, P s.
Proof.
  fix IH 1. intros [kind name|name el|name l el|name fields|kind rt el].
  - apply P_schema.
  - apply P_slice, IH.
  - apply P_array, IH.
  - apply P_struct.
    induction fields as [|[fn ft sch] fields IHfields]; constructor;
      [apply IH | exact IHfields].
  - apply P_reference. destruct el as [e'|].
    + intros e [= <-]. apply IH.
    + intros e [=].
Qed.

End SchemaInduction.

Section SizeEngine.

Import skyobject.

#[local] Arguments encoder.uint32 : simpl never.
#[local] Arguments encoder.le_split : simpl never.
#[local] Arguments Z.mul : simpl never.
#[local] Arguments Z.pow : simpl never.

Lemma is_Err_bind {A B : Type} (r : result A) (k : A -> result B) :
  is_Err r -> is_Err (r ≫= k).
Proof. destruct r; simpl; tauto. Qed.

(** *** Buffers that agree *)

Lemma comparable_refl (p : list byte) : comparable p p.
Proof. left. reflexivity. Qed.

Lemma comparable_take (n : nat) (p : list byte) : comparable (take n p) p.
Proof. left. apply prefix_take. Qed.

Lemma comparable_app_l (p a b : list byte) :
  comparable p (a ++ b) -> comparable p a.
Proof.
  intros [[k Hk]|[k Hk]].
  - apply app_eq_app in Hk as [l [[-> _]|[-> _]]].
    + left. exists l. reflexivity.
    + right. exists l. reflexivity.
  - right. exists (b ++ k). rewrite Hk, app_assoc. reflexivity.
Qed.

Lemma comparable_app_split (p a b : list byte) :
  comparable p (a ++ b) -> len a <= len p ->
  exists q, p = a ++ q /\ comparable q b.
Proof.
  intros [[k Hk]|[k Hk]] Hlen.
  - apply app_eq_app in Hk as [l [[-> ->]|[-> ->]]].
    + rewrite len_app in Hlen. pose proof (len_nonneg l).
      assert (l = []) as -> by (destruct l; [reflexivity|unfold len in *; simpl in *; lia]).
      exists []. split; [rewrite !app_nil_r; reflexivity|]. left. apply prefix_nil.
    + exists l. split; [reflexivity|]. left. exists k. reflexivity.
  - exists (b ++ k). split; [rewrite Hk, app_assoc; reflexivity|].
    right. exists k. reflexivity.
Qed.

Lemma slice_from_app (a q : list byte) : slice_from (len a) (a ++ q) = q.
Proof. unfold slice_from, len. rewrite Nat2Z.id. apply drop_app_length. Qed.

Lemma comparable_uint32 (p rest : list byte) (z : Z) :
  0 <= z < 2 ^ 32 ->
  comparable p (encoder.uint32 z ++ rest) ->
  encoder.read_uint32 p = Err ErrBufferUnderflow
  \/ exists q, p = encoder.uint32 z ++ q /\ comparable q rest
               /\ encoder.read_uint32 p = Ok (z, q).
Proof.
  intros Hz Hc.
  destruct (Z.lt_ge_cases (len p) 4) as [Hs|Hs].
  - left. apply read_uint32_short, Hs.
  - right. apply comparable_app_split in Hc as (q & -> & Hq);
      [|rewrite len_uint32; lia].
    exists q. split; [reflexivity|]. split; [exact Hq|].
    rewrite read_uint32_uint32, Z.mod_small by lia. reflexivity.
Qed.

(** *** The loops *)

Lemma schemaArraySliceSize_loop_replicate size_el (left : nat) n p :
  schemaArraySliceSize_loop size_el left n p
  = schemaStructSize_loop (replicate left size_el) n p.
Proof.
  revert n. induction left as [|left IH]; intros n; cbn; [reflexivity|].
  destruct (n >=? len p); [reflexivity|].
  destruct (size_el (slice_from n p)); cbn; [apply IH|reflexivity..].
Qed.

Lemma schemaStructSize_loop_sound sizes es :
  Forall2 sound_on sizes es ->
  forall pre p, comparable p (pre ++ concat es) ->
    schemaStructSize_loop sizes (len pre) p = Ok (len pre + len (concat es))
    \/ is_Err (schemaStructSize_loop sizes (len pre) p).
Proof.
  induction 1 as [|size e sizes es Hse _ IH]; intros pre p Hc.
  - left. cbn [schemaStructSize_loop concat]. f_equal. unfold len. simpl. lia.
  - cbn [schemaStructSize_loop concat] in *.
    rewrite Z.geb_leb.
    destruct (Z.leb_spec (len p) (len pre)) as [Hge|Hlt]; [right; exact I|].
    apply comparable_app_split in Hc as (q & -> & Hq); [|lia].
    rewrite slice_from_app.
    destruct (Hse q (comparable_app_l _ _ _ Hq)) as [Hok|Herr].
    + rewrite Hok. cbn.
      assert (Hc' : comparable (pre ++ q) ((pre ++ e) ++ concat es)).
      { rewrite <- app_assoc.
        destruct Hq as [[k ->]|[k ->]].
        - left. exists k. rewrite <- !app_assoc. reflexivity.
        - right. exists k. rewrite <- !app_assoc. reflexivity. }
      specialize (IH (pre ++ e) (pre ++ q) Hc').
      rewrite !len_app in *.
      replace (len pre + (len e + len (concat es)))
        with (len pre + len e + len (concat es)) by lia.
      exact IH.
    + right. apply is_Err_bind, Herr.
Qed.

Lemma schemaStructSize_loop_exact sizes es :
  Forall2 exact_on sizes es ->
  forall pre rest, rest <> [] ->
    schemaStructSize_loop sizes (len pre) (pre ++ concat es ++ rest)
    = Ok (len pre + len (concat es)).
Proof.
  induction 1 as [|size e sizes es Hse _ IH]; intros pre rest Hrest.
  - cbn [schemaStructSize_loop concat]. f_equal. unfold len. simpl. lia.
  - cbn [schemaStructSize_loop concat].
    rewrite Z.geb_leb.
    assert (Hpos : 0 < len rest).
    { destruct rest; [congruence|]. unfold len. simpl. lia. }
    destruct (Z.leb_spec (len (pre ++ (e ++ concat es) ++ rest)) (len pre)) as [Hge|Hlt].
    { rewrite !len_app in Hge. pose proof (len_nonneg e).
      pose proof (len_nonneg (concat es)). lia. }
    rewrite slice_from_app, <- app_assoc.
    rewrite (Hse (concat es ++ rest)).
    2:{ destruct (concat es); simpl; [exact Hrest|discriminate]. }
    cbn.
    specialize (IH (pre ++ e) rest Hrest).
    rewrite <- !app_assoc in IH. rewrite !len_app in *.
    rewrite IH. f_equal. lia.
Qed.

(** *** Encodings *)

Lemma encode_fields_inv encs vs enc :
  encode_fields encs vs = Some enc ->
  exists es, enc = concat es
             /\ Forall2 (fun f e => exists v, f v = Some e) encs es.
Proof.
  revert vs enc. induction encs as [|f encs IH]; intros [|v vs] enc; cbn;
    try discriminate.
  - intros [= <-]. exists []. split; [reflexivity|constructor].
  - destruct (f v) as [e|] eqn:Ef; cbn; [|discriminate].
    destruct (encode_fields encs vs) as [r|] eqn:Er; cbn; [|discriminate].
    intros [= <-].
    destruct (IH _ _ Er) as (es & -> & HF).
    exists (e :: es). split; [reflexivity|].
    constructor; [exists v; exact Ef|exact HF].
Qed.

Lemma mapM_encode_inv (f : Value -> option (list byte)) vs es :
  mapM f vs = Some es ->
  length es = length vs /\ Forall (fun e => exists v, f v = Some e) es.
Proof.
  intros H. apply mapM_Some_1 in H.
  induction H as [|v e vs es Hve _ [IHl IHf]]; [split; [reflexivity|constructor]|].
  split; [simpl; congruence|].
  constructor; [exists v; exact Hve|exact IHf].
Qed.

Lemma fixedSize_cases (kind : reflect.Kind) :
  fixedSize kind = 1 \/ fixedSize kind = 2 \/ fixedSize kind = 4
  \/ fixedSize kind = 8 \/ fixedSize kind = -1.
Proof. unfold fixedSize. repeat case_match; tauto. Qed.

(** an element on the fast path is encoded in [fixedSize] bytes *)
Lemma encode_fixedSize el v e :
  0 < fixedSize (Schema_Kind el) ->
  encode el v = Some e ->
  len e = fixedSize (Schema_Kind el).
Proof.
  intros Hpos.
  destruct el as [kind name|name el|name l el|name fields|kind rt el];
    cbn [Schema_Kind] in Hpos; try (cbv in Hpos; discriminate).
  - destruct v; cbn [encode]; try discriminate.
    + case_match; [|discriminate]. intros [= <-].
      unfold len. rewrite length_le_split. cbn [Schema_Kind]. lia.
    + destruct (Z.eqb_spec kind reflect.String) as [->|]; [cbv in Hpos; discriminate|].
      cbn. discriminate.
  - cbn [encode]. destruct (Z.ltb_spec 0 (fixedSize kind)); [discriminate|lia].
Qed.

Lemma len_concat_fixed (es : list (list byte)) (s : Z) :
  Forall (fun e => len e = s) es -> len (concat es) = len es * s.
Proof.
  induction 1 as [|e es He _ IH]; [reflexivity|].
  cbn [concat]. rewrite len_app, IH, He. unfold len. cbn [length]. lia.
Qed.

(** *** [SchemaSize] on a buffer that agrees with an encoding *)

Lemma check_sound (r : result Z) (n : Z) (p : list byte) :
  r = Ok n \/ is_Err r ->
  (x ← r; if x >? len p then Err ErrInvalidSchemaOrData else Ok x) = Ok n
  \/ is_Err (x ← r; if x >? len p then Err ErrInvalidSchemaOrData else Ok x).
Proof.
  intros [->|H].
  - cbn. destruct (n >? len p); [right; exact I|left; reflexivity].
  - right. apply is_Err_bind, H.
Qed.

Lemma SchemaSize_fixed kind name p :
  0 < fixedSize kind ->
  SchemaSize (schema kind name) p
  = if fixedSize kind >? len p then Err ErrInvalidSchemaOrData
    else Ok (fixedSize kind).
Proof.
  intros Hpos. unfold fixedSize in *. cbn [SchemaSize].
  repeat case_match; try reflexivity; lia.
Qed.

Lemma SchemaSize_String name p :
  SchemaSize (schema reflect.String name) p
  = (n ← getLength p;
     if n + 4 >? len p then Err ErrInvalidSchemaOrData else Ok (n + 4)).
Proof. reflexivity. Qed.

Lemma Forall2_replicate_sound el (es : list (list byte)) :
  (forall v e, encode el v = Some e -> sound_on (SchemaSize el) e) ->
  Forall (fun e => exists v, encode el v = Some e) es ->
  Forall2 sound_on (replicate (length es) (SchemaSize el)) es.
Proof.
  intros IH. induction 1 as [|e es [v Hv] _ IHes]; cbn; constructor.
  - exact (IH v e Hv).
  - exact IHes.
Qed.

Lemma schemaArraySliceSize_sound el (es : list (list byte)) pre p :
  (forall v e, encode el v = Some e -> sound_on (SchemaSize el) e) ->
  Forall (fun e => exists v, encode el v = Some e) es ->
  comparable p (pre ++ concat es) ->
  schemaArraySliceSize (SchemaSize el) (Schema_Kind el) (len es) (len pre) p
  = Ok (len pre + len (concat es))
  \/ is_Err (schemaArraySliceSize (SchemaSize el) (Schema_Kind el)
               (len es) (len pre) p).
Proof.
  intros IH Hes Hc. unfold schemaArraySliceSize.
  destruct (Z.gtb_spec (fixedSize (Schema_Kind el)) 0) as [Hfix|Hvar].
  - left. f_equal. f_equal. symmetry. apply len_concat_fixed.
    eapply list.Forall_impl; [exact Hes|].
    intros e [v Hv]. eapply encode_fixedSize; [lia|exact Hv].
  - rewrite schemaArraySliceSize_loop_replicate.
    replace (Z.to_nat (len es)) with (length es) by (unfold len; lia).
    apply schemaStructSize_loop_sound; [|exact Hc].
    apply Forall2_replicate_sound; assumption.
Qed.

Lemma Forall2_fields_sound (fields : list Field) (es : list (list byte)) :
  Forall (fun sf => forall v e, encode (Field_Schema sf) v = Some e ->
                      sound_on (SchemaSize (Field_Schema sf)) e) fields ->
  Forall2 (fun (f : Value -> option (list byte)) e => exists v, f v = Some e)
    (map (fun sf => encode (Field_Schema sf)) fields) es ->
  Forall2 sound_on (map (fun sf => SchemaSize (Field_Schema sf)) fields) es.
Proof.
  intros IH. revert es.
  induction IH as [|sf fields Hsf _ IHf]; intros es H; cbn in *.
  - inversion H; subst. constructor.
  - inversion H as [|? e ? es' [v Hv] Hrest]; subst. constructor.
    + exact (Hsf v e Hv).
    + apply IHf, Hrest.
Qed.

Lemma refSize_sound (hs : list cipher.SHA256) :
  len hs < 2 ^ 32 ->
  sound_on refSize (encoder.uint32 (len hs) ++ concat (map vec_to_list hs)).
Proof.
  intros Hlen q Hc. unfold refSize.
  pose proof (len_nonneg hs) as Hnn.
  destruct (comparable_uint32 q _ (len hs) (conj Hnn Hlen) Hc)
    as [Herr|(q' & -> & Hq' & Hok)].
  - right. rewrite Herr. exact I.
  - rewrite Hok. cbn.
    case_match; [right; exact I|left].
    f_equal. rewrite len_app, len_uint32. f_equal.
    rewrite (len_concat_fixed _ cipher.SHA256_len).
    + unfold len. rewrite length_map. reflexivity.
    + apply Forall_map, Forall_forall. intros h _. apply (len_vec h).
Qed.

(** On a buffer that agrees with the encoding of a value, as far as both
    go, [SchemaSize] returns the length of that encoding or fails; it
    returns no other size and does not panic. *)
Lemma SchemaSize_sound (s : Schema) :
  forall v enc, encode s v = Some enc -> sound_on (SchemaSize s) enc.
Proof.
  induction s as [kind name|name el IH|name l el IH|name fields IH|kind rt el _]
    using Schema_nested_ind; intros v enc Henc q Hc.
  - (* a scalar or a string *)
    destruct v; cbn [encode] in Henc; try discriminate.
    + case_match eqn:Hcond; [|discriminate]. apply (inj Some) in Henc as <-.
      apply andb_prop in Hcond as [Hcond _].
      apply andb_prop in Hcond as [Hcond _].
      apply andb_prop in Hcond as [Hpos%Z.ltb_lt _].
      rewrite SchemaSize_fixed by exact Hpos.
      assert (E : len (encoder.le_split (Z.to_nat (fixedSize kind)) z)
                  = fixedSize kind)
        by (unfold len; rewrite length_le_split; lia).
      rewrite E.
      case_match; [right; exact I|left; reflexivity].
    + case_match eqn:Hcond; [|discriminate]. apply (inj Some) in Henc as <-.
      apply andb_prop in Hcond as [->%Z.eqb_eq Hlen%Z.ltb_lt].
      rewrite SchemaSize_String. unfold getLength, encoder.bytes in *.
      pose proof (len_nonneg b) as Hnn.
      destruct (comparable_uint32 q _ (len b) (conj Hnn Hlen) Hc)
        as [Herr|(q' & -> & Hq' & Hok)].
      * right. rewrite Herr. exact I.
      * rewrite Hok. cbn [mbind result_bind]. rewrite !len_app, !len_uint32.
        case_match; [right; exact I|left; f_equal; lia].
  - (* a slice *)
    destruct v; cbn [encode] in Henc; try discriminate.
    case_match eqn:Hlen; [|discriminate]. apply Z.ltb_lt in Hlen.
    destruct (mapM (encode el) vs) as [es|] eqn:Hes; [|discriminate].
    cbn [mbind option_bind] in Henc. apply (inj Some) in Henc as <-.
    apply mapM_encode_inv in Hes as [Hl Hes].
    cbn [SchemaSize]. apply check_sound.
    pose proof (len_nonneg vs) as Hnn. unfold getLength.
    destruct (comparable_uint32 q _ (len vs) (conj Hnn Hlen) Hc)
      as [Herr|(q' & -> & Hq' & Hok)].
    + right. rewrite Herr. exact I.
    + rewrite Hok. cbn [mbind result_bind].
      assert (E : len vs = len es) by (unfold len; congruence).
      rewrite E, len_app, len_uint32.
      apply (schemaArraySliceSize_sound el es (encoder.uint32 (len es)));
        [exact IH|exact Hes|].
      rewrite <- E. exact Hc.
  - (* an array *)
    destruct v; cbn [encode] in Henc; try discriminate.
    case_match eqn:Hlen; [|discriminate]. apply Z.eqb_eq in Hlen.
    destruct (mapM (encode el) vs) as [es|] eqn:Hes; [|discriminate].
    cbn [mbind option_bind] in Henc. apply (inj Some) in Henc as <-.
    apply mapM_encode_inv in Hes as [Hl Hes].
    cbn [SchemaSize]. apply check_sound.
    assert (E : l = len es) by (unfold len in *; rewrite Hl; lia).
    rewrite E.
    apply (schemaArraySliceSize_sound el es [] q); assumption.
  - (* a struct *)
    destruct v; cbn [encode] in Henc; try discriminate.
    apply encode_fields_inv in Henc as (es & -> & HF).
    cbn [SchemaSize]. apply check_sound.
    apply (schemaStructSize_loop_sound _ es (Forall2_fields_sound _ _ IH HF) [] q).
    exact Hc.
  - (* a reference *)
    cbn [encode] in Henc. case_match; [discriminate|].
    destruct v; try discriminate.
    + case_match eqn:Hrt; [|discriminate]. apply (inj Some) in Henc as <-.
      cbn [SchemaSize]. rewrite Hrt. left. f_equal.
      symmetry. apply (len_vec hash).
    + case_match eqn:Hcond; [|discriminate]. apply (inj Some) in Henc as <-.
      apply andb_prop in Hcond as [->%Z.eqb_eq Hlen%Z.ltb_lt].
      cbn [SchemaSize]. change (ReferenceTypeSlice =? ReferenceTypeSingle) with false.
      rewrite Z.eqb_refl. cbv iota.
      apply refSize_sound; assumption.
    + case_match eqn:Hrt; [|discriminate]. apply (inj Some) in Henc as <-.
      apply Z.eqb_eq in Hrt as ->.
      cbn [SchemaSize]. left. cbn. f_equal.
      rewrite len_app, !len_vec. reflexivity.
Qed.

(** C2.  Truncation safety: on the first [L] bytes of the encoding of a
    value, [L] less than the full length, [SchemaSize] reports a failure or
    returns a size greater than [L]; it never returns a size of at most [L]
    without an error (and it does not panic). *)
Theorem SchemaSize_truncated (s : Schema) (v : Value) (enc : list byte)
    (L : nat) :
  encode s v = Some enc ->
  (L < length enc)%nat ->
  is_Err (SchemaSize s (take L enc))
  \/ exists n, SchemaSize s (take L enc) = Ok n /\ Z.of_nat L < n.
Proof.
  intros Henc HL.
  destruct (SchemaSize_sound s v enc Henc (take L enc) (comparable_take L enc))
    as [Hok|Herr].
  - right. exists (len enc). split; [exact Hok|]. unfold len. lia.
  - left. exact Herr.
Qed.

Lemma SchemaSize_truncated_witness :
  is_Err (SchemaSize strings_schema
            (take 9 [x02; x00; x00; x00; x01; x00; x00; x00; x41;
                     x00; x00; x00; x00]))
  \/ exists n,
       SchemaSize strings_schema
         (take 9 [x02; x00; x00; x00; x01; x00; x00; x00; x41;
                  x00; x00; x00; x00]) = Ok n
       /\ Z.of_nat 9 < n.
Proof.
  apply (SchemaSize_truncated strings_schema strings_value).
  - vm_compute. reflexivity.
  - vm_compute. lia.
Defined.

(** *** [SchemaSize] on a buffer that holds an encoding and more *)

Lemma check_exact (r : result Z) (n : Z) (p : list byte) :
  r = Ok n -> n <= len p ->
  (x ← r; if x >? len p then Err ErrInvalidSchemaOrData else Ok x) = Ok n.
Proof.
  intros -> Hle. cbn. destruct (Z.gtb_spec n (len p)); [lia|reflexivity].
Qed.

Lemma Forall2_replicate_exact el (es : list (list byte)) :
  (forall v e, encode el v = Some e -> exact_on (SchemaSize el) e) ->
  Forall (fun e => exists v, encode el v = Some e) es ->
  Forall2 exact_on (replicate (length es) (SchemaSize el)) es.
Proof.
  intros IH. induction 1 as [|e es [v Hv] _ IHes]; cbn; constructor.
  - exact (IH v e Hv).
  - exact IHes.
Qed.

Lemma schemaArraySliceSize_exact el (es : list (list byte)) pre rest :
  (forall v e, encode el v = Some e -> exact_on (SchemaSize el) e) ->
  Forall (fun e => exists v, encode el v = Some e) es ->
  rest <> [] ->
  schemaArraySliceSize (SchemaSize el) (Schema_Kind el) (len es) (len pre)
    (pre ++ concat es ++ rest)
  = Ok (len pre + len (concat es)).
Proof.
  intros IH Hes Hrest. unfold schemaArraySliceSize.
  destruct (Z.gtb_spec (fixedSize (Schema_Kind el)) 0) as [Hfix|Hvar].
  - f_equal. f_equal. symmetry. apply len_concat_fixed.
    eapply list.Forall_impl; [exact Hes|].
    intros e [v Hv]. eapply encode_fixedSize; [lia|exact Hv].
  - rewrite schemaArraySliceSize_loop_replicate.
    replace (Z.to_nat (len es)) with (length es) by (unfold len; lia).
    apply schemaStructSize_loop_exact; [|exact Hrest].
    apply Forall2_replicate_exact; assumption.
Qed.

Lemma Forall2_fields_exact (fields : list Field) (es : list (list byte)) :
  Forall (fun sf => forall v e, encode (Field_Schema sf) v = Some e ->
                      exact_on (SchemaSize (Field_Schema sf)) e) fields ->
  Forall2 (fun (f : Value -> option (list byte)) e => exists v, f v = Some e)
    (map (fun sf => encode (Field_Schema sf)) fields) es ->
  Forall2 exact_on (map (fun sf => SchemaSize (Field_Schema sf)) fields) es.
Proof.
  intros IH. revert es.
  induction IH as [|sf fields Hsf _ IHf]; intros es H; cbn in *.
  - inversion H; subst. constructor.
  - inversion H as [|? e ? es' [v Hv] Hrest]; subst. constructor.
    + exact (Hsf v e Hv).
    + apply IHf, Hrest.
Qed.

(** When the buffer holds the encoding of a value followed by at least one
    more byte, [SchemaSize] returns exactly the length of the encoding. *)
Lemma SchemaSize_exact (s : Schema) :
  forall v enc, encode s v = Some enc -> exact_on (SchemaSize s) enc.
Proof.
  induction s as [kind name|name el IH|name l el IH|name fields IH|kind rt el _]
    using Schema_nested_ind; intros v enc Henc rest Hrest;
    pose proof (len_nonneg rest) as Hrnn.
  - destruct v; cbn [encode] in Henc; try discriminate.
    + case_match eqn:Hcond; [|discriminate]. apply (inj Some) in Henc as <-.
      apply andb_prop in Hcond as [Hcond _].
      apply andb_prop in Hcond as [Hcond _].
      apply andb_prop in Hcond as [Hpos%Z.ltb_lt _].
      rewrite SchemaSize_fixed by exact Hpos.
      assert (E : len (encoder.le_split (Z.to_nat (fixedSize kind)) z)
                  = fixedSize kind)
        by (unfold len; rewrite length_le_split; lia).
      rewrite len_app, E.
      destruct (Z.gtb_spec (fixedSize kind) (fixedSize kind + len rest));
        [lia|reflexivity].
    + case_match eqn:Hcond; [|discriminate]. apply (inj Some) in Henc as <-.
      apply andb_prop in Hcond as [->%Z.eqb_eq Hlen%Z.ltb_lt].
      rewrite SchemaSize_String. unfold getLength, encoder.bytes.
      pose proof (len_nonneg b) as Hnn.
      rewrite <- app_assoc, read_uint32_uint32, Z.mod_small by lia.
      cbn [mbind result_bind]. rewrite !len_app, !len_uint32.
      destruct (Z.gtb_spec (len b + 4) (4 + (len b + len rest)));
        [lia|f_equal; lia].
  - destruct v; cbn [encode] in Henc; try discriminate.
    case_match eqn:Hlen; [|discriminate]. apply Z.ltb_lt in Hlen.
    destruct (mapM (encode el) vs) as [es|] eqn:Hes; [|discriminate].
    cbn [mbind option_bind] in Henc. apply (inj Some) in Henc as <-.
    apply mapM_encode_inv in Hes as [Hl Hes].
    cbn [SchemaSize].
    pose proof (len_nonneg vs) as Hnn.
    assert (E : len vs = len es) by (unfold len; congruence).
    apply check_exact; [|rewrite !len_app; lia].
    unfold getLength.
    rewrite <- app_assoc, read_uint32_uint32, Z.mod_small by lia.
    cbn [mbind result_bind]. rewrite E, len_app, len_uint32.
    apply (schemaArraySliceSize_exact el es (encoder.uint32 (len es)));
      assumption.
  - destruct v; cbn [encode] in Henc; try discriminate.
    case_match eqn:Hlen; [|discriminate]. apply Z.eqb_eq in Hlen.
    destruct (mapM (encode el) vs) as [es|] eqn:Hes; [|discriminate].
    cbn [mbind option_bind] in Henc. apply (inj Some) in Henc as <-.
    apply mapM_encode_inv in Hes as [Hl Hes].
    cbn [SchemaSize].
    assert (E : l = len es) by (unfold len in *; rewrite Hl; lia).
    rewrite E.
    apply check_exact; [|rewrite !len_app; lia].
    apply (schemaArraySliceSize_exact el es [] rest); assumption.
  - destruct v; cbn [encode] in Henc; try discriminate.
    apply encode_fields_inv in Henc as (es & -> & HF).
    cbn [SchemaSize].
    apply check_exact; [|rewrite !len_app; lia].
    apply (schemaStructSize_loop_exact _ es (Forall2_fields_exact _ _ IH HF) [] rest).
    exact Hrest.
  - cbn [encode] in Henc. case_match; [discriminate|].
    destruct v; try discriminate.
    + case_match eqn:Hrt; [|discriminate]. apply (inj Some) in Henc as <-.
      cbn [SchemaSize]. rewrite Hrt. f_equal.
      symmetry. apply (len_vec hash).
    + case_match eqn:Hcond; [|discriminate]. apply (inj Some) in Henc as <-.
      apply andb_prop in Hcond as [->%Z.eqb_eq Hlen%Z.ltb_lt].
      cbn [SchemaSize]. change (ReferenceTypeSlice =? ReferenceTypeSingle) with false.
      rewrite Z.eqb_refl. cbv iota.
      unfold refSize. pose proof (len_nonneg hashes) as Hnn.
      rewrite <- app_assoc, read_uint32_uint32, Z.mod_small by lia.
      cbn [mbind result_bind].
      assert (E : len (concat (map vec_to_list hashes)) = len hashes * cipher.SHA256_len).
      { rewrite (len_concat_fixed _ cipher.SHA256_len).
        - unfold len. rewrite length_map. reflexivity.
        - apply Forall_map, Forall_forall. intros h _. apply (len_vec h). }
      rewrite !len_app, len_uint32, E.
      destruct (Z.ltb_spec (len hashes * cipher.SHA256_len + len rest)
                  (len hashes * cipher.SHA256_len)); [lia|reflexivity].
    + case_match eqn:Hrt; [|discriminate]. apply (inj Some) in Henc as <-.
      apply Z.eqb_eq in Hrt as ->.
      cbn [SchemaSize]. cbn. f_equal.
      rewrite len_app, !len_vec. reflexivity.
Qed.

(** On exactly the encoding of a value, [SchemaSize] returns its length or
    an error. *)
Lemma SchemaSize_encode (s : Schema) (v : Value) (enc : list byte) :
  encode s v = Some enc ->
  SchemaSize s enc = Ok (len enc) \/ is_Err (SchemaSize s enc).
Proof. intros H. exact (SchemaSize_sound s v enc H enc (comparable_refl enc)). Qed.

(** C1.  [SchemaSize] on the encoding of a value should return the length
    of the encoding and no error.  It does not for
    [struct { A uint8; B struct{} }]: the value with [A = 7] is encoded in
    the one byte [07], and on that buffer the guard [n >= len(p)] in front
    of the field [B], which takes no bytes, returns
    [ErrInvalidSchemaOrData]; with one more byte behind the encoding the
    result is the expected 1. *)
Theorem SchemaSize_trailing_empty_field :
  encode trailing_empty_schema trailing_empty_value = Some [x07]
  /\ SchemaSize trailing_empty_schema [x07] = Err ErrInvalidSchemaOrData
  /\ SchemaSize trailing_empty_schema [x07; x00] = Ok 1.
Proof. repeat split; vm_compute; reflexivity. Qed.

End SizeEngine.

(** ** The schema codec *)

Section SchemaCodec.

Import skyobject.

Lemma read_uint32_length p n rest :
  encoder.read_uint32 p = Ok (n, rest) -> length p = (4 + length rest)%nat.
Proof.
  destruct p as [|b0 [|b1 [|b2 [|b3 r]]]]; cbn [encoder.read_uint32];
    try discriminate.
  intros [= _ <-]. reflexivity.
Qed.

Lemma read_lbytes_length p d rest :
  encoder.read_lbytes p = Ok (d, rest) ->
  length p = (4 + length d + length rest)%nat.
Proof.
  unfold encoder.read_lbytes.
  destruct (encoder.read_uint32 p) as [[n r]| |] eqn:E; cbn; try discriminate.
  apply read_uint32_length in E.
  unfold encoder.read_bytes. case_match; [discriminate|].
  intros [= <- <-].
  rewrite <- (take_drop (Z.to_nat n) r) in E at 1.
  rewrite length_app in E. lia.
Qed.

Lemma read_n_lbytes_length n p ds rest :
  encoder.read_n encoder.read_lbytes n p = Ok (ds, rest) ->
  Forall (fun d => (length d < length p)%nat) ds
  /\ (length rest <= length p)%nat.
Proof.
  revert p ds rest. induction n as [|n IH]; intros p ds rest; cbn.
  - intros [= <- <-]. split; [constructor|lia].
  - destruct (encoder.read_lbytes p) as [[d r]| |] eqn:E; cbn; try discriminate.
    destruct (encoder.read_n encoder.read_lbytes n r) as [[ds' r']| |] eqn:E';
      cbn; try discriminate.
    intros [= <- <-].
    apply read_lbytes_length in E. apply IH in E' as [HF Hr].
    split; [|lia]. constructor; [lia|].
    eapply list.Forall_impl; [exact HF|]. cbn. intros; lia.
Qed.

Lemma DeserializeRaw_encodedSchema_length b x :
  DeserializeRaw_encodedSchema b = Ok x ->
  (length (es_Elem x) < length b)%nat
  /\ Forall (fun d => (length d < length b)%nat) (es_Fields x).
Proof.
  unfold DeserializeRaw_encodedSchema.
  destruct (encoder.read_uint32 b) as [[rt b1]| |] eqn:E1; cbn; try discriminate.
  destruct (encoder.read_uint32 b1) as [[k b2]| |] eqn:E2; cbn; try discriminate.
  destruct (encoder.read_lbytes b2) as [[nm b3]| |] eqn:E3; cbn; try discriminate.
  destruct (encoder.read_uint32 b3) as [[l b4]| |] eqn:E4; cbn; try discriminate.
  destruct (encoder.read_slice encoder.read_lbytes b4) as [[fs b5]| |] eqn:E5;
    cbn; try discriminate.
  destruct (encoder.read_lbytes b5) as [[el b6]| |] eqn:E6; cbn; try discriminate.
  intros [= <-]. cbn.
  apply read_uint32_length in E1, E2, E4. apply read_lbytes_length in E3, E6.
  unfold encoder.read_slice in E5.
  destruct (encoder.read_uint32 b4) as [[n b4']| |] eqn:E5'; cbn in E5;
    try discriminate.
  apply read_uint32_length in E5'. apply read_n_lbytes_length in E5 as [HF Hr].
  split; [lia|].
  eapply list.Forall_impl; [exact HF|]. cbn. intros; lia.
Qed.

Lemma DeserializeRaw_encodedField_length b x :
  DeserializeRaw_encodedField b = Ok x ->
  (length (ef_Schema x) < length b)%nat.
Proof.
  unfold DeserializeRaw_encodedField.
  destruct (encoder.read_lbytes b) as [[nm b1]| |] eqn:E1; cbn; try discriminate.
  destruct (encoder.read_lbytes b1) as [[tg b2]| |] eqn:E2; cbn; try discriminate.
  destruct (encoder.read_lbytes b2) as [[sc b3]| |] eqn:E3; cbn; try discriminate.
  intros [= <-]. cbn.
  apply read_lbytes_length in E1, E2, E3. lia.
Qed.

Lemma mapM_result_no_Panic {A B : Type} (f : A -> result B) (l : list A) :
  Forall (fun x => f x <> Panic) l -> mapM_result f l <> Panic.
Proof.
  induction 1 as [|x l Hx _ IH]; cbn; [discriminate|].
  destruct (f x); cbn; [|discriminate|congruence].
  destruct (mapM_result f l); cbn; [discriminate..|congruence].
Qed.

Lemma bind_no_Panic {A B : Type} (r : result A) (k : A -> result B) :
  r <> Panic -> (forall a, k a <> Panic) -> (r ≫= k) <> Panic.
Proof. destruct r; cbn; [intros _ H; apply H|discriminate|congruence]. Qed.

Lemma bind_no_Panic_Ok {A B : Type} (r : result A) (k : A -> result B) :
  r <> Panic -> (forall a, r = Ok a -> k a <> Panic) -> (r ≫= k) <> Panic.
Proof.
  destruct r; cbn; [intros _ H; apply H; reflexivity|discriminate|congruence].
Qed.

Lemma read_uint32_no_Panic p : encoder.read_uint32 p <> Panic.
Proof. destruct p as [|? [|? [|? [|? ?]]]]; discriminate. Qed.

Lemma read_lbytes_no_Panic p : encoder.read_lbytes p <> Panic.
Proof.
  unfold encoder.read_lbytes. apply bind_no_Panic; [apply read_uint32_no_Panic|].
  intros [n rest]. unfold encoder.read_bytes. case_match; discriminate.
Qed.

Lemma read_n_no_Panic {A : Type} (read : list byte -> result (A * list byte)) n p :
  (forall q, read q <> Panic) -> encoder.read_n read n p <> Panic.
Proof.
  intros Hread. revert p. induction n as [|n IH]; intros p; cbn; [discriminate|].
  apply bind_no_Panic; [apply Hread|]. intros [x rest].
  apply bind_no_Panic; [apply IH|]. intros [xs rest']. discriminate.
Qed.

Lemma DeserializeRaw_encodedSchema_no_Panic b :
  DeserializeRaw_encodedSchema b <> Panic.
Proof.
  unfold DeserializeRaw_encodedSchema.
  apply bind_no_Panic; [apply read_uint32_no_Panic|]. intros [rt b1].
  apply bind_no_Panic; [apply read_uint32_no_Panic|]. intros [k b2].
  apply bind_no_Panic; [apply read_lbytes_no_Panic|]. intros [nm b3].
  apply bind_no_Panic; [apply read_uint32_no_Panic|]. intros [l b4].
  apply bind_no_Panic.
  { unfold encoder.read_slice.
    apply bind_no_Panic; [apply read_uint32_no_Panic|]. intros [n b4'].
    apply read_n_no_Panic, read_lbytes_no_Panic. }
  intros [fs b5].
  apply bind_no_Panic; [apply read_lbytes_no_Panic|]. intros [el b6].
  discriminate.
Qed.

Lemma DeserializeRaw_encodedField_no_Panic b :
  DeserializeRaw_encodedField b <> Panic.
Proof.
  unfold DeserializeRaw_encodedField.
  apply bind_no_Panic; [apply read_lbytes_no_Panic|]. intros [nm b1].
  apply bind_no_Panic; [apply read_lbytes_no_Panic|]. intros [tg b2].
  apply bind_no_Panic; [apply read_lbytes_no_Panic|]. intros [sc b3].
  discriminate.
Qed.

(** The fuel of [decodeSchema] is never used up: [decodeSchema] returns a
    schema or an error. *)
Lemma decodeSchema_fuel_no_Panic (fuel : nat) (b : list byte) :
  (length b < fuel)%nat -> decodeSchema_fuel fuel b <> Panic.
Proof.
  revert b. induction fuel as [|fuel IH]; intros b Hlen; [lia|].
  cbn [decodeSchema_fuel].
  destruct (DeserializeRaw_encodedSchema b) as [x| |] eqn:Ex;
    [|discriminate|exfalso; exact (DeserializeRaw_encodedSchema_no_Panic b Ex)].
  cbn [mbind result_bind].
  apply DeserializeRaw_encodedSchema_length in Ex as [Hel Hfs].
  assert (Hrec : decodeSchema_fuel fuel (es_Elem x) <> Panic) by (apply IH; lia).
  repeat case_match; try discriminate;
    try (apply bind_no_Panic; [exact Hrec|discriminate]).
  apply bind_no_Panic; [|discriminate].
  apply mapM_result_no_Panic.
  eapply list.Forall_impl; [exact Hfs|]. cbn. intros d Hd.
  apply bind_no_Panic_Ok; [apply DeserializeRaw_encodedField_no_Panic|].
  intros ef Eef. apply DeserializeRaw_encodedField_length in Eef.
  apply bind_no_Panic; [apply IH; lia|discriminate].
Qed.

Lemma decodeSchema_no_Panic (b : list byte) : decodeSchema b <> Panic.
Proof. apply decodeSchema_fuel_no_Panic. lia. Qed.

(** C6, as amended.  When the bytes hold an encoded schema whose
    reference-type discriminator is none of None, Single, Slice and
    Dynamic, [decodeSchema] returns [ErrInvalidEncodedSchema]. *)
Theorem decodeSchema_invalid_ReferenceType (b : list byte) (x : encodedSchema) :
  DeserializeRaw_encodedSchema b = Ok x ->
  recognizedReferenceType (es_ReferenceType x) = false ->
  decodeSchema b = Err ErrInvalidEncodedSchema.
Proof.
  intros Hx Hrt. unfold decodeSchema. cbn [decodeSchema_fuel].
  rewrite Hx. cbn [mbind result_bind].
  unfold recognizedReferenceType in Hrt.
  apply orb_false_elim in Hrt as [Hrt Hdyn].
  apply orb_false_elim in Hrt as [Hrt Hslice].
  apply orb_false_elim in Hrt as [Hnone Hsingle].
  rewrite Hsingle, Hslice, Hdyn, Hnone. reflexivity.
Qed.

Lemma decodeSchema_invalid_ReferenceType_witness :
  decodeSchema (Serialize_encodedSchema bad_discriminator_schema)
  = Err ErrInvalidEncodedSchema.
Proof.
  apply (decodeSchema_invalid_ReferenceType _ bad_discriminator_schema).
  - vm_compute. reflexivity.
  - vm_compute. reflexivity.
Defined.

(** The kind is not checked: with the discriminator "not a reference", a
    kind other than slice, array and struct gives a schema of that kind,
    whatever the kind is. *)
Lemma decodeSchema_any_kind (b : list byte) (x : encodedSchema) :
  DeserializeRaw_encodedSchema b = Ok x ->
  es_ReferenceType x = ReferenceTypeNone ->
  es_Kind x <> reflect.Slice -> es_Kind x <> reflect.Array ->
  es_Kind x <> reflect.Struct ->
  decodeSchema b = Ok (schema (es_Kind x) (string_of_list_byte (es_Name x))).
Proof.
  intros Hx Hrt Hs Ha Hst. unfold decodeSchema. cbn [decodeSchema_fuel].
  rewrite Hx. cbn [mbind result_bind]. rewrite Hrt.
  change (ReferenceTypeNone =? ReferenceTypeSingle) with false.
  change (ReferenceTypeNone =? ReferenceTypeSlice) with false.
  change (ReferenceTypeNone =? ReferenceTypeDynamic) with false.
  change (ReferenceTypeNone =? ReferenceTypeNone) with true.
  cbn [orb].
  apply Z.eqb_neq in Hs, Ha, Hst. rewrite Hs, Ha, Hst. reflexivity.
Qed.

(** C6, as stated, fails: the combination of "not a reference" with the
    kind [reflect.Map] is outside the recognized set, and [decodeSchema]
    returns a schema for it. *)
Lemma decodeSchema_accepts_unrecognized_kind :
  recognizedKind reflect.Map = false
  /\ DeserializeRaw_encodedSchema encoded_map_schema
     = Ok {| es_ReferenceType := ReferenceTypeNone; es_Kind := reflect.Map;
             es_Name := []; es_Len := 0; es_Fields := []; es_Elem := [] |}
  /\ decodeSchema encoded_map_schema = Ok (schema reflect.Map "").
Proof. repeat split; vm_compute; reflexivity. Qed.

End SchemaCodec.

(** ** The type registrar *)

Section Registrar.

Import skyobject.

Lemma existsb_eqb_elem_of (name : string) (l : list string) :
  existsb (String.eqb name) l = true <-> name ∈ l.
Proof.
  rewrite existsb_exists. split.
  - intros (x & Hin & Heq). apply String.eqb_eq in Heq as <-.
    apply list_elem_of_In, Hin.
  - intros Hin. exists name. split; [apply list_elem_of_In, Hin|].
    apply String.eqb_refl.
Qed.

Lemma Register_Ok (r : Reg) (name : string) (val : reflect.any)
    (typ : reflect.Type_) :
  name <> EmptyString -> typeOf val = Ok typ -> ~ isReferenceType typ ->
  name ∉ names_of (Reg_tn r) ->
  Register r name val = Ok {| Reg_tn := <[typ := name]> (Reg_tn r) |}.
Proof.
  intros Hname Htyp Href Hnew. unfold Register.
  apply String.eqb_neq in Hname. rewrite Hname, Htyp. cbn [mbind result_bind].
  unfold isReferenceType in Href.
  rewrite !bool_decide_eq_false_2 by tauto. cbn [orb].
  destruct (existsb (String.eqb name) (names_of (Reg_tn r))) eqn:E;
    [|reflexivity].
  apply existsb_eqb_elem_of in E. contradiction.
Qed.

Lemma typeOf_cases (val : reflect.any) :
  typeOf val = Panic \/ exists typ, typeOf val = Ok typ.
Proof.
  destruct val as [|typ|elem]; cbn; [left; reflexivity| |left; reflexivity].
  right. destruct typ; eauto.
Qed.

Lemma isReferenceType_dec (typ : reflect.Type_) :
  {isReferenceType typ} + {~ isReferenceType typ}.
Proof.
  unfold isReferenceType.
  destruct (decide (typ = typeOfRef)); [left; tauto|].
  destruct (decide (typ = typeOfRefs)); [left; tauto|].
  destruct (decide (typ = typeOfDynamic)); [left; tauto|].
  right. tauto.
Qed.

Lemma Register_Panic_iff (r : Reg) (name : string) (val : reflect.any) :
  Register r name val = Panic <->
    name = EmptyString
    \/ typeOf val = Panic
    \/ (exists typ, typeOf val = Ok typ /\ isReferenceType typ)
    \/ name ∈ names_of (Reg_tn r).
Proof.
  destruct (String.eqb_spec name EmptyString) as [->|Hname].
  { split; [tauto|]. intros _. reflexivity. }
  destruct (typeOf_cases val) as [Hty|[typ Hty]].
  { split; [tauto|]. intros _. unfold Register.
    apply String.eqb_neq in Hname. rewrite Hname, Hty. reflexivity. }
  destruct (isReferenceType_dec typ) as [Href|Href].
  { split; [eauto 6|]. intros _. unfold Register.
    apply String.eqb_neq in Hname. rewrite Hname, Hty. cbn [mbind result_bind].
    destruct Href as [-> | [-> | ->]]; reflexivity. }
  destruct (decide (name ∈ names_of (Reg_tn r))) as [Hin|Hnew].
  { split; [tauto|]. intros _. unfold Register.
    apply String.eqb_neq in Hname. rewrite Hname, Hty. cbn [mbind result_bind].
    unfold isReferenceType in Href.
    rewrite !bool_decide_eq_false_2 by tauto. cbn [orb].
    apply existsb_eqb_elem_of in Hin. rewrite Hin. reflexivity. }
  rewrite (Register_Ok r name val typ) by assumption.
  split; [discriminate|].
  intros [?|[?|[(typ' & Hty' & Href')|?]]]; try contradiction; try congruence.
Qed.

(** *** Reference fields and their tags *)

Lemma TagSchemaName_empty_tag (tag : reflect.StructTag) :
  reflect.StructTag_Get tag TAG = EmptyString ->
  TagSchemaName tag
  = Err (ErrTag "empty skyobject tag, expected schema=XXX").
Proof. intros H. unfold TagSchemaName. rewrite H. reflexivity. Qed.

Lemma mustTagSchemaName_Panic (tag : reflect.StructTag) :
  (forall sch, TagSchemaName tag <> Ok sch) -> mustTagSchemaName tag = Panic.
Proof.
  intros H. unfold mustTagSchemaName.
  destruct (TagSchemaName tag) as [sch| |]; [|reflexivity..].
  exfalso. exact (H sch eq_refl).
Qed.

Lemma getField_reference_without_target (r : Reg)
    (sf_Name : string) (sf_Tag : reflect.StructTag) (sf_PkgPath : string)
    (t : reflect.Type_) :
  t = typeOfRef \/ t = typeOfRefs ->
  (forall sch, TagSchemaName sf_Tag <> Ok sch) ->
  getField r (reflect.Build_StructField sf_Name sf_Tag sf_PkgPath t) = Panic.
Proof.
  intros Ht Htag. unfold getField.
  destruct Ht as [-> | ->].
  - rewrite bool_decide_eq_true_2 by reflexivity.
    rewrite mustTagSchemaName_Panic by exact Htag. reflexivity.
  - rewrite bool_decide_eq_false_2 by discriminate.
    rewrite bool_decide_eq_true_2 by reflexivity.
    rewrite mustTagSchemaName_Panic by exact Htag. reflexivity.
Qed.

(** the loop that [getSchema] runs over the fields is [getFields] *)
Lemma getSchema_TStruct (r : Reg) (name : string)
    (fields : list reflect.StructField) :
  reflect.TStruct name fields <> typeOfDynamic ->
  getSchema r (reflect.TStruct name fields)
  = (fs ← getFields r fields;
     Ok (structSchema (typeName r (reflect.TStruct name fields)) fs)).
Proof.
  intros Hdyn. cbn [getSchema].
  rewrite (bool_decide_eq_false_2 _ Hdyn).
  rewrite !bool_decide_eq_false_2 by discriminate. cbn [orb].
  f_equal. clear Hdyn.
  induction fields as [|[sfn sft sfp t] fields IH]; [reflexivity|].
  cbn [getFields skipped getField]. rewrite <- IH. reflexivity.
Qed.

(** C9, as stated, fails: with a name that is not empty and not yet
    registered, and no reference-wrapper type in sight, [Register] panics
    when the exemplar is nil, which has no type. *)
Lemma Register_nil_exemplar :
  Register newReg "x" reflect.nil_interface = Panic
  /\ "x"%string <> EmptyString
  /\ ("x"%string ∉ names_of (Reg_tn newReg))
  /\ (forall typ, typeOf reflect.nil_interface <> Ok typ).
Proof.
  split; [reflexivity|]. split; [discriminate|]. split.
  - unfold names_of, newReg. cbn [Reg_tn]. rewrite map_to_list_empty.
    apply not_elem_of_nil.
  - intros typ. discriminate.
Qed.

(** C9, as amended.  [Register] panics exactly when the name is empty, the
    exemplar has no type (it is nil, or a nil pointer), its type is one of
    the three reference-wrapper types, or the name is the name of a type
    in the table; in every other case it returns the table with the type
    set to the name.  And [getField] panics on a [Reference] or
    [References] field whose tag gives no schema name; a tag with no
    [skyobject] entry is one that gives none. *)
Theorem Register_contract (r : Reg) (name : string) (val : reflect.any) :
  (Register r name val = Panic <->
     name = EmptyString
     \/ typeOf val = Panic
     \/ (exists typ, typeOf val = Ok typ /\ isReferenceType typ)
     \/ name ∈ names_of (Reg_tn r))
  /\ (Register r name val <> Panic ->
      exists typ, typeOf val = Ok typ
        /\ Register r name val = Ok {| Reg_tn := <[typ := name]> (Reg_tn r) |})
  /\ (forall sf_Name sf_Tag sf_PkgPath t,
        t = typeOfRef \/ t = typeOfRefs ->
        (forall sch, TagSchemaName sf_Tag <> Ok sch) ->
        getField r (reflect.Build_StructField sf_Name sf_Tag sf_PkgPath t)
        = Panic)
  /\ (forall tag sch,
        reflect.StructTag_Get tag TAG = EmptyString ->
        TagSchemaName tag <> Ok sch).
Proof.
  split; [apply Register_Panic_iff|]. split.
  - intros Hnp.
    destruct (typeOf_cases val) as [Hty|[typ Hty]].
    { exfalso. apply Hnp, Register_Panic_iff. tauto. }
    exists typ. split; [exact Hty|].
    apply Register_Ok; try assumption.
    + intros ->. apply Hnp, Register_Panic_iff. tauto.
    + intros Href. apply Hnp, Register_Panic_iff. eauto 6.
    + intros Hin. apply Hnp, Register_Panic_iff. tauto.
  - split.
    + intros. apply getField_reference_without_target; assumption.
    + intros tag sch H. rewrite (TagSchemaName_empty_tag tag H). discriminate.
Qed.

(** *** Registering a type twice *)

Context (SumSHA256 : list byte -> cipher.SHA256).

Lemma names_of_empty : names_of (∅ : gmap reflect.Type_ string) = [].
Proof. unfold names_of. rewrite map_to_list_empty. reflexivity. Qed.

Lemma names_of_singleton (typ : reflect.Type_) (name : string) :
  names_of ({[typ := name]} : gmap reflect.Type_ string) = [name].
Proof. unfold names_of. rewrite map_to_list_singleton. reflexivity. Qed.

Lemma finialize_reg (r r' : Registry) (o : orders) :
  finialize SumSHA256 r o = Ok r' -> reg r' = reg r.
Proof.
  unfold finialize, finialize_fuel.
  destruct (fill_loop _ _ _ _) as [[[h filled]| |]|]; try discriminate.
  destruct (srf_loop _ _ _ _) as [m| |]; cbn [mbind result_bind];
    try discriminate.
  destruct (Registry_Encode _ _) as [encoded| |]; cbn [mbind result_bind];
    try discriminate.
  intros [= <-]. reflexivity.
Qed.

Lemma range_singleton {V : Type} (k : reflect.Type_) (v : V) :
  range ({[k := v]} : gmap reflect.Type_ V) [k] = [(k, v)].
Proof. unfold range. cbn. rewrite lookup_singleton_eq. reflexivity. Qed.

Lemma valid_order_singleton {V : Type} (k : reflect.Type_) (v : V)
    (order : list reflect.Type_) :
  valid_order ({[k := v]} : gmap reflect.Type_ V) order -> order = [k].
Proof.
  unfold valid_order. rewrite map_to_list_singleton. cbn.
  apply Permutation_singleton_r.
Qed.

(** C10.  The table of a [Reg] is keyed by the type: registering one type
    under a first and then under a second name does not fail, and leaves
    the type with the second name only.  A registry built from that [Reg]
    holds a schema under the second name alone, and [SchemaByName] of the
    first name is the missing-schema error. *)
Theorem Register_twice_same_type (val : reflect.any) (typ : reflect.Type_)
    (name1 name2 : string) (o : orders) (r : Registry) :
  typeOf val = Ok typ -> ~ isReferenceType typ ->
  name1 <> EmptyString -> name2 <> EmptyString -> name1 <> name2 ->
  let cl := fun t : Reg =>
              t ← Register t name1 val; Register t name2 val in
  valid_order ({[typ := name2]} : gmap reflect.Type_ string)
    (order_register o) ->
  NewRegistry SumSHA256 cl o = Ok r ->
  cl newReg = Ok {| Reg_tn := {[typ := name2]} |}
  /\ dom (reg r) = {[name2]}
  /\ SchemaByName r name1 = Err (ErrMissingSchema name1)
  /\ SchemaByName r name2 = Ok ((name2, 0%nat), []).
Proof.
  intros Hty Href Hn1 Hn2 Hne cl Hord Hnew.
  assert (Hcl : cl newReg = Ok {| Reg_tn := {[typ := name2]} |}).
  { unfold cl.
    rewrite (Register_Ok newReg name1 val typ) by
      (try assumption; cbn [Reg_tn newReg]; rewrite names_of_empty;
       apply not_elem_of_nil).
    cbn [mbind result_bind].
    rewrite (Register_Ok _ name2 val typ).
    - cbn [Reg_tn newReg]. rewrite insert_empty, insert_singleton_eq. reflexivity.
    - assumption.
    - assumption.
    - assumption.
    - cbn [Reg_tn newReg]. rewrite insert_empty, names_of_singleton.
      intros Hin%list_elem_of_singleton. congruence. }
  split; [exact Hcl|].
  assert (Hreg : reg r = {[name2 := ((name2, 0%nat), [])]}).
  { unfold NewRegistry in Hnew. rewrite Hcl in Hnew.
    cbn [mbind result_bind] in Hnew.
    unfold register in Hnew. cbn [Reg_tn] in Hnew.
    rewrite (valid_order_singleton _ _ _ Hord), range_singleton in Hnew.
    cbn [register_loop] in Hnew.
    destruct (getSchema _ typ) as [s| |]; cbn [mbind result_bind] in Hnew;
      try discriminate.
    destruct (IsRegistered s); cbn [negb mbind result_bind] in Hnew;
      try discriminate.
    apply finialize_reg in Hnew. rewrite Hnew. cbn [reg newRegistry].
    rewrite insert_empty. reflexivity. }
  unfold SchemaByName, schemaByName. rewrite Hreg.
  split; [apply dom_singleton_L|]. split.
  - rewrite lookup_singleton_ne by congruence. reflexivity.
  - rewrite lookup_singleton_eq. reflexivity.
Qed.

End Registrar.

Lemma Register_twice_same_type_witness :
  skyobject.register_twice skyobject.newReg
  = Ok {| skyobject.Reg_tn := {[skyobject.emptyStruct := "second"%string]} |}
  /\ dom (skyobject.reg skyobject.registry_twice) = {["second"%string]}
  /\ skyobject.SchemaByName skyobject.registry_twice "first"
     = Err (ErrMissingSchema "first")
  /\ skyobject.SchemaByName skyobject.registry_twice "second"
     = Ok (("second"%string, 0%nat), []).
Proof.
  apply (Register_twice_same_type skyobject.exampleSum
           (reflect.value_of skyobject.emptyStruct) skyobject.emptyStruct
           "first" "second" skyobject.orders_twice skyobject.registry_twice).
  - reflexivity.
  - unfold skyobject.isReferenceType. intros [H|[H|H]]; discriminate H.
  - discriminate.
  - discriminate.
  - discriminate.
  - unfold skyobject.valid_order. rewrite map_to_list_singleton. reflexivity.
  - vm_compute. reflexivity.
Defined.

(** ** Decoding a registry *)

Section DecodeRegistry.

Import skyobject.

Context (SumSHA256 : list byte -> cipher.SHA256).

(** An entry whose schema does not decode stops [DecodeRegistry]: not with
    the error of [decodeSchema], with a panic. *)
Lemma DecodeRegistry_loop_failure (re : registryEntity)
    (res : list registryEntity) (i : nat) (r : Registry) (e : error) :
  decodeSchema (re_Schema re) = Err e ->
  DecodeRegistry_loop SumSHA256 (re :: res) i r = Panic.
Proof. intros H. cbn [DecodeRegistry_loop]. rewrite H. reflexivity. Qed.

(** C7.  A decode path should return the first failure it meets.
    [DecodeRegistry] does not: on a registry of two entries, the schema
    bytes of the first of which do not decode ([decodeSchema] returns the
    encoder's error for them), it panics, whatever the second entry is. *)
Theorem DecodeRegistry_failing_entry (o : orders) :
  DeserializeRaw_registryEntities failing_registry
  = Ok [ {| re_Name := "A"; re_Schema := [] |};
         {| re_Name := "B";
            re_Schema :=
              Serialize_encodedSchema
                {| es_ReferenceType := ReferenceTypeNone;
                   es_Kind := reflect.Uint32; es_Name := []; es_Len := 0;
                   es_Fields := []; es_Elem := [] |} |} ]
  /\ decodeSchema [] = Err ErrBufferUnderflow
  /\ DecodeRegistry SumSHA256 failing_registry o = Panic.
Proof.
  assert (H : DeserializeRaw_registryEntities failing_registry
              = Ok [ {| re_Name := "A"; re_Schema := [] |};
                     {| re_Name := "B";
                        re_Schema :=
                          Serialize_encodedSchema
                            {| es_ReferenceType := ReferenceTypeNone;
                               es_Kind := reflect.Uint32; es_Name := [];
                               es_Len := 0; es_Fields := []; es_Elem := [] |} |} ])
    by (vm_compute; reflexivity).
  split; [exact H|]. split; [reflexivity|].
  unfold DecodeRegistry. rewrite H. cbn [mbind result_bind].
  rewrite (DecodeRegistry_loop_failure _ _ _ _ ErrBufferUnderflow); reflexivity.
Qed.

End DecodeRegistry.

(** ** Finalization: [fillSchema] and [finialize] *)

Section Termination.

Import skyobject.

Implicit Types (h : heap) (F : gset addr) (s a : addr)
  (rg : gmap string addr).

Lemma unfilled_insert h F s (o : object) :
  s ∈ dom h -> s ∉ F ->
  dom (<[s := o]> h) = dom h
  /\ (size (dom h ∖ ({[s]} ∪ F)) < size (dom h ∖ F))%nat.
Proof.
  intros Hs HF. split.
  - rewrite dom_insert_L. set_solver.
  - apply subset_size. split; [set_solver|].
    intros Hsub. assert (Hin : s ∈ dom h ∖ F) by set_solver.
    apply Hsub in Hin. set_solver.
Qed.

Lemma unfilled_mono h h' F F' :
  dom h' = dom h -> F ⊆ F' ->
  (size (dom h' ∖ F') <= size (dom h ∖ F))%nat.
Proof. intros -> HF. apply subseteq_size. set_solver. Qed.

(** the loop over the fields that [fillSchema] runs is [fillFields] *)
Lemma fillSchema_fields_loop
    (fill : addr -> heap * gset addr -> option (result (heap * gset addr)))
    rg s (fs : list (string * string * addr)) :
  forall (i : nat) (st : heap * gset addr),
    (fix fields_loop (fs : list (string * string * addr)) (i : nat)
         (st : heap * gset addr) {struct fs}
       : option (result (heap * gset addr)) :=
       match fs with
       | [] => Some (Ok st)
       | (_, _, fsch) :: fs' =>
           match resolve rg st.1 fsch with
           | Ok a =>
               match fill a (alter (set_field_schema i a) s st.1, st.2) with
               | Some (Ok st') => fields_loop fs' (S i) st'
               | other => other
               end
           | _ => Some Panic
           end
       end) fs i st
    = fillFields fill rg s fs i st.
Proof.
  induction fs as [|[[fn ft] fsch] fs IH]; intros i st; [reflexivity|].
  cbn [fillFields]. destruct (resolve rg st.1 fsch) as [a| |]; try reflexivity.
  destruct (fill a _) as [[st'| |]|]; try reflexivity. apply IH.
Qed.

Lemma fillFields_progress
    (fill : addr -> heap * gset addr -> option (result (heap * gset addr)))
    rg s h0 F0 :
  (forall a h F, dom h = dom h0 -> F0 ⊆ F -> fill_progress h F (fill a (h, F))) ->
  forall fs i h F, dom h = dom h0 -> F0 ⊆ F ->
    fill_progress h F (fillFields fill rg s fs i (h, F)).
Proof.
  intros Hfill fs. induction fs as [|[[fn ft] fsch] fs IH]; intros i h F Hdom HF.
  - exists (Ok (h, F)). split; [reflexivity|].
    intros h' F' [= <- <-]. split; [reflexivity|set_solver].
  - cbn [fillFields fst snd].
    destruct (resolve rg h fsch) as [a| |];
      [|eexists; split; [reflexivity|discriminate]..].
    assert (Hdom' : dom (alter (set_field_schema i a) s h) = dom h0)
      by (rewrite dom_alter_L; exact Hdom).
    destruct (Hfill a _ F Hdom' HF) as (res & -> & Hres).
    destruct res as [[h1 F1]| |];
      [|eexists; split; [reflexivity|discriminate]..].
    destruct (Hres h1 F1 eq_refl) as [Hd1 HF1].
    destruct (IH (S i) h1 F1) as (res' & -> & Hres').
    { congruence. }
    { set_solver. }
    exists res'. split; [reflexivity|].
    intros h' F' ->. destruct (Hres' h' F' eq_refl) as [Hd' HF'].
    split; [congruence|set_solver].
Qed.

(** [fillSchema] ends within the fuel when the fuel exceeds the number of
    objects of the store that are not yet visited. *)
Lemma fillSchema_progress (fuel : nat) :
  forall rg s h F, (size (dom h ∖ F) < fuel)%nat ->
    fill_progress h F (fillSchema fuel rg s (h, F)).
Proof.
  induction fuel as [|fuel IH]; intros rg s h F Hfuel; [lia|].
  cbn [fillSchema].
  destruct (bool_decide (s ∈ F)) eqn:HsF.
  { exists (Ok (h, F)). split; [reflexivity|].
    intros h' F' [= <- <-]. split; [reflexivity|set_solver]. }
  apply bool_decide_eq_false in HsF.
  destruct (h !! s) as [o|] eqn:Hs;
    [|eexists; split; [reflexivity|discriminate]].
  assert (Hsdom : s ∈ dom h) by (apply elem_of_dom; eauto).
  assert (Hrec : forall a (o' : object),
             fill_progress h F
               (fillSchema fuel rg a (<[s := o']> h, {[s]} ∪ F))).
  { intros a o'. destruct (unfilled_insert h F s o' Hsdom HsF) as [Hd Hlt].
    destruct (IH rg a (<[s := o']> h) ({[s]} ∪ F)) as (res & Hres & Hpost).
    { rewrite Hd. lia. }
    exists res. split; [exact Hres|].
    intros h' F' ->. destruct (Hpost h' F' eq_refl) as [Hd' HF'].
    split; [congruence|set_solver]. }
  destruct o as [kind name|name elem|name l elem|name fields|kind typ elem].
  - case_match; eexists; (split; [reflexivity|]); try discriminate.
    intros h' F' [= <- <-]. split; [reflexivity|set_solver].
  - destruct (resolve rg h elem) as [a| |]; [apply Hrec|..];
      eexists; (split; [reflexivity|discriminate]).
  - destruct (resolve rg h elem) as [a| |]; [apply Hrec|..];
      eexists; (split; [reflexivity|discriminate]).
  - rewrite (fillSchema_fields_loop (fillSchema fuel rg) rg s).
    destruct (unfilled_insert h F s (structObj name fields) Hsdom HsF)
      as [_ Hlt].
    destruct (fillFields_progress (fillSchema fuel rg) rg s h ({[s]} ∪ F))
      with (fs := fields) (i := 0%nat) (h := h) (F := {[s]} ∪ F)
      as (res & Hres & Hpost).
    + intros a h1 F1 Hd1 HF1. apply IH.
      pose proof (unfilled_mono h h1 ({[s]} ∪ F) F1 Hd1 HF1). lia.
    + reflexivity.
    + set_solver.
    + exists res. split; [exact Hres|].
      intros h' F' ->. destruct (Hpost h' F' eq_refl) as [Hd' HF'].
      split; [exact Hd'|set_solver].
  - case_match.
    + destruct elem as [e|]; [|eexists; split; [reflexivity|discriminate]].
      destruct (resolve_reference rg h e) as [a| |]; [apply Hrec|..];
        eexists; (split; [reflexivity|discriminate]).
    + case_match; eexists; (split; [reflexivity|]); try discriminate.
      intros h' F' [= <- <-]. split; [reflexivity|set_solver].
Qed.

Lemma fill_loop_progress (fuel : nat) rg h0 :
  (size (dom h0) < fuel)%nat ->
  forall entries h F, dom h = dom h0 ->
    fill_progress h F (fill_loop fuel rg entries (h, F)).
Proof.
  intros Hfuel entries.
  induction entries as [|[name sch] entries IH]; intros h F Hdom.
  - exists (Ok (h, F)). split; [reflexivity|].
    intros h' F' [= <- <-]. split; [reflexivity|set_solver].
  - cbn [fill_loop].
    destruct (fillSchema_progress fuel rg sch h F) as (res & -> & Hres).
    { rewrite Hdom.
      assert (size (dom h0 ∖ F) <= size (dom h0))%nat
        by (apply subseteq_size; set_solver).
      lia. }
    destruct res as [[h1 F1]| |];
      [|eexists; split; [reflexivity|discriminate]..].
    destruct (Hres h1 F1 eq_refl) as [Hd1 HF1].
    destruct (IH h1 F1) as (res' & -> & Hres'); [congruence|].
    exists res'. split; [reflexivity|].
    intros h' F' ->. destruct (Hres' h' F' eq_refl) as [Hd' HF'].
    split; [congruence|set_solver].
Qed.


End Termination.

(** ** What finalization computes *)

Section Resolution.

Import skyobject.

Context (rg : gmap string addr) (h0 : heap).

Implicit Types (h : heap) (F : gset addr) (s a e c : addr) (o : object).

Abbreviation names_agree := (names_agree h0).
Abbreviation untouched := (untouched h0).
Abbreviation resolved := (resolved rg h0).
Abbreviation unresolvable := (unresolvable rg h0).
Abbreviation resolve_object := (resolve_object rg h0).
Abbreviation resolve_child := (resolve_child rg h0).
Abbreviation resolve_field := (resolve_field rg h0).

(** *** Resolving against the store before or during the fill *)

Lemma resolve_names_agree h e :
  names_agree h -> resolve rg h e = resolve rg h0 e.
Proof.
  intros Hn. unfold resolve. specialize (Hn e).
  destruct (h !! e) as [eo|], (h0 !! e) as [eo0|]; cbn in Hn; try discriminate;
    [|reflexivity].
  injection Hn as Hn. unfold IsRegistered_of. rewrite Hn. reflexivity.
Qed.

Lemma resolve_reference_names_agree h e :
  names_agree h -> resolve_reference rg h e = resolve_reference rg h0 e.
Proof.
  intros Hn. unfold resolve_reference. specialize (Hn e).
  destruct (h !! e) as [eo|], (h0 !! e) as [eo0|]; cbn in Hn; try discriminate;
    [|reflexivity].
  injection Hn as Hn. rewrite Hn. reflexivity.
Qed.

Lemma resolve_Ok_or_Panic h e :
  (exists a, resolve rg h e = Ok a) \/ resolve rg h e = Panic.
Proof. unfold resolve. repeat case_match; eauto. Qed.

Lemma resolve_reference_Ok_or_Panic h e :
  (exists a, resolve_reference rg h e = Ok a) \/ resolve_reference rg h e = Panic.
Proof. unfold resolve_reference. repeat case_match; eauto. Qed.

Lemma names_agree_insert h s o o' :
  names_agree h -> h !! s = Some o -> Name_of o' = Name_of o ->
  names_agree (<[s := o']> h).
Proof.
  intros Hn Hs Hname a. destruct (decide (s = a)) as [<-|Hne].
  - rewrite lookup_insert_eq, <- Hn, Hs. cbn. congruence.
  - rewrite lookup_insert_ne by exact Hne. apply Hn.
Qed.

Lemma Name_of_set_field_schema i a o :
  Name_of (set_field_schema i a o) = Name_of o.
Proof. destruct o; reflexivity. Qed.

Lemma names_agree_alter h s i a :
  names_agree h -> names_agree (alter (set_field_schema i a) s h).
Proof.
  intros Hn a'. destruct (decide (s = a')) as [<-|Hne].
  - rewrite lookup_alter_eq, <- Hn.
    destruct (h !! s); cbn; [|reflexivity].
    rewrite Name_of_set_field_schema. reflexivity.
  - rewrite lookup_alter_ne by exact Hne. apply Hn.
Qed.

Lemma untouched_insert h F s o :
  untouched h F -> untouched (<[s := o]> h) ({[s]} ∪ F).
Proof.
  intros Hu a Ha. rewrite lookup_insert_ne by set_solver.
  apply Hu. set_solver.
Qed.

Lemma untouched_alter h F s (f : object -> object) :
  untouched h F -> s ∈ F -> untouched (alter f s h) F.
Proof.
  intros Hu Hs a Ha. rewrite lookup_alter_ne by set_solver. apply Hu, Ha.
Qed.

Lemma untouched_mono h F F' : untouched h F -> F ⊆ F' -> untouched h F'.
Proof. intros Hu HF a Ha. apply Hu. set_solver. Qed.

Lemma resolved_stable h h' F F' a :
  resolved h F a -> h' !! a = h !! a -> F ⊆ F' -> resolved h' F' a.
Proof.
  intros (o & o' & H0 & Hres & Hh & Hch) Heq HF.
  exists o, o'. repeat split; try assumption; [congruence|].
  intros e c He Hc. apply HF. eapply Hch; eassumption.
Qed.

Lemma mapM_result_Ok_elem {A B : Type} (g : A -> result B) (l : list A)
    (l' : list B) (x : A) :
  mapM_result g l = Ok l' -> x ∈ l -> exists y, g x = Ok y /\ y ∈ l'.
Proof.
  revert l'. induction l as [|z l IH]; intros l' Hm Hx; [inversion Hx|].
  cbn in Hm.
  destruct (g z) as [y| |] eqn:Ez; cbn in Hm; try discriminate.
  destruct (mapM_result g l) as [ys| |]; cbn in Hm; try discriminate.
  injection Hm as <-.
  apply elem_of_cons in Hx as [->|Hx].
  - exists y. split; [exact Ez|left].
  - destruct (IH ys eq_refl Hx) as (y' & Hy' & Hin).
    exists y'. split; [exact Hy'|right; exact Hin].
Qed.

(** *** The fill itself *)

Section Fill.

Context (R : addr -> Prop) (R_closed : closed rg h0 R).

Abbreviation fill_post := (fill_post rg h0 R).

Abbreviation fill_correct := (fill_correct rg h0 R).

Lemma fill_post_leaf h F s o :
  h0 !! s = Some o -> h !! s = Some o -> R s ->
  targets o = [] -> resolve_object o = Ok o ->
  names_agree h -> untouched h F ->
  fill_post h F (Ok (h, {[s]} ∪ F)).
Proof.
  intros H0 Hs HR Ht Hres Hn Hu. cbn.
  split; [set_solver|]. split; [exact Hn|].
  split; [eapply untouched_mono; [exact Hu|set_solver]|].
  split; [reflexivity|].
  intros a Ha HaF. assert (a = s) as -> by set_solver.
  split; [|exact HR].
  exists o, o. repeat split; try assumption.
  intros e c He. rewrite Ht in He. inversion He.
Qed.

(** an object with one pointer: the pointer is set, then followed *)
Lemma fill_post_single h F s o o' e a res :
  h0 !! s = Some o -> h !! s = Some o -> s ∉ F -> R s ->
  targets o = [e] -> resolve_child o e = Ok a ->
  resolve_object o = Ok o' -> Name_of o' = Name_of o ->
  fill_post (<[s := o']> h) ({[s]} ∪ F) res ->
  (forall h' F', res = Ok (h', F') -> a ∈ F') ->
  fill_post h F res.
Proof.
  intros H0 Hs HsF HR Ht Hc Hres Hname Hpost Ha.
  destruct res as [[h' F']| |]; [|exact Hpost..].
  cbn in Hpost |- *.
  destruct Hpost as (HF & Hn & Hu & Hsame & Hnew).
  split; [set_solver|]. split; [exact Hn|]. split; [exact Hu|].
  split.
  - intros a' Ha'. rewrite Hsame by set_solver.
    apply lookup_insert_ne. set_solver.
  - intros a' Ha' Ha'F. destruct (decide (a' = s)) as [->|Hne].
    + split; [|exact HR].
      exists o, o'. repeat split; try assumption.
      * rewrite Hsame by set_solver. apply lookup_insert_eq.
      * intros e' c He' Hc'. rewrite Ht in He'.
        apply list_elem_of_singleton in He' as ->.
        rewrite Hc in Hc'. injection Hc' as <-.
        exact (Ha h' F' eq_refl).
    + apply Hnew; set_solver.
Qed.

Lemma alter_set_field rpre fn ft fsch (fs : list (string * string * addr)) a name :
  set_field_schema (length rpre) a (structObj name (rpre ++ (fn, ft, fsch) :: fs))
  = structObj name ((rpre ++ [(fn, ft, a)]) ++ fs).
Proof.
  cbn. f_equal. rewrite <- app_assoc. cbn.
  replace (length rpre) with (length rpre + 0)%nat by lia.
  rewrite alter_app_r. reflexivity.
Qed.

Lemma mapM_resolve_field_cons fn ft fsch (fs : list (string * string * addr)) :
  mapM_result resolve_field ((fn, ft, fsch) :: fs)
  = (a ← resolve rg h0 fsch;
     rfs ← mapM_result resolve_field fs;
     Ok ((fn, ft, a) :: rfs)).
Proof.
  cbn [mapM_result].
  replace (resolve_field (fn, ft, fsch))
    with (resolve rg h0 fsch ≫= fun a => Ok (fn, ft, a)) by reflexivity.
  destruct (resolve rg h0 fsch); reflexivity.
Qed.

Lemma fillFields_spec
    (fill : addr -> heap * gset addr -> option (result (heap * gset addr)))
    (name : string) s :
  fill_correct fill ->
  forall fs rpre h F res,
    fillFields fill rg s fs (length rpre) (h, F) = Some res ->
    names_agree h -> untouched h F -> s ∈ F ->
    h !! s = Some (structObj name (rpre ++ fs)) ->
    (forall f c, f ∈ fs -> resolve rg h0 f.2 = Ok c -> R c) ->
    match res with
    | Ok (h', F') =>
        F ⊆ F' /\ names_agree h' /\ untouched h' F'
        /\ (forall a, a ∈ F -> a <> s -> h' !! a = h !! a)
        /\ (forall a, a ∈ F' -> a ∉ F -> resolved h' F' a /\ R a)
        /\ exists rfs, mapM_result resolve_field fs = Ok rfs
             /\ h' !! s = Some (structObj name (rpre ++ rfs))
             /\ forall f, f ∈ rfs -> f.2 ∈ F'
    | Panic =>
        (exists a, R a /\ unresolvable a)
        \/ (forall rfs, mapM_result resolve_field fs <> Ok rfs)
    | Err _ => False
    end.
Proof.
  intros Hfill fs.
  induction fs as [|[[fn ft] fsch] fs IH];
    intros rpre h F res Hrun Hn Hu HsF Hs HR.
  - cbn in Hrun. injection Hrun as <-.
    split; [reflexivity|]. split; [exact Hn|]. split; [exact Hu|].
    split; [reflexivity|]. split; [intros a Ha Ha'; contradiction|].
    exists []. split; [reflexivity|]. split; [exact Hs|].
    intros f Hf. inversion Hf.
  - cbn [fillFields fst snd] in Hrun.
    rewrite (resolve_names_agree h fsch Hn) in Hrun.
    destruct (resolve rg h0 fsch) as [a| |] eqn:Hres.
    2:{ destruct (resolve_Ok_or_Panic h0 fsch) as [[a Ha]|Hp]; congruence. }
    2:{ injection Hrun as <-. right. intros rfs.
        rewrite mapM_resolve_field_cons, Hres. discriminate. }
    set (h1 := alter (set_field_schema (length rpre) a) s h) in *.
    assert (Hs1 : h1 !! s = Some (structObj name ((rpre ++ [(fn, ft, a)]) ++ fs))).
    { unfold h1. rewrite lookup_alter_eq, Hs. cbn [fmap option_fmap option_map].
      rewrite alter_set_field. reflexivity. }
    assert (HRa : R a) by (apply (HR (fn, ft, fsch) a); [left|exact Hres]).
    destruct (fill a (h1, F)) as [r1|] eqn:Hfa; [|discriminate].
    destruct (Hfill a h1 F r1 Hfa) as [Hpost Hin];
      [apply names_agree_alter, Hn|apply untouched_alter; assumption|exact HRa|].
    destruct r1 as [[h2 F2]| |]; [|contradiction|].
    2:{ injection Hrun as <-. left. exact Hpost. }
    cbn in Hpost. destruct Hpost as (HF2 & Hn2 & Hu2 & Hsame2 & Hnew2).
    specialize (Hin h2 F2 eq_refl).
    replace (S (length rpre)) with (length (rpre ++ [(fn, ft, a)])) in Hrun
      by (rewrite length_app; cbn; lia).
    assert (HsF2 : s ∈ F2) by set_solver.
    assert (Hs2 : h2 !! s = Some (structObj name ((rpre ++ [(fn, ft, a)]) ++ fs)))
      by (rewrite Hsame2 by exact HsF; exact Hs1).
    assert (HR' : forall f c, f ∈ fs -> resolve rg h0 f.2 = Ok c -> R c)
      by (intros f c Hf; apply HR; right; exact Hf).
    specialize (IH (rpre ++ [(fn, ft, a)]) h2 F2 res Hrun Hn2 Hu2 HsF2 Hs2 HR').
    destruct res as [[h' F']| |]; [|exact IH|].
    + destruct IH as (HF' & Hn' & Hu' & Hsame' & Hnew' & rfs & Hm & Hs' & Hrfs).
      split; [set_solver|]. split; [exact Hn'|]. split; [exact Hu'|].
      split.
      { intros a' Ha' Hne. rewrite Hsame' by set_solver.
        rewrite Hsame2 by exact Ha'. unfold h1.
        apply lookup_alter_ne. congruence. }
      split.
      { intros a' Ha' Ha'F. destruct (decide (a' ∈ F2)) as [Hin2|Hout2].
        - destruct (Hnew2 a' Hin2 Ha'F) as [Hr HRa'].
          split; [|exact HRa'].
          eapply resolved_stable; [exact Hr| |exact HF'].
          apply Hsame'; [exact Hin2|]. intros ->. contradiction.
        - apply Hnew'; assumption. }
      exists ((fn, ft, a) :: rfs).
      split.
      { rewrite mapM_resolve_field_cons, Hres, Hm. reflexivity. }
      split.
      { rewrite Hs', <- app_assoc. reflexivity. }
      intros f Hf. apply elem_of_cons in Hf as [->|Hf].
      { cbn. set_solver. }
      { apply Hrfs, Hf. }
    + destruct IH as [H|H]; [left; exact H|right].
      intros rfs. rewrite mapM_resolve_field_cons, Hres.
      cbn [mbind result_bind].
      destruct (mapM_result resolve_field fs) as [rfs'| |] eqn:Hm;
        cbn; try discriminate.
      exfalso. exact (H rfs' eq_refl).
Qed.

Lemma resolve_object_not_Ok_unresolvable s o :
  h0 !! s = Some o -> (forall o', resolve_object o <> Ok o') -> unresolvable s.
Proof. intros H0 Hno o1 H1. rewrite H0 in H1. injection H1 as <-. exact Hno. Qed.

(** [fillSchema], with any fuel, when it ends: on success the schemas it
    visited are resolved, and point to visited schemas; a panic comes from
    a schema that cannot be resolved. *)
Lemma fillSchema_spec (fuel : nat) : fill_correct (fillSchema fuel rg).
Proof.
  induction fuel as [|fuel IH]; intros s h F res Hrun Hn Hu HR;
    [discriminate|].
  cbn [fillSchema] in Hrun.
  destruct (bool_decide (s ∈ F)) eqn:HsF.
  { apply bool_decide_eq_true in HsF. injection Hrun as <-.
    split; [|intros h' F' [= <- <-]; exact HsF].
    cbn. split; [reflexivity|]. split; [exact Hn|]. split; [exact Hu|].
    split; [reflexivity|]. intros a Ha Ha'. contradiction. }
  apply bool_decide_eq_false in HsF.
  pose proof (Hu s HsF) as Hs0.
  destruct (h !! s) as [o|] eqn:Hs.
  2:{ injection Hrun as <-. split; [|discriminate].
      exists s. split; [exact HR|]. intros o H. congruence. }
  symmetry in Hs0.
  assert (Hbad : forall res', res' = Panic ->
             (forall o', resolve_object o <> Ok o') ->
             fill_post h F res' /\ (forall h' F', res' = Ok (h', F') -> s ∈ F')).
  { intros res' -> Hno. split; [|discriminate].
    exists s. split; [exact HR|].
    eapply resolve_object_not_Ok_unresolvable; eassumption. }
  assert (Hleaf : targets o = [] -> resolve_object o = Ok o ->
            fill_post h F (Ok (h, {[s]} ∪ F))
            /\ (forall h' F', Ok (h, {[s]} ∪ F) = Ok (h', F') -> s ∈ F')).
  { intros Ht Hres. split.
    - eapply fill_post_leaf; eassumption.
    - intros h' F' [= <- <-]. set_solver. }
  assert (Hsingle : forall e a o',
            targets o = [e] -> resolve_child o e = Ok a ->
            resolve_object o = Ok o' -> Name_of o' = Name_of o ->
            fillSchema fuel rg a (<[s := o']> h, {[s]} ∪ F) = Some res ->
            fill_post h F res /\ (forall h' F', res = Ok (h', F') -> s ∈ F')).
  { intros e a o' Ht Hc Hres Hname Hrec.
    destruct (IH a (<[s := o']> h) ({[s]} ∪ F) res Hrec) as [Hpost Hin].
    - eapply names_agree_insert; eassumption.
    - apply untouched_insert, Hu.
    - eapply R_closed; [exact HR|exact Hs0| |exact Hc].
      rewrite Ht. left.
    - split.
      + eapply fill_post_single; eassumption.
      + intros h' F' ->. cbn in Hpost. set_solver. }
  destruct o as [kind name|name elem|name l elem|name fields|kind typ elem].
  - (* a scalar schema, or a placeholder *)
    destruct ((kind =? reflect.Array) || (kind =? reflect.Slice)) eqn:Hk;
      injection Hrun as <-.
    + apply Hbad; [reflexivity|]. intros o'. cbn. rewrite Hk. discriminate.
    + apply Hleaf; [reflexivity|]. cbn. rewrite Hk. reflexivity.
  - (* a slice *)
    rewrite (resolve_names_agree h elem Hn) in Hrun.
    destruct (resolve rg h0 elem) as [a| |] eqn:Hres.
    + eapply (Hsingle elem a (sliceObj name a)); try reflexivity;
        [exact Hres|cbn; rewrite Hres; reflexivity|exact Hrun].
    + destruct (resolve_Ok_or_Panic h0 elem) as [[a Ha]|Hp]; congruence.
    + injection Hrun as <-. apply Hbad; [reflexivity|].
      intros o'. cbn. rewrite Hres. discriminate.
  - (* an array *)
    rewrite (resolve_names_agree h elem Hn) in Hrun.
    destruct (resolve rg h0 elem) as [a| |] eqn:Hres.
    + eapply (Hsingle elem a (arrayObj name l a)); try reflexivity;
        [exact Hres|cbn; rewrite Hres; reflexivity|exact Hrun].
    + destruct (resolve_Ok_or_Panic h0 elem) as [[a Ha]|Hp]; congruence.
    + injection Hrun as <-. apply Hbad; [reflexivity|].
      intros o'. cbn. rewrite Hres. discriminate.
  - (* a struct *)
    rewrite (fillSchema_fields_loop (fillSchema fuel rg) rg s) in Hrun.
    assert (Hloop := fillFields_spec (fillSchema fuel rg) name s IH fields []
                       h ({[s]} ∪ F) res Hrun Hn).
    assert (Hu1 : untouched h ({[s]} ∪ F)).
    { apply (untouched_mono h F); [exact Hu|apply union_subseteq_r]. }
    assert (Hs1 : s ∈ ({[s]} ∪ F : gset addr)).
    { apply elem_of_union. left. apply elem_of_singleton. reflexivity. }
    specialize (Hloop Hu1 Hs1 Hs).
    assert (Hcl : forall f c, f ∈ fields -> resolve rg h0 f.2 = Ok c -> R c).
    { intros f c Hf Hc. eapply R_closed; [exact HR|exact Hs0| |exact Hc].
      cbn. apply list_elem_of_fmap. exists f. split; [reflexivity|exact Hf]. }
    specialize (Hloop Hcl).
    destruct res as [[h' F']| |]; [|contradiction|].
    + destruct Hloop as (HF' & Hn' & Hu' & Hsame' & Hnew' & rfs & Hm & Hs' & Hrfs).
      split; [|intros h1 F1 [= <- <-]; clear -HF'; set_solver].
      cbn. split; [clear -HF'; set_solver|].
      split; [exact Hn'|]. split; [exact Hu'|].
      split.
      { intros a Ha. apply Hsame'; [clear -Ha; set_solver|].
        intros ->. contradiction. }
      intros a Ha HaF. destruct (decide (a = s)) as [->|Hne].
      * split; [|exact HR].
        exists (structObj name fields), (structObj name rfs).
        split; [exact Hs0|]. split; [cbn; rewrite Hm; reflexivity|].
        split; [exact Hs'|].
        intros e c He Hc. cbn in He, Hc.
        apply list_elem_of_fmap in He as (f & -> & Hf).
        destruct (mapM_result_Ok_elem _ _ _ f Hm Hf) as (y & Hy & Hin).
        unfold skyobject.resolve_field in Hy. rewrite Hc in Hy.
        injection Hy as <-. exact (Hrfs _ Hin).
      * apply Hnew'; [exact Ha|clear -HaF Hne; set_solver].
    + destruct Hloop as [Hex|Hno].
      * split; [exact Hex|discriminate].
      * apply Hbad; [reflexivity|]. intros o'. cbn.
        destruct (mapM_result resolve_field fields) as [rfs| |] eqn:Hm;
          cbn; try discriminate.
        exfalso. exact (Hno rfs eq_refl).
  - (* a reference *)
    destruct ((typ =? ReferenceTypeSingle) || (typ =? ReferenceTypeSlice))
      eqn:Hty.
    + destruct elem as [e|].
      2:{ injection Hrun as <-. apply Hbad; [reflexivity|].
          intros o'. cbn. rewrite Hty. discriminate. }
      rewrite (resolve_reference_names_agree h e Hn) in Hrun.
      destruct (resolve_reference rg h0 e) as [a| |] eqn:Hres.
      * eapply (Hsingle e a (referenceObj kind typ (Some a)));
          [cbn; rewrite Hty; reflexivity|exact Hres
          |cbn; rewrite Hty, Hres; reflexivity|reflexivity|exact Hrun].
      * destruct (resolve_reference_Ok_or_Panic h0 e) as [[a Ha]|Hp]; congruence.
      * injection Hrun as <-. apply Hbad; [reflexivity|].
        intros o'. cbn. rewrite Hty, Hres. discriminate.
    + destruct (typ =? ReferenceTypeDynamic) eqn:Hdyn; injection Hrun as <-.
      * apply Hleaf; cbn; rewrite Hty; [reflexivity|].
        rewrite Hdyn. reflexivity.
      * apply Hbad; [reflexivity|]. intros o'. cbn. rewrite Hty, Hdyn.
        discriminate.
Qed.

(** the entries of the registry, one fill after the other *)
Lemma fill_loop_spec (fuel : nat) (entries : list (string * addr)) :
  forall h F res,
    fill_loop fuel rg entries (h, F) = Some res ->
    names_agree h -> untouched h F ->
    (forall a, a ∈ entries.*2 -> R a) ->
    fill_post h F res
    /\ (forall h' F', res = Ok (h', F') -> forall a, a ∈ entries.*2 -> a ∈ F').
Proof.
  induction entries as [|[name sch] entries IH];
    intros h F res Hrun Hn Hu HR.
  - cbn in Hrun. injection Hrun as <-. split.
    + cbn. split; [reflexivity|]. split; [exact Hn|]. split; [exact Hu|].
      split; [reflexivity|]. intros a Ha Ha'. contradiction.
    + intros h' F' _ a Ha. inversion Ha.
  - cbn [fill_loop] in Hrun.
    destruct (fillSchema fuel rg sch (h, F)) as [res1|] eqn:Hfill;
      [|discriminate].
    assert (HRs : R sch) by (apply HR; cbn; left).
    destruct (fillSchema_spec fuel sch h F res1 Hfill Hn Hu HRs)
      as [Hpost1 Hin1].
    destruct res1 as [[h1 F1]| |].
    2:{ injection Hrun as <-. contradiction. }
    2:{ injection Hrun as <-. split; [exact Hpost1|discriminate]. }
    destruct Hpost1 as (HF1 & Hn1 & Hu1 & Hsame1 & Hnew1).
    specialize (Hin1 h1 F1 eq_refl).
    destruct (IH h1 F1 res Hrun Hn1 Hu1) as [Hpost2 Hin2].
    { intros a Ha. apply HR. cbn. right. exact Ha. }
    destruct res as [[h2 F2]| |]; [|contradiction|].
    + destruct Hpost2 as (HF2 & Hn2 & Hu2 & Hsame2 & Hnew2).
      split.
      * cbn. split; [set_solver|]. split; [exact Hn2|]. split; [exact Hu2|].
        split.
        { intros a Ha. rewrite Hsame2 by set_solver. apply Hsame1, Ha. }
        intros a Ha HaF. destruct (decide (a ∈ F1)) as [Ha1|Ha1].
        -- destruct (Hnew1 a Ha1 HaF) as [Hres HRa]. split; [|exact HRa].
           apply (resolved_stable h1 h2 F1 F2 a Hres); [|exact HF2].
           apply Hsame2, Ha1.
        -- apply Hnew2; assumption.
      * intros h' F' [= <- <-] a Ha. cbn in Ha.
        apply elem_of_cons in Ha as [->|Ha]; [set_solver|].
        exact (Hin2 h2 F2 eq_refl a Ha).
    + split; [exact Hpost2|discriminate].
Qed.

End Fill.

(** *** The outcome does not depend on the order of the fills *)

Lemma reach_closed (roots : list addr) : closed rg h0 (reach rg h0 roots).
Proof.
  intros a o e c Ha H0 He Hc S HS Hroots.
  exact (HS a o e c (Ha S HS Hroots) H0 He Hc).
Qed.

Lemma reach_roots (roots : list addr) a : a ∈ roots -> reach rg h0 roots a.
Proof. intros Ha S _ Hroots. apply Hroots, Ha. Qed.

Lemma names_agree_refl : names_agree h0.
Proof. intros a. reflexivity. Qed.

Lemma untouched_refl : untouched h0 ∅.
Proof. intros a _. reflexivity. Qed.

(** a fill of the whole registry that succeeds has visited exactly the
    schemas that the entries reach, and has resolved each of them *)
Lemma fill_loop_Ok (fuel : nat) (entries : list (string * addr)) h F :
  fill_loop fuel rg entries (h0, ∅) = Some (Ok (h, F)) ->
  (forall a, a ∈ F <-> reach rg h0 entries.*2 a)
  /\ (forall a, a ∈ F -> resolved h F a)
  /\ untouched h F.
Proof.
  intros Hrun.
  destruct (fill_loop_spec (reach rg h0 entries.*2) (reach_closed _)
              fuel entries h0 ∅ _ Hrun names_agree_refl untouched_refl)
    as [Hpost Hin].
  { intros a. apply reach_roots. }
  destruct Hpost as (_ & _ & Hu & _ & Hnew).
  specialize (Hin h F eq_refl).
  assert (Hres : forall a, a ∈ F -> resolved h F a).
  { intros a Ha. exact (proj1 (Hnew a Ha (not_elem_of_empty a))). }
  split; [|split; [exact Hres|exact Hu]].
  intros a. split.
  - intros Ha. exact (proj2 (Hnew a Ha (not_elem_of_empty a))).
  - intros Ha. apply (Ha (fun a => a ∈ F)); [|exact Hin].
    intros b o e c Hb H0 He Hc.
    destruct (Hres b Hb) as (o1 & o' & H0' & _ & _ & Hch).
    rewrite H0 in H0'. injection H0' as <-. exact (Hch e c He Hc).
Qed.

Lemma fill_loop_names_agree (fuel : nat) (entries : list (string * addr))
    h F :
  fill_loop fuel rg entries (h0, ∅) = Some (Ok (h, F)) -> names_agree h.
Proof.
  intros Hrun.
  destruct (fill_loop_spec (fun _ => True)
              ltac:(intros ? ? ? ? ? ? ? ?; exact I)
              fuel entries h0 ∅ _ Hrun names_agree_refl untouched_refl)
    as [Hpost _].
  { intros a _. exact I. }
  exact (proj1 (proj2 Hpost)).
Qed.

(** ... and one that panics has met a schema, among those, that cannot be
    resolved *)
Lemma fill_loop_Panic (fuel : nat) (entries : list (string * addr)) :
  fill_loop fuel rg entries (h0, ∅) = Some Panic ->
  exists a, reach rg h0 entries.*2 a /\ unresolvable a.
Proof.
  intros Hrun.
  destruct (fill_loop_spec (reach rg h0 entries.*2) (reach_closed _)
              fuel entries h0 ∅ _ Hrun names_agree_refl untouched_refl)
    as [Hpost _].
  { intros a. apply reach_roots. }
  exact Hpost.
Qed.

Lemma fill_loop_no_Err (fuel : nat) (entries : list (string * addr)) err :
  fill_loop fuel rg entries (h0, ∅) <> Some (Err err).
Proof.
  intros Hrun.
  destruct (fill_loop_spec (fun _ => True)
              ltac:(intros ? ? ? ? ? ? ? ?; exact I)
              fuel entries h0 ∅ _ Hrun names_agree_refl untouched_refl)
    as [Hpost _].
  { intros a _. exact I. }
  exact Hpost.
Qed.

Lemma reach_same_roots (roots roots' : list addr) a :
  (forall r, r ∈ roots <-> r ∈ roots') ->
  reach rg h0 roots a -> reach rg h0 roots' a.
Proof.
  intros Heq Ha S HS Hroots. apply Ha; [exact HS|].
  intros r Hr. apply Hroots, Heq, Hr.
Qed.

(** The store after the fill is the same whatever the order in which the
    entries of the registry are filled, and whatever the fuel, when it is
    enough; and a fill that panics in one order panics in every order. *)
Lemma fill_loop_unique (fuel fuel' : nat)
    (entries entries' : list (string * addr)) res res' :
  (forall a, a ∈ entries.*2 <-> a ∈ entries'.*2) ->
  fill_loop fuel rg entries (h0, ∅) = Some res ->
  fill_loop fuel' rg entries' (h0, ∅) = Some res' ->
  heap_of res = heap_of res'.
Proof.
  intros Heq Hrun Hrun'.
  assert (Hclash : forall fuel1 fuel2 es1 es2 h F,
            (forall a, a ∈ es1.*2 <-> a ∈ es2.*2) ->
            fill_loop fuel1 rg es1 (h0, ∅) = Some (Ok (h, F)) ->
            fill_loop fuel2 rg es2 (h0, ∅) = Some Panic -> False).
  { intros fuel1 fuel2 es1 es2 h F Hes H1 H2.
    apply fill_loop_Ok in H1 as (HF & Hres & _).
    apply fill_loop_Panic in H2 as (a & Ha & Hbad).
    apply (reach_same_roots es2.*2 es1.*2) in Ha;
      [|intros r; symmetry; apply Hes].
    apply HF in Ha. destruct (Hres a Ha) as (o & o' & H0 & Hro & _).
    exact (Hbad o H0 o' Hro). }
  destruct res as [[h F]|err|]; [| |].
  2:{ exfalso. exact (fill_loop_no_Err _ _ _ Hrun). }
  - destruct res' as [[h' F']|err|].
    2:{ exfalso. exact (fill_loop_no_Err _ _ _ Hrun'). }
    2:{ exfalso. exact (Hclash _ _ _ _ _ _ Heq Hrun Hrun'). }
    cbn. f_equal.
    apply fill_loop_Ok in Hrun as (HF & Hres & Hu).
    apply fill_loop_Ok in Hrun' as (HF' & Hres' & Hu').
    assert (HFF : forall a, a ∈ F <-> a ∈ F').
    { intros a. rewrite HF, HF'. split; apply reach_same_roots;
        [exact Heq|intros r; symmetry; apply Heq]. }
    apply map_eq. intros a. destruct (decide (a ∈ F)) as [Ha|Ha].
    + destruct (Hres a Ha) as (o & o1 & H0 & Hro & Hh & _).
      destruct (Hres' a (proj1 (HFF a) Ha)) as (o' & o2 & H0' & Hro' & Hh' & _).
      rewrite H0 in H0'. injection H0' as <-. congruence.
    + rewrite (Hu a Ha). symmetry. apply Hu'. rewrite <- HFF. exact Ha.
  - destruct res' as [[h' F']|err|]; [| |reflexivity].
    + exfalso. apply (Hclash _ _ entries' entries _ _) with (1 := fun a => iff_sym (Heq a)) (2 := Hrun') (3 := Hrun).
    + exfalso. exact (fill_loop_no_Err _ _ _ Hrun').
Qed.

End Resolution.

(** ** The order of registration, and the order of the loops over maps *)

Section Order.

Import skyobject.

Lemma result_bind_assoc {A B C : Type} (r : result A)
    (f : A -> result B) (g : B -> result C) :
  (r ≫= f) ≫= g = r ≫= (fun x => f x ≫= g).
Proof. destruct r; reflexivity. Qed.

(** *** The order of the calls of [Register] *)

Lemma Register_cases (t : Reg) (name : string) (val : reflect.any) :
  Register t name val = Panic
  \/ (exists typ, typeOf val = Ok typ
        /\ name <> EmptyString /\ (~ isReferenceType typ)
        /\ (name ∉ names_of (Reg_tn t))
        /\ Register t name val
           = Ok {| Reg_tn := <[typ := name]> (Reg_tn t) |}).
Proof.
  destruct (String.eqb_spec name EmptyString) as [->|Hname].
  { left. apply Register_Panic_iff. tauto. }
  destruct (typeOf_cases val) as [Hty|[typ Hty]].
  { left. apply Register_Panic_iff. tauto. }
  destruct (isReferenceType_dec typ) as [Href|Href].
  { left. apply Register_Panic_iff. eauto 6. }
  destruct (decide (name ∈ names_of (Reg_tn t))) as [Hin|Hnew].
  { left. apply Register_Panic_iff. tauto. }
  right. exists typ. repeat (split; [assumption|]).
  apply Register_Ok; assumption.
Qed.

Lemma elem_of_names_of_insert (m : gmap reflect.Type_ string)
    (typ : reflect.Type_) (name name' : string) :
  m !! typ = None ->
  name' ∈ names_of (<[typ := name]> m) <-> name' = name \/ name' ∈ names_of m.
Proof.
  intros Hm. unfold names_of.
  rewrite (map_to_list_insert m typ name Hm). cbn. apply elem_of_cons.
Qed.

Lemma NoDup_names_of_insert (m : gmap reflect.Type_ string)
    (typ : reflect.Type_) (name : string) :
  name ∉ names_of m -> NoDup (names_of m) ->
  NoDup (names_of (<[typ := name]> m)).
Proof.
  unfold names_of. intros Hnew Hnd.
  destruct (m !! typ) as [old|] eqn:Hm.
  - rewrite <- (insert_delete_id m typ old Hm) in Hnew, Hnd.
    rewrite <- insert_delete_eq.
    rewrite map_to_list_insert in Hnew, Hnd |- * by apply lookup_delete_eq.
    cbn in *. apply list.NoDup_cons in Hnd as [_ Hnd].
    apply list.NoDup_cons. split; [|exact Hnd].
    intros Hin. apply Hnew. right. exact Hin.
  - rewrite map_to_list_insert by exact Hm. cbn.
    apply list.NoDup_cons. split; assumption.
Qed.

(** registering two types that are not the same, and not yet in the table:
    either order does *)
Lemma Register_swap (t : Reg) (name1 name2 : string)
    (val1 val2 : reflect.any) :
  typeOf val1 <> typeOf val2 ->
  (forall typ, typeOf val1 = Ok typ -> Reg_tn t !! typ = None) ->
  (forall typ, typeOf val2 = Ok typ -> Reg_tn t !! typ = None) ->
  (t1 ← Register t name1 val1; Register t1 name2 val2)
  = (t2 ← Register t name2 val2; Register t2 name1 val1).
Proof.
  intros Hne Hnew1 Hnew2.
  destruct (Register_cases t name1 val1)
    as [P1|(typ1 & Hty1 & Hn1 & Hr1 & Hin1 & E1)];
    destruct (Register_cases t name2 val2)
      as [P2|(typ2 & Hty2 & Hn2 & Hr2 & Hin2 & E2)].
  - rewrite P1, P2. reflexivity.
  - rewrite P1, E2. cbn [mbind result_bind]. symmetry.
    apply Register_Panic_iff. apply Register_Panic_iff in P1.
    destruct P1 as [?|[?|[?|Hin]]]; [tauto|tauto|tauto|].
    right; right; right. cbn [Reg_tn].
    apply elem_of_names_of_insert; [exact (Hnew2 typ2 Hty2)|tauto].
  - rewrite E1, P2. cbn [mbind result_bind].
    apply Register_Panic_iff. apply Register_Panic_iff in P2.
    destruct P2 as [?|[?|[?|Hin]]]; [tauto|tauto|tauto|].
    right; right; right. cbn [Reg_tn].
    apply elem_of_names_of_insert; [exact (Hnew1 typ1 Hty1)|tauto].
  - rewrite E1, E2. cbn [mbind result_bind].
    assert (Htt : typ1 <> typ2) by congruence.
    destruct (decide (name1 = name2)) as [->|Hnn].
    + transitivity (@Panic Reg); [|symmetry]; apply Register_Panic_iff;
        right; right; right; cbn [Reg_tn]; apply elem_of_names_of_insert;
        auto.
    + rewrite (Register_Ok _ name2 val2 typ2), (Register_Ok _ name1 val1 typ1);
        try assumption; cbn [Reg_tn].
      * rewrite (insert_insert_ne (Reg_tn t) typ2 typ1) by congruence.
        reflexivity.
      * rewrite elem_of_names_of_insert by auto. intros [?|?]; congruence.
      * rewrite elem_of_names_of_insert by auto. intros [?|?]; congruence.
Qed.

Lemma Register_no_Err (t : Reg) (name : string) (val : reflect.any)
    (err : error) :
  Register t name val <> Err err.
Proof.
  destruct (Register_cases t name val) as [->|(typ & _ & _ & _ & _ & ->)];
    discriminate.
Qed.

Lemma declare_no_Err (decls : list (string * reflect.any)) (t : Reg)
    (err : error) :
  declare decls t <> Err err.
Proof.
  revert t. induction decls as [|[name val] decls IH]; intros t;
    [discriminate|].
  cbn [declare].
  destruct (Register t name val) as [t'|err'|] eqn:E; cbn [mbind result_bind].
  - apply IH.
  - exfalso. exact (Register_no_Err _ _ _ _ E).
  - discriminate.
Qed.

(** the names of a table that [Register] built are pairwise distinct *)
Lemma declare_NoDup_names (decls : list (string * reflect.any)) (t rg : Reg) :
  declare decls t = Ok rg -> NoDup (names_of (Reg_tn t)) ->
  NoDup (names_of (Reg_tn rg)).
Proof.
  revert t. induction decls as [|[name val] decls IH]; intros t Hd Hnd.
  - injection Hd as <-. exact Hnd.
  - cbn [declare] in Hd.
    destruct (Register_cases t name val)
      as [P|(typ & Hty & Hn & Hr & Hin & E)].
    + rewrite P in Hd. discriminate.
    + rewrite E in Hd. cbn [mbind result_bind] in Hd.
      apply (IH _ Hd). cbn [Reg_tn].
      apply NoDup_names_of_insert; assumption.
Qed.

(** Declarations of pairwise distinct types can be registered in any
    order: the table is the same, or [Register] panics in both. *)
Lemma declare_Permutation (decls decls' : list (string * reflect.any)) :
  decls ≡ₚ decls' ->
  forall t : Reg,
    NoDup ((fun d => typeOf d.2) <$> decls) ->
    (forall d typ, d ∈ decls -> typeOf d.2 = Ok typ ->
       Reg_tn t !! typ = None) ->
    declare decls t = declare decls' t.
Proof.
  induction 1 as [|[name val] l l' Hp IH|[n1 v1] [n2 v2] l|l l' l'' Hp1 IH1 Hp2 IH2];
    intros t Hnd Hnew.
  - reflexivity.
  - cbn [declare].
    destruct (Register_cases t name val)
      as [->|(typ & Hty & Hn & Hr & Hin & ->)]; [reflexivity|].
    cbn [mbind result_bind]. cbn in Hnd. apply list.NoDup_cons in Hnd as [Hhd Hnd].
    apply IH; [exact Hnd|]. intros d typ' Hd Htyp'. cbn [Reg_tn].
    rewrite lookup_insert_ne.
    + apply (Hnew d); [right; exact Hd|exact Htyp'].
    + intros <-. apply Hhd. apply list_elem_of_fmap. exists d.
      split; [cbn; congruence|exact Hd].
  - cbn [declare]. rewrite <- !result_bind_assoc.
    cbn in Hnd. apply list.NoDup_cons in Hnd as [Hhd Hnd].
    rewrite (Register_swap t n2 n1 v2 v1); [reflexivity|..].
    + intros Heq. apply Hhd. rewrite Heq. left.
    + intros typ. apply (Hnew (n2, v2)). left.
    + intros typ. apply (Hnew (n1, v1)). right; left.
  - rewrite IH1 by assumption. apply IH2.
    + rewrite <- Hp1. exact Hnd.
    + intros d typ Hd. apply Hnew. rewrite Hp1. exact Hd.
Qed.

(** *** The order of the loop of [register] *)

Lemma range_entries {K V : Type} `{Countable K} (m : gmap K V)
    (l : list (K * V)) :
  (forall k v, (k, v) ∈ l -> m !! k = Some v) -> range m l.*1 = l.
Proof.
  unfold range. induction l as [|[k v] l IH]; intros Hl; [reflexivity|].
  cbn. rewrite (Hl k v) by left. cbn. f_equal.
  apply IH. intros k' v' Hin. apply Hl. right. exact Hin.
Qed.

Lemma range_valid_order {K V : Type} `{Countable K} (m : gmap K V)
    (order : list K) :
  valid_order m order -> range m order ≡ₚ map_to_list m.
Proof.
  unfold valid_order. intros Hv.
  assert (E : range m (map_to_list m).*1 = map_to_list m).
  { apply range_entries. intros k v. apply elem_of_map_to_list. }
  rewrite <- E. unfold range. rewrite Hv. reflexivity.
Qed.

Lemma range_fst {K V : Type} `{Countable K} (m : gmap K V)
    (order : list K) :
  NoDup order -> NoDup (range m order).*1.
Proof.
  unfold range. induction order as [|k order IH]; intros Hnd; [constructor|].
  apply list.NoDup_cons in Hnd as [Hk Hnd]. cbn.
  destruct (m !! k) as [v|]; cbn; [|exact (IH Hnd)].
  apply list.NoDup_cons. split; [|exact (IH Hnd)].
  intros Hin. apply Hk.
  apply list_elem_of_fmap in Hin as ([k' v'] & -> & Hin).
  apply list_elem_of_omap in Hin as (k'' & Hk'' & Heq).
  destruct (m !! k''); cbn in Heq; [|discriminate].
  injection Heq as <- <-. exact Hk''.
Qed.

Lemma Type_nested_ind (P : reflect.Type_ -> Prop) :
  (forall kind name, P (reflect.TBasic kind name)) ->
  (forall elem, P elem -> P (reflect.TPtr elem)) ->
  (forall name elem, P elem -> P (reflect.TSlice name elem)) ->
  (forall name l elem, P elem -> P (reflect.TArray name l elem)) ->
  (forall name fields,
     Forall (fun sf => match sf with
                       | reflect.Build_StructField _ _ _ t => P t
                       end) fields ->
     P (reflect.TStruct name fields)) ->
  forall typ, P typ.
Proof.
  intros HB HP HS HA HT. fix IH 1.
  intros [kind name|elem|name elem|name l elem|name fields].
  - apply HB.
  - apply HP, IH.
  - apply HS, IH.
  - apply HA, IH.
  - apply HT. induction fields as [|[sfn sft sfp t] fields IHf]; constructor;
      [apply IH|exact IHf].
Qed.

Lemma mustTagSchemaName_no_Err (tag : reflect.StructTag) (err : error) :
  mustTagSchemaName tag <> Err err.
Proof. unfold mustTagSchemaName. case_match; discriminate. Qed.

Lemma getSchema_no_Err (r : Reg) (typ : reflect.Type_) :
  forall err : error, getSchema r typ <> Err err.
Proof.
  induction typ as [kind name|elem IH|name elem IH|name l elem IH|name fields IH]
    using Type_nested_ind; intros err.
  - cbn [getSchema]. repeat case_match; discriminate.
  - cbn [getSchema]. repeat case_match; discriminate.
  - cbn [getSchema].
    destruct (getSchema r elem) as [el|err'|]; cbn [mbind result_bind];
      [|exfalso; exact (IH err' eq_refl)|];
      repeat case_match; discriminate.
  - cbn [getSchema].
    destruct (getSchema r elem) as [el|err'|]; cbn [mbind result_bind];
      [|exfalso; exact (IH err' eq_refl)|];
      repeat case_match; discriminate.
  - destruct (decide (reflect.TStruct name fields = typeOfDynamic)) as [E|E].
    { rewrite E. discriminate. }
    rewrite (getSchema_TStruct r name fields E).
    assert (Hloop : forall err', getFields r fields <> Err err').
    { clear E. induction IH as [|[sfn sft sfp t] fields IHt _ IHf];
        intros err'; [discriminate|].
      cbn [getFields]. case_match; [apply IHf|].
      assert (Hf : forall e, getField r (reflect.Build_StructField sfn sft sfp t)
                             <> Err e).
      { intros e. unfold getField.
        pose proof (mustTagSchemaName_no_Err sft) as Htag.
        destruct (mustTagSchemaName sft) as [tagRef|e'|];
          [| exfalso; exact (Htag e' eq_refl)|];
          destruct (getSchema r t) as [s|e'|];
          try (exfalso; exact (IHt e' eq_refl));
          cbn [mbind result_bind]; repeat case_match; discriminate. }
      destruct (getField r _) as [f|e|]; cbn [mbind result_bind];
        [|exfalso; exact (Hf e eq_refl)|discriminate].
      destruct (getFields r fields) as [fs|e|]; cbn [mbind result_bind];
        [discriminate|exfalso; exact (IHf e eq_refl)|discriminate]. }
    destruct (getFields r fields) as [fs|e|]; cbn [mbind result_bind];
      [discriminate|exfalso; exact (Hloop e eq_refl)|discriminate].
Qed.

(** a schema is stored at addresses of its own root, so that the stores
    of two entries do not meet *)
Lemma store_commute (g : heap -> heap) (root : string * nat) :
  (forall k v h, k.1 = root -> g (<[k := v]> h) = <[k := v]> (g h)) ->
  forall (s : Schema) (path : list nat) (h : heap),
    store root path s (g h) = g (store root path s h).
Proof.
  intros Hg s.
  induction s as [kind name|name el IH|name l el IH|name fields IH|kind rt el IH]
    using Schema_nested_ind; intros path h; cbn [store].
  - rewrite Hg by reflexivity. reflexivity.
  - rewrite IH, Hg by reflexivity. reflexivity.
  - rewrite IH, Hg by reflexivity. reflexivity.
  - rewrite Hg by reflexivity. f_equal.
    generalize 0%nat. revert h.
    induction IH as [|[fn ft sch] fields IHsch _ IHf]; intros h i;
      [reflexivity|].
    cbn [Field_Schema] in IHsch. rewrite IHsch. apply IHf.
  - destruct el as [e|].
    + rewrite (IH e eq_refl), Hg by reflexivity. reflexivity.
    + rewrite Hg by reflexivity. reflexivity.
Qed.

Lemma store_insert_ne (root : string * nat) (k : addr) (v : object)
    (s : Schema) (path : list nat) (h : heap) :
  k.1 <> root ->
  store root path s (<[k := v]> h) = <[k := v]> (store root path s h).
Proof.
  intros Hk. apply (store_commute (fun h => <[k := v]> h)).
  intros k' v' h' Hk'. apply insert_insert_ne. congruence.
Qed.

Lemma store_store_ne (root root' : string * nat) (s s' : Schema)
    (path path' : list nat) (h : heap) :
  root <> root' ->
  store root path s (store root' path' s' h)
  = store root' path' s' (store root path s h).
Proof.
  intros Hne. apply (store_commute (store root' path' s')).
  intros k v h' Hk. apply store_insert_ne. congruence.
Qed.

(** one turn of the loop of [register] *)
Lemma register_loop_swap (rg : Reg) (typ1 typ2 : reflect.Type_)
    (name1 name2 : string) (entries : list (reflect.Type_ * string))
    (r : Registry) :
  name1 <> name2 ->
  register_loop rg ((typ1, name1) :: (typ2, name2) :: entries) r
  = register_loop rg ((typ2, name2) :: (typ1, name1) :: entries) r.
Proof.
  intros Hne. cbn [register_loop].
  pose proof (getSchema_no_Err rg typ1) as He1.
  pose proof (getSchema_no_Err rg typ2) as He2.
  destruct (getSchema rg typ1) as [s1|e|]; [|exfalso; exact (He1 e eq_refl)|];
    (destruct (getSchema rg typ2) as [s2|e|];
     [|exfalso; exact (He2 e eq_refl)|]);
    cbn [mbind result_bind].
  - destruct (IsRegistered s1); destruct (IsRegistered s2);
      cbn [negb mbind result_bind]; try reflexivity.
    cbn [done ref reg srf nt tn mem]. f_equal. f_equal.
    + apply insert_insert_ne. congruence.
    + apply insert_insert_ne. congruence.
    + apply store_store_ne. congruence.
  - destruct (negb (IsRegistered s1)); reflexivity.
  - destruct (negb (IsRegistered s2)); reflexivity.
  - reflexivity.
Qed.

Lemma register_loop_Permutation (rg : Reg)
    (entries entries' : list (reflect.Type_ * string)) :
  entries ≡ₚ entries' -> NoDup entries.*2 ->
  forall r, register_loop rg entries r = register_loop rg entries' r.
Proof.
  induction 1 as [|[typ name] l l' Hp IH|[typ1 name1] [typ2 name2] l
                 |l l' l'' Hp1 IH1 Hp2 IH2]; intros Hnd r.
  - reflexivity.
  - cbn [register_loop]. cbn in Hnd. apply list.NoDup_cons in Hnd as [_ Hnd].
    destruct (getSchema rg typ) as [s| |]; cbn [mbind result_bind];
      try reflexivity.
    destruct (negb (IsRegistered s)); [reflexivity|]. apply IH, Hnd.
  - apply register_loop_swap. cbn in Hnd.
    apply list.NoDup_cons in Hnd as [Hhd _]. intros ->. apply Hhd. left.
  - rewrite IH1 by exact Hnd. apply IH2. rewrite <- Hp1. exact Hnd.
Qed.

(** [register] gives one registry, whatever the order of its loop over the
    table of the [Reg] *)
Lemma register_order (r : Registry) (rg : Reg)
    (order order' : list reflect.Type_) :
  NoDup (names_of (Reg_tn rg)) ->
  valid_order (Reg_tn rg) order -> valid_order (Reg_tn rg) order' ->
  register r rg order = register r rg order'.
Proof.
  intros Hnd Hv Hv'. unfold register.
  apply register_loop_Permutation.
  - rewrite (range_valid_order _ _ Hv), (range_valid_order _ _ Hv').
    reflexivity.
  - rewrite (range_valid_order _ _ Hv). exact Hnd.
Qed.

(** *** The order of the loop of [Encode] *)

Lemma result_rel_trans {A : Type} (R : A -> A -> Prop) (r1 r2 r3 : result A) :
  (forall a b c, R a b -> R b c -> R a c) ->
  result_rel R r1 r2 -> result_rel R r2 r3 -> result_rel R r1 r3.
Proof.
  intros HR. destruct r1, r2, r3; cbn; try tauto; try congruence.
  apply HR.
Qed.

Lemma mapM_result_no_Err {A B : Type} (f : A -> result B) (l : list A) :
  (forall x e, f x <> Err e) -> forall e, mapM_result f l <> Err e.
Proof.
  intros Hf. induction l as [|x l IH]; intros e; [discriminate|].
  cbn [mapM_result].
  destruct (f x) as [y|e'|] eqn:Ex; cbn [mbind result_bind];
    [|exfalso; exact (Hf _ _ Ex)|discriminate].
  destruct (mapM_result f l) as [ys|e'|]; cbn [mbind result_bind];
    [discriminate|exfalso; exact (IH e' eq_refl)|discriminate].
Qed.

Lemma mapM_result_Permutation {A B : Type} (f : A -> result B)
    (l l' : list A) :
  (forall x e, f x <> Err e) -> l ≡ₚ l' ->
  result_rel Permutation (mapM_result f l) (mapM_result f l').
Proof.
  intros Hf.
  induction 1 as [|x l l' Hp IH|x y l|l l' l'' Hp1 IH1 Hp2 IH2].
  - cbn. reflexivity.
  - cbn [mapM_result].
    destruct (f x) as [y|e|] eqn:Ex; cbn [mbind result_bind];
      [|exfalso; exact (Hf _ _ Ex)|exact I].
    destruct (mapM_result f l) as [ys|e|],
             (mapM_result f l') as [ys'|e'|]; cbn in IH |- *;
      try contradiction; try exact I; try congruence.
    constructor. exact IH.
  - cbn [mapM_result].
    destruct (f x) as [x'|e|] eqn:Ex; [|exfalso; exact (Hf _ _ Ex)|];
      (destruct (f y) as [y'|e|] eqn:Ey; [|exfalso; exact (Hf _ _ Ey)|]);
      cbn [mbind result_bind]; try exact I.
    + pose proof (mapM_result_no_Err f l Hf) as Hl.
      destruct (mapM_result f l) as [ys|e|]; cbn;
        [apply perm_swap|reflexivity|exact I].
  - eapply result_rel_trans; [|exact IH1|exact IH2].
    intros a b c. apply Permutation_trans.
Qed.

Lemma ltb_trans (a b c : string) :
  String.ltb a b = true -> String.ltb b c = true -> String.ltb a c = true.
Proof.
  unfold String.ltb. intros H1 H2.
  destruct (String.compare a b) eqn:E1; try discriminate.
  destruct (String.compare b c) eqn:E2; try discriminate.
  apply (String_as_OT.cmp_lt a b) in E1.
  apply (String_as_OT.cmp_lt b c) in E2.
  pose proof (proj2 (String_as_OT.cmp_lt a c)
                (String_as_OT.lt_trans _ _ _ E1 E2)) as E3.
  unfold String_as_OT.cmp in E3. rewrite E3. reflexivity.
Qed.

Lemma ltb_asym (a b : string) :
  String.ltb a b = true -> String.ltb b a = false.
Proof.
  unfold String.ltb. rewrite (String.compare_antisym b a).
  destruct (String.compare a b); cbn; congruence.
Qed.

Lemma ltb_total (a b : string) :
  a <> b -> String.ltb a b = true \/ String.ltb b a = true.
Proof.
  intros Hne. unfold String.ltb. rewrite (String.compare_antisym b a).
  destruct (String.compare a b) eqn:E; cbn; auto.
  exfalso. apply Hne. apply String.compare_eq_iff, E.
Qed.

Lemma sort_insert_swap_lt (x y : registryEntity) (l : list registryEntity) :
  String.ltb (re_Name x) (re_Name y) = true ->
  sort_insert x (sort_insert y l) = sort_insert y (sort_insert x l).
Proof.
  intros Hxy. pose proof (ltb_asym _ _ Hxy) as Hyx.
  induction l as [|z l IH]; cbn [sort_insert].
  - rewrite Hxy, Hyx. reflexivity.
  - destruct (String.ltb (re_Name y) (re_Name z)) eqn:Hyz.
    + rewrite (ltb_trans _ _ _ Hxy Hyz). cbn [sort_insert].
      rewrite Hxy, Hyx, Hyz. reflexivity.
    + destruct (String.ltb (re_Name x) (re_Name z)) eqn:Hxz;
        cbn [sort_insert]; rewrite ?Hxz, ?Hyx, ?Hyz; [reflexivity|].
      f_equal. exact IH.
Qed.

Lemma sort_insert_swap (x y : registryEntity) (l : list registryEntity) :
  re_Name x <> re_Name y ->
  sort_insert x (sort_insert y l) = sort_insert y (sort_insert x l).
Proof.
  intros Hne. destruct (ltb_total _ _ Hne) as [H|H].
  - apply sort_insert_swap_lt, H.
  - symmetry. apply sort_insert_swap_lt, H.
Qed.

(** entries of pairwise distinct names are sorted to one list, whatever
    the order they come in *)
Lemma sort_Sort_Permutation (l l' : list registryEntity) :
  l ≡ₚ l' -> NoDup (re_Name <$> l) -> sort_Sort l = sort_Sort l'.
Proof.
  induction 1 as [|x l l' Hp IH|x y l|l l' l'' Hp1 IH1 Hp2 IH2]; intros Hnd.
  - reflexivity.
  - cbn in Hnd |- *. apply list.NoDup_cons in Hnd as [_ Hnd].
    rewrite (IH Hnd). reflexivity.
  - cbn in Hnd |- *. apply list.NoDup_cons in Hnd as [Hhd _].
    apply sort_insert_swap. intros Heq. apply Hhd. rewrite Heq. left.
  - rewrite (IH1 Hnd). apply IH2. rewrite <- Hp1. exact Hnd.
Qed.

Lemma Schema_Encode_fuel_no_Err (fuel : nat) (h : heap) :
  forall (s : addr) (e : error), Schema_Encode_fuel fuel h s <> Err e.
Proof.
  induction fuel as [|fuel IH]; intros s e; [discriminate|].
  cbn [Schema_Encode_fuel].
  assert (Helem : forall a e',
            match h !! a with
            | None => Panic
            | Some eo =>
                if IsRegistered_of eo
                then Ok (Serialize_encodedSchema
                           {| es_ReferenceType := ReferenceTypeNone;
                              es_Kind := Kind_of eo;
                              es_Name := list_byte_of_string (Name_of eo);
                              es_Len := 0; es_Fields := []; es_Elem := [] |})
                else Schema_Encode_fuel fuel h a
            end <> Err e').
  { intros a e'. repeat case_match; try discriminate. apply IH. }
  destruct (h !! s) as [[kind name|name elem|name l elem|name fields|kind typ elem]|];
    try discriminate.
  - specialize (Helem elem).
    match type of Helem with
    | forall e', ?t <> _ => destruct t as [el|e'|]
    end; cbn [mbind result_bind];
      [discriminate|exfalso; exact (Helem e' eq_refl)|discriminate].
  - specialize (Helem elem).
    match type of Helem with
    | forall e', ?t <> _ => destruct t as [el|e'|]
    end; cbn [mbind result_bind];
      [discriminate|exfalso; exact (Helem e' eq_refl)|discriminate].
  - match goal with
    | |- (mapM_result ?f fields ≫= _) <> _ =>
        pose proof (mapM_result_no_Err f fields) as Hm;
        destruct (mapM_result f fields) as [fs|e'|]
    end; cbn [mbind result_bind]; try discriminate.
    exfalso. refine (Hm _ e' eq_refl).
    intros [[fname ftag] fsch] e''. specialize (Helem fsch).
    match type of Helem with
    | forall e', ?t <> _ => destruct t as [el|e3|]
    end; cbn [mbind result_bind];
      [discriminate|exfalso; exact (Helem e3 eq_refl)|discriminate].
  - destruct elem as [el|]; [|discriminate].
    specialize (Helem el).
    match type of Helem with
    | forall e', ?t <> _ => destruct t as [b|e'|]
    end; cbn [mbind result_bind];
      [discriminate|exfalso; exact (Helem e' eq_refl)|discriminate].
Qed.

Lemma Schema_Encode_no_Err (h : heap) (s : addr) (e : error) :
  Schema_Encode h s <> Err e.
Proof. apply Schema_Encode_fuel_no_Err. Qed.

Lemma mapM_entities_names (h : heap) (l : list (string * addr))
    (ent : list registryEntity) :
  mapM_result
    (fun '(name, sch) =>
       b ← Schema_Encode h sch;
       Ok {| re_Name := name; re_Schema := b |}) l = Ok ent ->
  re_Name <$> ent = l.*1.
Proof.
  revert ent. induction l as [|[name sch] l IH]; intros ent Hm.
  - injection Hm as <-. reflexivity.
  - cbn [mapM_result] in Hm.
    destruct (Schema_Encode h sch) as [b| |]; cbn [mbind result_bind] in Hm;
      try discriminate.
    destruct (mapM_result _ l) as [ent'| |]; cbn [mbind result_bind] in Hm;
      try discriminate.
    injection Hm as <-. cbn. f_equal. apply IH. reflexivity.
Qed.

Lemma valid_order_NoDup {K V : Type} `{Countable K} (m : gmap K V)
    (order : list K) :
  valid_order m order -> NoDup order.
Proof.
  unfold valid_order. intros ->. apply NoDup_fst_map_to_list.
Qed.

(** [Encode] returns the same bytes for every order of its loop: it sorts
    its entries by their names, and the names are the keys of a map *)
Lemma Registry_Encode_order (r r' : Registry) (order order' : list string) :
  reg r = reg r' -> mem r = mem r' ->
  valid_order (reg r) order -> valid_order (reg r') order' ->
  Registry_Encode r order = Registry_Encode r' order'.
Proof.
  intros Hreg Hmem Hv Hv'. unfold Registry_Encode.
  rewrite <- Hreg, <- Hmem. rewrite <- Hreg in Hv'.
  case_match; [reflexivity|].
  match goal with
  | |- (mapM_result ?f _ ≫= _) = _ => set (entity := f)
  end.
  assert (Hf : forall x e, entity x <> Err e).
  { intros [name sch] e. unfold entity.
    pose proof (Schema_Encode_no_Err (mem r) sch) as He.
    destruct (Schema_Encode (mem r) sch) as [b|e'|]; cbn [mbind result_bind];
      [discriminate|exfalso; exact (He e' eq_refl)|discriminate]. }
  assert (Hp : range (reg r) order ≡ₚ range (reg r) order').
  { rewrite (range_valid_order _ _ Hv), (range_valid_order _ _ Hv').
    reflexivity. }
  pose proof (mapM_result_Permutation entity _ _ Hf Hp) as Hrel.
  destruct (mapM_result entity (range (reg r) order)) as [ent|e|] eqn:E,
           (mapM_result entity (range (reg r) order')) as [ent'|e'|];
    cbn in Hrel; try contradiction; cbn [mbind result_bind];
    [|congruence|reflexivity].
  rewrite (sort_Sort_Permutation ent ent' Hrel); [reflexivity|].
  rewrite (mapM_entities_names _ _ _ E).
  apply range_fst, (valid_order_NoDup _ _ Hv).
Qed.

(** *** The two loops of [finialize] *)

Context (SumSHA256 : list byte -> cipher.SHA256).

Lemma srf_loop_no_Err (h : heap) (entries : list (string * addr)) :
  forall (m : gmap cipher.SHA256 addr) (e : error),
    srf_loop SumSHA256 h entries m <> Err e.
Proof.
  induction entries as [|[name sch] entries IH]; intros m e; [discriminate|].
  cbn [srf_loop]. unfold Schema_Reference.
  pose proof (Schema_Encode_no_Err h sch) as He.
  destruct (Schema_Encode h sch) as [b|e'|]; cbn [mbind result_bind];
    [apply IH|exfalso; exact (He e' eq_refl)|discriminate].
Qed.

Lemma srf_loop_Panic_iff (h : heap) (entries : list (string * addr)) :
  forall m : gmap cipher.SHA256 addr,
    srf_loop SumSHA256 h entries m = Panic
    <-> Exists (fun e => Schema_Encode h e.2 = Panic) entries.
Proof.
  induction entries as [|[name sch] entries IH]; intros m.
  - split; [discriminate|]. intros H. inversion H.
  - cbn [srf_loop]. unfold Schema_Reference. rewrite Exists_cons. cbn [snd].
    pose proof (Schema_Encode_no_Err h sch) as He.
    destruct (Schema_Encode h sch) as [b|e'|]; cbn [mbind result_bind].
    + rewrite IH. split; [tauto|]. intros [?|?]; [discriminate|assumption].
    + exfalso. exact (He e' eq_refl).
    + tauto.
Qed.

(** Whatever the orders of the three loops of [finialize], it panics or it
    returns a registry with one table of names, one store and one
    identifier. *)
Lemma finialize_order (r : Registry) (o o' : orders) :
  valid_order (reg r) (order_fill o) -> valid_order (reg r) (order_srf o) ->
  valid_order (reg r) (order_encode o) ->
  valid_order (reg r) (order_fill o') -> valid_order (reg r) (order_srf o') ->
  valid_order (reg r) (order_encode o') ->
  result_rel (fun r1 r2 => ref r1 = ref r2 /\ reg r1 = reg r2
                           /\ mem r1 = mem r2)
    (finialize SumSHA256 r o) (finialize SumSHA256 r o').
Proof.
  intros Hf Hs He Hf' Hs' He'. unfold finialize, finialize_fuel.
  destruct (fill_loop_progress (S (size (mem r))) (reg r) (mem r))
    with (entries := range (reg r) (order_fill o)) (h := mem r)
         (F := (∅ : gset addr)) as (res & Hres & _);
    [rewrite size_dom; lia|reflexivity|].
  destruct (fill_loop_progress (S (size (mem r))) (reg r) (mem r))
    with (entries := range (reg r) (order_fill o')) (h := mem r)
         (F := (∅ : gset addr)) as (res' & Hres' & _);
    [rewrite size_dom; lia|reflexivity|].
  assert (Hheap : heap_of res = heap_of res').
  { apply (fill_loop_unique (reg r) (mem r) _ _ _ _ _ _) with (2 := Hres) (3 := Hres').
    intros a.
    rewrite (range_valid_order _ _ Hf), (range_valid_order _ _ Hf').
    reflexivity. }
  rewrite Hres, Hres'.
  destruct res as [[h F]|e|]; destruct res' as [[h' F']|e'|];
    cbn in Hheap; try discriminate; try exact I;
    try (exfalso; exact (fill_loop_no_Err _ _ _ _ _ Hres));
    try (exfalso; exact (fill_loop_no_Err _ _ _ _ _ Hres')).
  injection Hheap as <-.
  assert (Hsp : range (reg r) (order_srf o) ≡ₚ range (reg r) (order_srf o')).
  { rewrite (range_valid_order _ _ Hs), (range_valid_order _ _ Hs').
    reflexivity. }
  pose proof (srf_loop_Panic_iff h (range (reg r) (order_srf o)) (srf r))
    as Hp.
  pose proof (srf_loop_Panic_iff h (range (reg r) (order_srf o')) (srf r))
    as Hp'.
  assert (Hex : forall l l' : list (string * addr), l ≡ₚ l' ->
            Exists (fun e => Schema_Encode h e.2 = Panic) l ->
            Exists (fun e => Schema_Encode h e.2 = Panic) l').
  { intros l l' Hll. rewrite !Exists_exists. intros (x & Hx & HP).
    exists x. rewrite <- Hll. auto. }
  pose proof (srf_loop_no_Err h (range (reg r) (order_srf o)) (srf r)) as Hn.
  pose proof (srf_loop_no_Err h (range (reg r) (order_srf o')) (srf r)) as Hn'.
  destruct (srf_loop SumSHA256 h (range (reg r) (order_srf o)) (srf r))
    as [m|e|]; [|exfalso; exact (Hn e eq_refl)|];
    (destruct (srf_loop SumSHA256 h (range (reg r) (order_srf o')) (srf r))
       as [m'|e'|]; [|exfalso; exact (Hn' e' eq_refl)|]);
    cbn [mbind result_bind]; try exact I.
  - match goal with
    | |- result_rel _ (Registry_Encode ?r1 _ ≫= _) (Registry_Encode ?r2 _ ≫= _) =>
        rewrite (Registry_Encode_order r1 r2 (order_encode o) (order_encode o'))
          by (try reflexivity; assumption);
        destruct (Registry_Encode r2 (order_encode o')) as [b|e|]
    end; cbn; auto.
  - exfalso. assert (Hx : @Panic (gmap cipher.SHA256 addr) = Panic)
      by reflexivity.
    apply Hp', (Hex _ _ (Permutation_sym Hsp)), Hp in Hx. discriminate Hx.
  - exfalso. assert (Hx : @Panic (gmap cipher.SHA256 addr) = Panic)
      by reflexivity.
    apply Hp, (Hex _ _ Hsp), Hp' in Hx. discriminate Hx.
Qed.

(** *** Builds *)

Lemma check_orders_sound (cl : Reg -> result Reg) (o : orders)
    (oe : list string) :
  check_orders cl o oe = true -> valid_orders cl o oe.
Proof.
  unfold check_orders. intros Hc rg Hcl. rewrite Hcl in Hc.
  apply andb_prop in Hc as [Hr%bool_decide_eq_true Hc].
  split; [exact Hr|]. intros r Hreg. rewrite Hreg in Hc.
  apply andb_prop in Hc as [Hc Hoe%bool_decide_eq_true].
  apply andb_prop in Hc as [Hc He%bool_decide_eq_true].
  apply andb_prop in Hc as [Hf%bool_decide_eq_true Hs%bool_decide_eq_true].
  tauto.
Qed.

(** two builds from one table of the [Reg]: the orders of the loops do not
    show in what [Encode] and [Reference] return *)
Lemma Encode_Reference_same_Reg (cl cl' : Reg -> result Reg) (o o' : orders)
    (oe oe' : list string) :
  cl newReg = cl' newReg ->
  (forall rg, cl newReg = Ok rg -> NoDup (names_of (Reg_tn rg))) ->
  valid_orders cl o oe -> valid_orders cl' o' oe' ->
  Encode_Reference SumSHA256 cl o oe = Encode_Reference SumSHA256 cl' o' oe'.
Proof.
  intros Hcl Hnd Hv Hv'. unfold Encode_Reference, NewRegistry.
  unfold valid_orders in Hv, Hv'. rewrite <- Hcl in Hv' |- *.
  destruct (cl newReg) as [rg|e|]; cbn [mbind result_bind]; try reflexivity.
  destruct (Hv rg eq_refl) as [Hr Hrest].
  destruct (Hv' rg eq_refl) as [Hr' Hrest'].
  rewrite <- (register_order newRegistry rg _ _ (Hnd rg eq_refl) Hr Hr')
    in Hrest' |- *.
  destruct (register newRegistry rg (order_register o)) as [r|e|];
    cbn [mbind result_bind]; try reflexivity.
  destruct (Hrest r eq_refl) as (Hf & Hs & He & Hoe).
  destruct (Hrest' r eq_refl) as (Hf' & Hs' & He' & Hoe').
  pose proof (finialize_order r o o' Hf Hs He Hf' Hs' He') as Hrel.
  destruct (finialize SumSHA256 r o) as [r1|e|] eqn:E1,
           (finialize SumSHA256 r o') as [r2|e'|] eqn:E2;
    cbn in Hrel; try contradiction; cbn [mbind result_bind];
    [|congruence|reflexivity].
  destruct Hrel as (Href & Hreg & Hmem).
  apply finialize_reg in E1, E2.
  rewrite (Registry_Encode_order r1 r2 oe oe' Hreg Hmem)
    by (rewrite ?E1, ?E2; assumption).
  unfold Registry_Reference. rewrite Href. reflexivity.
Qed.

Lemma declare_names_NoDup (decls : list (string * reflect.any)) (rg : Reg) :
  declare decls newReg = Ok rg -> NoDup (names_of (Reg_tn rg)).
Proof.
  intros Hd. apply (declare_NoDup_names decls newReg rg Hd).
  cbn [Reg_tn newReg]. rewrite names_of_empty. constructor.
Qed.

Lemma range_lookup {K V : Type} `{Countable K} (m : gmap K V)
    (order : list K) (k : K) (v : V) :
  valid_order m order -> m !! k = Some v -> (k, v) ∈ range m order.
Proof.
  intros Hv Hk. rewrite (range_valid_order m order Hv).
  apply elem_of_map_to_list, Hk.
Qed.

(** Declarations whose exemplars have pairwise distinct types can be
    registered in any order, and the loops over the maps of the build can
    run in any order: [Encode] returns the same bytes and [Reference] the
    same identifier (or the build panics in both cases). *)
Theorem Encode_Reference_order_independent
    (decls decls' : list (string * reflect.any)) (o o' : orders)
    (oe oe' : list string) :
  NoDup ((fun d => typeOf d.2) <$> decls) ->
  decls ≡ₚ decls' ->
  valid_orders (declare decls) o oe -> valid_orders (declare decls') o' oe' ->
  Encode_Reference SumSHA256 (declare decls) o oe
  = Encode_Reference SumSHA256 (declare decls') o' oe'.
Proof.
  intros Hnd Hp Hv Hv'.
  apply Encode_Reference_same_Reg; try assumption.
  - apply declare_Permutation; [exact Hp|exact Hnd|].
    intros d typ _ _. apply lookup_empty.
  - apply declare_names_NoDup.
Qed.

(** Two structs that refer to one another, [A] through a reference
    field whose tag names the schema of [B], and [B] through one whose tag
    names the schema of [A]: [finialize] ends within its fuel; when it
    returns a registry, the store of that registry is a fixed point of the
    resolution (a set [F] of schemas, with those of the table of names,
    each one resolved and pointing into [F], and nothing else touched);
    and every build of the two declarations, whatever the orders of its
    loops over the maps, gives one encoding and one identifier. *)
Theorem finialize_mutual_references
    (nameA nameB tA tB : string) (fieldsA fieldsB : list reflect.StructField)
    (refA refB : reflect.StructField) (o o' : orders) (oe oe' : list string) :
  refA ∈ fieldsA -> references refA nameB ->
  refB ∈ fieldsB -> references refB nameA ->
  let cl := declare
              [ (nameA, reflect.value_of (reflect.TStruct tA fieldsA));
                (nameB, reflect.value_of (reflect.TStruct tB fieldsB)) ] in
  valid_orders cl o oe -> valid_orders cl o' oe' ->
  (forall rg r,
     cl newReg = Ok rg ->
     register newRegistry rg (order_register o) = Ok r ->
     exists res,
       finialize_fuel SumSHA256 (S (size (mem r))) r o = Some res
       /\ forall r', res = Ok r' ->
            exists F : gset addr,
              (forall name a, reg r !! name = Some a -> a ∈ F)
              /\ (forall a, a ∈ F -> resolved (reg r) (mem r) (mem r') F a)
              /\ untouched (mem r) (mem r') F)
  /\ Encode_Reference SumSHA256 cl o oe = Encode_Reference SumSHA256 cl o' oe'.
Proof.
  intros _ _ _ _ cl Hv Hv'. split.
  - intros rg r Hcl Hreg.
    destruct (Hv rg Hcl) as [_ Hrest].
    destruct (Hrest r Hreg) as (Hf & _).
    unfold finialize_fuel.
    destruct (fill_loop_progress (S (size (mem r))) (reg r) (mem r))
      with (entries := range (reg r) (order_fill o)) (h := mem r)
           (F := (∅ : gset addr)) as (res & Hres & _);
      [rewrite size_dom; lia|reflexivity|].
    rewrite Hres.
    destruct res as [[h F]|e|]; [|eexists; split; [reflexivity|discriminate]..].
    eexists. split; [reflexivity|].
    intros r' Hr'.
    apply fill_loop_Ok in Hres as (HF & Hres & Hu).
    assert (Hmem : mem r' = h).
    { destruct (srf_loop _ _ _ _) as [m| |]; cbn [mbind result_bind] in Hr';
        try discriminate.
      destruct (Registry_Encode _ _) as [b| |]; cbn [mbind result_bind] in Hr';
        try discriminate.
      injection Hr' as <-. reflexivity. }
    rewrite Hmem. exists F. split; [|split; assumption].
    intros name a Ha. apply HF, reach_roots.
    apply list_elem_of_fmap. exists (name, a). split; [reflexivity|].
    apply range_lookup; assumption.
  - apply Encode_Reference_same_Reg; try assumption; [reflexivity|].
    apply declare_names_NoDup.
Qed.

End Order.


(** *** Concrete builds *)

Section OrderExamples.

Import skyobject.

Ltac solve_valid_orders :=
  apply check_orders_sound; vm_compute; reflexivity.

(** One type declared under two names: the table of the [Reg] is keyed by
    the type, so that the name registered last is the one that stays, and
    the registry, its encoding and its identifier depend on the order of
    the two calls of [Register]. *)
Lemma Encode_depends_on_registration_order :
  decls_second_first ≡ₚ decls_first_second
  /\ valid_orders (declare decls_first_second) orders_twice ["second"%string]
  /\ valid_orders (declare decls_second_first) orders_twice_rev
       ["first"%string]
  /\ Encode_Reference exampleSum (declare decls_first_second) orders_twice
       ["second"%string]
     <> Encode_Reference exampleSum (declare decls_second_first)
          orders_twice_rev ["first"%string].
Proof.
  split; [apply perm_swap|]. split; [solve_valid_orders|].
  split; [solve_valid_orders|].
  vm_compute. discriminate.
Qed.

Lemma NoDup_types_AB : NoDup ((fun d => typeOf d.2) <$> decls_AB).
Proof.
  cbn. apply list.NoDup_cons. split.
  - intros Hin. apply list_elem_of_singleton in Hin. discriminate Hin.
  - apply NoDup_singleton.
Defined.

Lemma Encode_Reference_order_independent_witness :
  Encode_Reference exampleSum (declare decls_AB) orders_AB
    ["b"%string; "a"%string]
  = Encode_Reference exampleSum (declare decls_BA) orders_BA
      ["a"%string; "b"%string].
Proof.
  apply (Encode_Reference_order_independent exampleSum decls_AB decls_BA
           orders_AB orders_BA).
  - exact NoDup_types_AB.
  - apply perm_swap.
  - solve_valid_orders.
  - solve_valid_orders.
Defined.

Lemma finialize_mutual_references_witness :
  (forall rg r,
     declare decls_AB newReg = Ok rg ->
     register newRegistry rg (order_register orders_AB) = Ok r ->
     exists res,
       finialize_fuel exampleSum (S (size (mem r))) r orders_AB = Some res
       /\ forall r', res = Ok r' ->
            exists F : gset addr,
              (forall name a, reg r !! name = Some a -> a ∈ F)
              /\ (forall a, a ∈ F -> resolved (reg r) (mem r) (mem r') F a)
              /\ untouched (mem r) (mem r') F)
  /\ Encode_Reference exampleSum (declare decls_AB) orders_AB
       ["a"%string; "b"%string]
     = Encode_Reference exampleSum (declare decls_AB) orders_BA
         ["b"%string; "a"%string].
Proof.
  apply (finialize_mutual_references exampleSum "a" "b" "A" "B"
           [reflect.Build_StructField "B" (schemaTag "b") "" typeOfRef]
           [reflect.Build_StructField "A" (schemaTag "a") "" typeOfRefs]
           (reflect.Build_StructField "B" (schemaTag "b") "" typeOfRef)
           (reflect.Build_StructField "A" (schemaTag "a") "" typeOfRefs)).
  - left.
  - split; [left; reflexivity|reflexivity].
  - left.
  - split; [right; reflexivity|reflexivity].
  - solve_valid_orders.
  - solve_valid_orders.
Defined.

End OrderExamples.

(** ** A registry that is finalized *)

Section Finalized.

Import skyobject.

Context (SumSHA256 : list byte -> cipher.SHA256).

(** what [finialize] returns, taken apart *)
Lemma finialize_Ok (r r' : Registry) (o : orders) :
  finialize SumSHA256 r o = Ok r' ->
  exists h F m encoded,
    fill_loop (S (size (mem r))) (reg r) (range (reg r) (order_fill o))
      (mem r, ∅) = Some (Ok (h, F))
    /\ srf_loop SumSHA256 h (range (reg r) (order_srf o)) (srf r) = Ok m
    /\ Registry_Encode
         {| done := done r; ref := ref r; reg := reg r; srf := m;
            nt := nt r; tn := tn r; mem := h |} (order_encode o)
       = Ok encoded
    /\ r' = {| done := done r; ref := SumSHA256 encoded; reg := reg r;
               srf := m; nt := nt r; tn := tn r; mem := h |}.
Proof.
  unfold finialize, finialize_fuel. intros Hfin.
  destruct (fill_loop _ _ _ _) as [[[h F]| |]|]; try discriminate.
  destruct (srf_loop _ _ _ _) as [m| |] eqn:Hsrf; cbn [mbind result_bind] in Hfin;
    try discriminate.
  destruct (Registry_Encode _ _) as [encoded| |] eqn:Henc;
    cbn [mbind result_bind] in Hfin; try discriminate.
  injection Hfin as <-. exists h, F, m, encoded. auto.
Qed.

Lemma Registry_Encode_no_Err (r : Registry) (order : list string)
    (e : error) :
  Registry_Encode r order <> Err e.
Proof.
  unfold Registry_Encode. case_match; [discriminate|].
  match goal with
  | |- (mapM_result ?f ?l ≫= _) <> _ =>
      pose proof (mapM_result_no_Err f l) as Hm;
      destruct (mapM_result f l) as [ent|e'|]
  end; cbn [mbind result_bind]; try discriminate.
  exfalso. refine (Hm _ e' eq_refl).
  intros [name sch] e''.
  pose proof (Schema_Encode_no_Err (mem r) sch) as He.
  destruct (Schema_Encode (mem r) sch) as [b|e3|]; cbn [mbind result_bind];
    [discriminate|exfalso; exact (He e3 eq_refl)|discriminate].
Qed.

Lemma finialize_no_Err (r : Registry) (o : orders) (e : error) :
  finialize SumSHA256 r o <> Err e.
Proof.
  unfold finialize, finialize_fuel. intros Hfin.
  destruct (fill_loop _ _ _ (mem r, ∅)) as [[[h F]|e2|]|] eqn:Hfill;
    try discriminate.
  - destruct (srf_loop _ _ _ _) as [m|e2|] eqn:Hsrf;
      cbn [mbind result_bind] in Hfin; try discriminate.
    + destruct (Registry_Encode _ _) as [b|e2|] eqn:Henc;
        cbn [mbind result_bind] in Hfin; try discriminate.
      exact (Registry_Encode_no_Err _ _ _ Henc).
    + exact (srf_loop_no_Err _ _ _ _ _ Hsrf).
  - exact (fill_loop_no_Err _ _ _ _ _ Hfill).
Qed.

(** Whatever the orders of the three loops of [finialize] over the table
    of names, it panics in every order or it returns, in every order, a
    registry with the same identifier, the same table of names and the
    same store of schemas. *)
Theorem finialize_any_order (r : Registry) (o o' : orders) :
  valid_order (reg r) (order_fill o) -> valid_order (reg r) (order_srf o) ->
  valid_order (reg r) (order_encode o) ->
  valid_order (reg r) (order_fill o') -> valid_order (reg r) (order_srf o') ->
  valid_order (reg r) (order_encode o') ->
  match finialize SumSHA256 r o, finialize SumSHA256 r o' with
  | Ok r1, Ok r2 =>
      Registry_Reference r1 = Registry_Reference r2
      /\ reg r1 = reg r2 /\ mem r1 = mem r2
      /\ nt r1 = nt r2 /\ tn r1 = tn r2
  | Panic, Panic => True
  | _, _ => False
  end.
Proof.
  intros Hf Hs He Hf' Hs' He'.
  pose proof (finialize_order SumSHA256 r o o' Hf Hs He Hf' Hs' He') as Hrel.
  destruct (finialize SumSHA256 r o) as [r1|e|] eqn:E1,
           (finialize SumSHA256 r o') as [r2|e'|] eqn:E2;
    cbn in Hrel; try contradiction; try exact I.
  - destruct Hrel as (Href & Hreg & Hmem).
    apply finialize_Ok in E1 as (h1 & F1 & m1 & b1 & _ & _ & _ & ->).
    apply finialize_Ok in E2 as (h2 & F2 & m2 & b2 & _ & _ & _ & ->).
    cbn in *. auto.
  - exact (finialize_no_Err _ _ _ E1).
Qed.

(** [Encode] returns the same bytes in every order of its loop over the
    table of names: the entries are sorted by name before they are
    written. *)
Theorem Registry_Encode_any_order (r : Registry) (order order' : list string) :
  valid_order (reg r) order -> valid_order (reg r) order' ->
  Registry_Encode r order = Registry_Encode r order'.
Proof.
  intros Hv Hv'. apply Registry_Encode_order; auto.
Qed.

(** The store of a registry that [finialize] returns is a fixed point of
    the resolution: there is a set [F] of schemas, with every schema of
    the table of names in it, such that each schema of [F] has its
    pointers resolved (a registered name replaced by the schema that the
    table holds for it) and points into [F], and nothing outside [F] has
    changed. *)
Theorem finialize_resolved (r r' : Registry) (o : orders) :
  valid_order (reg r) (order_fill o) ->
  finialize SumSHA256 r o = Ok r' ->
  exists F : gset addr,
    (forall name a, reg r !! name = Some a -> a ∈ F)
    /\ (forall a, a ∈ F -> resolved (reg r) (mem r) (mem r') F a)
    /\ untouched (mem r) (mem r') F.
Proof.
  intros Hf Hfin.
  apply finialize_Ok in Hfin as (h & F & m & b & Hfill & _ & _ & ->).
  cbn [mem]. apply fill_loop_Ok in Hfill as (HF & Hres & Hu).
  exists F. split; [|split; assumption].
  intros name a Ha. apply HF, reach_roots.
  apply list_elem_of_fmap. exists (name, a). split; [reflexivity|].
  apply range_lookup; assumption.
Qed.

(** The resolution pass of [finialize] panics exactly when a schema that
    the schemas of the table of names come to cannot be resolved: it is
    missing from the store, it holds a placeholder whose name has no
    schema in the table, or it is a reference of an invalid type; in
    every other case the pass returns a store. *)
Theorem fillSchema_panics_iff (r : Registry) (order : list string) :
  (fill_loop (S (size (mem r))) (reg r) (range (reg r) order) (mem r, ∅)
   = Some Panic
   <-> exists a, reach (reg r) (mem r) (range (reg r) order).*2 a
                 /\ unresolvable (reg r) (mem r) a)
  /\ (fill_loop (S (size (mem r))) (reg r) (range (reg r) order) (mem r, ∅)
      = Some Panic
      \/ exists h F,
           fill_loop (S (size (mem r))) (reg r) (range (reg r) order)
             (mem r, ∅) = Some (Ok (h, F))).
Proof.
  destruct (fill_loop_progress (S (size (mem r))) (reg r) (mem r))
    with (entries := range (reg r) order) (h := mem r)
         (F := (∅ : gset addr)) as (res & Hres & _);
    [rewrite size_dom; lia|reflexivity|].
  rewrite Hres. destruct res as [[h F]|e|].
  - split; [|right; eauto]. split; [discriminate|].
    intros (a & Ha & Hbad). exfalso.
    apply fill_loop_Ok in Hres as (HF & Hrs & _).
    apply HF in Ha. destruct (Hrs a Ha) as (o0 & o' & H0 & Hro & _).
    exact (Hbad o0 H0 o' Hro).
  - exfalso. exact (fill_loop_no_Err _ _ _ _ _ Hres).
  - split; [|left; reflexivity]. split; [|reflexivity].
    intros _. exact (fill_loop_Panic _ _ _ _ Hres).
Qed.

(** The identifier of a registry that [finialize] returns is the digest of
    what [Encode] returns for it, in any order of the loop of [Encode]. *)
Theorem Reference_digest_of_Encode (r r' : Registry) (o : orders)
    (oe : list string) :
  valid_order (reg r) (order_encode o) -> valid_order (reg r) oe ->
  finialize SumSHA256 r o = Ok r' ->
  exists b, Registry_Encode r' oe = Ok b
            /\ Registry_Reference r' = SumSHA256 b.
Proof.
  intros He Hoe Hfin.
  apply finialize_Ok in Hfin as (h & F & m & b & _ & _ & Henc & ->).
  exists b. split; [|reflexivity].
  rewrite <- Henc. apply Registry_Encode_order; auto.
Qed.

(** *** The map by [SchemaRef] *)

Lemma srf_loop_keeps (h : heap) (entries : list (string * addr)) :
  forall (m m' : gmap cipher.SHA256 addr) (sr : cipher.SHA256),
    srf_loop SumSHA256 h entries m = Ok m' ->
    (exists a, m !! sr = Some a /\ Schema_Reference SumSHA256 h a = Ok sr) ->
    exists a', m' !! sr = Some a'
               /\ Schema_Reference SumSHA256 h a' = Ok sr.
Proof.
  induction entries as [|[name sch] entries IH]; intros m m' sr Hrun Hm.
  - injection Hrun as <-. exact Hm.
  - cbn [srf_loop] in Hrun.
    destruct (Schema_Reference SumSHA256 h sch) as [sr0| |] eqn:Hsr0;
      cbn [mbind result_bind] in Hrun; try discriminate.
    apply (IH _ _ sr Hrun).
    destruct (decide (sr0 = sr)) as [->|Hne].
    + exists sch. rewrite lookup_insert_eq. auto.
    + rewrite lookup_insert_ne by exact Hne. exact Hm.
Qed.

Lemma srf_loop_finds (h : heap) (entries : list (string * addr)) :
  forall (m m' : gmap cipher.SHA256 addr),
    srf_loop SumSHA256 h entries m = Ok m' ->
    forall a, a ∈ entries.*2 ->
      exists sr a', Schema_Reference SumSHA256 h a = Ok sr
                    /\ m' !! sr = Some a'
                    /\ Schema_Reference SumSHA256 h a' = Ok sr.
Proof.
  induction entries as [|[name sch] entries IH]; intros m m' Hrun a Ha.
  - inversion Ha.
  - cbn [srf_loop] in Hrun.
    destruct (Schema_Reference SumSHA256 h sch) as [sr0| |] eqn:Hsr0;
      cbn [mbind result_bind] in Hrun; try discriminate.
    cbn in Ha. apply elem_of_cons in Ha as [->|Ha].
    + exists sr0.
      destruct (srf_loop_keeps h entries _ m' sr0 Hrun) as (a' & Ha' & Hr').
      { exists sch. rewrite lookup_insert_eq. auto. }
      exists a'. auto.
    + exact (IH _ _ Hrun a Ha).
Qed.

(** In a registry that [finialize] returns, every schema of the table of
    names is found by its reference: [SchemaByReference] of the reference
    of the schema returns a schema that has this reference. *)
Theorem SchemaByReference_Reference (r r' : Registry) (o : orders)
    (name : string) (a : addr) :
  valid_order (reg r) (order_srf o) ->
  finialize SumSHA256 r o = Ok r' ->
  reg r' !! name = Some a ->
  exists sr a',
    Schema_Reference SumSHA256 (mem r') a = Ok sr
    /\ SchemaByReference r' sr = Ok a'
    /\ Schema_Reference SumSHA256 (mem r') a' = Ok sr.
Proof.
  intros Hs Hfin Ha.
  apply finialize_Ok in Hfin as (h & F & m & b & _ & Hsrf & _ & ->).
  cbn [mem reg srf] in *.
  destruct (srf_loop_finds h _ _ _ Hsrf a) as (sr & a' & Hsr & Hm & Hsr').
  { apply list_elem_of_fmap. exists (name, a). split; [reflexivity|].
    apply range_lookup; assumption. }
  exists sr, a'. unfold SchemaByReference. cbn [srf]. rewrite Hm. auto.
Qed.

End Finalized.

(** ** Messages: what [Decode] accepts, and the names of the types *)

Section MessageDecoding.

Context {RootPack : Type}.
Context (serializeRootPack : RootPack -> list byte).
Context (deserializeRootPack : list byte -> result (RootPack * list byte)).

(** the encoder reads a [RootPack] from the bytes that it writes for it,
    and from no others *)
Hypothesis deserializeRootPack_canonical :
  forall (b : list byte) (rp : RootPack) (rest : list byte),
    deserializeRootPack b = Ok (rp, rest) ->
    b = serializeRootPack rp ++ rest.

Let Msg : Type := @node.Msg RootPack.
Let Encode : Msg -> list byte := node.Encode serializeRootPack.
Let Decode : list byte -> result Msg := node.Decode deserializeRootPack.

Lemma read_array_inv (n : nat) :
  forall (p : list byte) (v : vec byte n) (rest : list byte),
    encoder.read_array n p = Ok (v, rest) -> p = vec_to_list v ++ rest.
Proof.
  induction n as [|n IH]; intros p v rest Hr.
  - cbn in Hr. injection Hr as <- <-. reflexivity.
  - cbn [encoder.read_array] in Hr. destruct p as [|b p]; [discriminate|].
    destruct (encoder.read_array n p) as [[v' rest']| |] eqn:E;
      cbn [mbind result_bind] in Hr; try discriminate.
    injection Hr as <- <-. cbn. f_equal. apply IH, E.
Qed.

Lemma read_lbytes_inv (p d rest : list byte) :
  encoder.read_lbytes p = Ok (d, rest) ->
  p = encoder.bytes d ++ rest /\ len d < 2 ^ 32.
Proof.
  unfold encoder.read_lbytes.
  destruct (encoder.read_uint32 p) as [[n rest0]| |] eqn:E;
    cbn [mbind result_bind]; try discriminate.
  apply read_uint32_Ok in E as [-> Hn]. unfold encoder.read_bytes.
  destruct (Z.ltb_spec (len rest0) n) as [|Hlen]; [discriminate|].
  intros [= <- <-].
  assert (Hd : len (take (Z.to_nat n) rest0) = n).
  { unfold len in *. rewrite length_take. lia. }
  split; [|rewrite Hd; lia].
  unfold encoder.bytes. rewrite Hd, <- app_assoc. f_equal.
  symmetry. apply take_drop.
Qed.

Lemma DeserializeRawToValue_inv (typ : node.msgStruct) (p : list byte)
    (msg : Msg) (n : Z) :
  node.DeserializeRawToValue deserializeRootPack typ p = Ok (msg, n) ->
  exists rest,
    p = node.Serialize serializeRootPack msg ++ rest
    /\ n = len p - len rest
    /\ node.TypeOf msg = typ /\ node.encodable msg.
Proof.
  destruct typ; cbn [node.DeserializeRawToValue]; intros Hd.
  - injection Hd as <- <-. exists p. cbn. repeat split; lia.
  - injection Hd as <- <-. exists p. cbn. repeat split; lia.
  - destruct (encoder.read_array 33 p) as [[f rest]| |] eqn:E;
      cbn [mbind result_bind] in Hd; try discriminate.
    injection Hd as <- <-. exists rest. apply read_array_inv in E.
    cbn. auto.
  - destruct (encoder.read_array 33 p) as [[f rest]| |] eqn:E;
      cbn [mbind result_bind] in Hd; try discriminate.
    injection Hd as <- <-. exists rest. apply read_array_inv in E.
    cbn. auto.
  - destruct (encoder.read_array 33 p) as [[f rest]| |] eqn:E;
      cbn [mbind result_bind] in Hd; try discriminate.
    destruct (deserializeRootPack rest) as [[rp rest']| |] eqn:E';
      cbn [mbind result_bind] in Hd; try discriminate.
    injection Hd as <- <-. exists rest'. apply read_array_inv in E.
    apply deserializeRootPack_canonical in E'. subst rest p.
    cbn. rewrite <- app_assoc. auto.
  - destruct (encoder.read_array 32 p) as [[f rest]| |] eqn:E;
      cbn [mbind result_bind] in Hd; try discriminate.
    injection Hd as <- <-. exists rest. apply read_array_inv in E.
    cbn. auto.
  - destruct (encoder.read_lbytes p) as [[d rest]| |] eqn:E;
      cbn [mbind result_bind] in Hd; try discriminate.
    injection Hd as <- <-. exists rest. apply read_lbytes_inv in E as [E Hlen].
    cbn. auto.
  - destruct (encoder.read_array 32 p) as [[f rest]| |] eqn:E;
      cbn [mbind result_bind] in Hd; try discriminate.
    injection Hd as <- <-. exists rest. apply read_array_inv in E.
    cbn. auto.
  - destruct (encoder.read_lbytes p) as [[d rest]| |] eqn:E;
      cbn [mbind result_bind] in Hd; try discriminate.
    injection Hd as <- <-. exists rest. apply read_lbytes_inv in E as [E Hlen].
    cbn. auto.
Qed.

Lemma forwardRegistry_TypeOf (mt : Z) (msg : Msg) :
  0 < mt ->
  node.forwardRegistry !! Z.to_nat mt = Some (Some (node.TypeOf msg)) ->
  node.Msg_MsgType msg = mt.
Proof.
  intros Hpos Hl.
  assert (Hmt : mt = Z.of_nat (Z.to_nat mt)) by lia.
  rewrite Hmt. clear Hmt Hpos. generalize dependent (Z.to_nat mt).
  intros k Hl.
  do 10 (destruct k as [|k];
         [destruct msg; cbn in Hl; first [discriminate Hl|reflexivity]|]).
  cbn in Hl. discriminate.
Qed.

(** [Decode] accepts the bytes that [Encode] writes, and no others: a
    buffer that decodes to a message is the encoding of that message, and
    the message is one that the encoder can represent. *)
Theorem Encode_Decode (p : list byte) (msg : Msg) :
  Decode p = Ok msg -> Encode msg = p /\ node.encodable msg.
Proof.
  subst Decode Encode. unfold node.Decode, node.Encode.
  destruct p as [|p0 p1]; [discriminate|].
  destruct (Z.leb_spec (encoder.Z_of_byte p0) 0) as [|Hpos];
    [discriminate|].
  destruct (Z.leb_spec (len node.forwardRegistry) (encoder.Z_of_byte p0));
    [discriminate|].
  cbn [orb].
  destruct (node.forwardRegistry !! Z.to_nat (encoder.Z_of_byte p0))
    as [[typ|]|] eqn:Hl; try discriminate.
  destruct (node.DeserializeRawToValue deserializeRootPack typ p1)
    as [[msg' n]| |] eqn:Hd; cbn [mbind result_bind]; try discriminate.
  destruct (Z.eqb_spec (n + 1) (len (p0 :: p1))) as [Hn|]; [|discriminate].
  intros [= ->].
  apply DeserializeRawToValue_inv in Hd as (rest & -> & -> & <- & Henc).
  split; [|exact Henc].
  rewrite (forwardRegistry_TypeOf _ _ Hpos Hl), byte_of_Z_of_byte.
  f_equal.
  assert (Hrest : rest = []).
  { apply length_zero_iff_nil. unfold len in Hn. cbn [length] in Hn.
    rewrite length_app in *. lia. }
  rewrite Hrest, app_nil_r. reflexivity.
Qed.

End MessageDecoding.

Section MessageTypes.

Lemma append_inj_r (s1 s2 : string) (c : ascii) :
  (s1 ++ String c EmptyString)%string = (s2 ++ String c EmptyString)%string ->
  s1 = s2.
Proof.
  revert s2. induction s1 as [|a s1 IH]; intros [|b s2]; cbn; intros H.
  - reflexivity.
  - injection H as _ H. destruct s2; discriminate.
  - injection H as _ H. destruct s1; discriminate.
  - injection H as -> H. f_equal. apply IH, H.
Qed.

Lemma MsgType_String_valid (m : node.MsgType) :
  0 < m < 10 ->
  node.MsgType_String m ∈ ["PING"; "PONG"; "ADD"; "DEL"; "ROOT"; "RQDT";
                           "DATA"; "RQREG"; "REG"]%string
  /\ (forall m', 0 < m' < 10 ->
        node.MsgType_String m = node.MsgType_String m' -> m = m').
Proof.
  intros Hm.
  assert (m = 1 \/ m = 2 \/ m = 3 \/ m = 4 \/ m = 5 \/ m = 6 \/ m = 7
          \/ m = 8 \/ m = 9) as Hcases by lia.
  split.
  - destruct Hcases as [->|[->|[->|[->|[->|[->|[->|[->| ->]]]]]]]];
      cbn; set_solver.
  - intros m' Hm'.
    assert (m' = 1 \/ m' = 2 \/ m' = 3 \/ m' = 4 \/ m' = 5 \/ m' = 6
            \/ m' = 7 \/ m' = 8 \/ m' = 9) as Hcases' by lia.
    destruct Hcases as [->|[->|[->|[->|[->|[->|[->|[->| ->]]]]]]]];
      destruct Hcases' as [->|[->|[->|[->|[->|[->|[->|[->| ->]]]]]]]];
      cbn; intros H; try reflexivity; discriminate H.
Qed.

Lemma MsgType_String_invalid (m : node.MsgType) :
  ~ 0 < m < 10 ->
  node.MsgType_String m = ("MsgType<" ++ pretty m ++ ">")%string.
Proof.
  intros Hm. unfold node.MsgType_String.
  change (len node.msgTypeString) with 10.
  destruct (Z.ltb_spec 0 m), (Z.ltb_spec m 10); cbn [andb]; try reflexivity.
  lia.
Qed.

(** [String()] tells the message types apart: two types with the same
    string are the same type.  A valid type is written as its name in
    [msgTypeString], any other as [MsgType<n>], with [n] in decimal; no
    name has that form. *)
Theorem MsgType_String_inj (m m' : node.MsgType) :
  node.MsgType_String m = node.MsgType_String m' -> m = m'.
Proof.
  intros Heq.
  destruct (decide (0 < m < 10)) as [Hm|Hm];
    destruct (decide (0 < m' < 10)) as [Hm'|Hm'].
  - exact (proj2 (MsgType_String_valid m Hm) m' Hm' Heq).
  - exfalso. rewrite (MsgType_String_invalid m' Hm') in Heq.
    destruct (MsgType_String_valid m Hm) as [Hin _]. rewrite Heq in Hin.
    repeat (apply elem_of_cons in Hin as [Hin|Hin]; [discriminate Hin|]).
    inversion Hin.
  - exfalso. rewrite (MsgType_String_invalid m Hm) in Heq.
    destruct (MsgType_String_valid m' Hm') as [Hin _]. rewrite <- Heq in Hin.
    repeat (apply elem_of_cons in Hin as [Hin|Hin]; [discriminate Hin|]).
    inversion Hin.
  - rewrite (MsgType_String_invalid m Hm), (MsgType_String_invalid m' Hm')
      in Heq.
    apply (String.app_inj "MsgType<") in Heq.
    apply append_inj_r in Heq. exact (pretty_Z_inj _ _ Heq).
Qed.

End MessageTypes.

(** ** The tables of a registry *)

Section Tables.

Import skyobject.

Context (SumSHA256 : list byte -> cipher.SHA256).

(** *** What [register] puts in the tables *)

Lemma register_loop_tables (rg : Reg) (entries : list (reflect.Type_ * string)) :
  forall r r' : Registry,
    register_loop rg entries r = Ok r' ->
    NoDup entries.*2 ->
    tn r' = tn r /\ srf r' = srf r
    /\ (forall name typ,
          nt r' !! name = Some typ
          <-> ((typ, name) ∈ entries)
              \/ ((name ∉ entries.*2) /\ nt r !! name = Some typ))
    /\ (forall (name : string) (a : addr),
          reg r' !! name = Some a
          <-> ((name ∈ entries.*2) /\ a = ((name, 0%nat), []))
              \/ ((name ∉ entries.*2) /\ reg r !! name = Some a)).
Proof.
  induction entries as [|[typ0 name0] entries IH]; intros r r' Hrun Hnd.
  - injection Hrun as <-. split; [reflexivity|]. split; [reflexivity|].
    split; intros; split; intros H.
    + right. split; [apply not_elem_of_nil|exact H].
    + destruct H as [H|[_ H]]; [inversion H|exact H].
    + right. split; [apply not_elem_of_nil|exact H].
    + destruct H as [[H _]|[_ H]]; [inversion H|exact H].
  - cbn [register_loop] in Hrun. cbn in Hnd.
    apply list.NoDup_cons in Hnd as [Hhd Hnd].
    destruct (getSchema rg typ0) as [s| |]; cbn [mbind result_bind] in Hrun;
      try discriminate.
    destruct (negb (IsRegistered s)); [discriminate|].
    destruct (IH _ _ Hrun Hnd) as (Htn & Hsrf & Hnt & Hreg).
    cbn [tn srf nt reg] in *.
    split; [exact Htn|]. split; [exact Hsrf|]. split.
    + intros name typ. rewrite Hnt. cbn [fmap list_fmap snd].
      rewrite !elem_of_cons.
      assert (Hno : forall t, (t, name0) ∉ entries).
      { intros t Hin. apply Hhd. apply list_elem_of_fmap.
        exists (t, name0). auto. }
      destruct (decide (name = name0)) as [->|Hne].
      * rewrite lookup_insert_eq. specialize (Hno typ). naive_solver.
      * rewrite lookup_insert_ne by congruence. naive_solver.
    + intros name a. rewrite Hreg. cbn [fmap list_fmap snd].
      rewrite !elem_of_cons.
      destruct (decide (name = name0)) as [->|Hne].
      * rewrite lookup_insert_eq. naive_solver.
      * rewrite lookup_insert_ne by congruence. naive_solver.
Qed.

Lemma range_elem_of {K V : Type} `{Countable K} (m : gmap K V)
    (order : list K) (k : K) (v : V) :
  valid_order m order -> (k, v) ∈ range m order <-> m !! k = Some v.
Proof.
  intros Hv. rewrite (range_valid_order m order Hv).
  apply elem_of_map_to_list.
Qed.

Lemma names_of_elem_of (m : gmap reflect.Type_ string) (name : string) :
  name ∈ names_of m <-> exists typ, m !! typ = Some name.
Proof.
  unfold names_of. rewrite list_elem_of_fmap. split.
  - intros ([typ name'] & -> & Hin). exists typ.
    apply elem_of_map_to_list, Hin.
  - intros [typ Hm]. exists (typ, name). split; [reflexivity|].
    apply elem_of_map_to_list, Hm.
Qed.

(** what [NewRegistry] returns, taken apart *)
Lemma NewRegistry_Ok (cl : Reg -> result Reg) (o : orders) (r : Registry) :
  NewRegistry SumSHA256 cl o = Ok r ->
  exists rg r0,
    cl newReg = Ok rg
    /\ register newRegistry rg (order_register o) = Ok r0
    /\ finialize SumSHA256 r0 o = Ok r.
Proof.
  unfold NewRegistry. intros Hnew.
  destruct (cl newReg) as [rg| |]; cbn [mbind result_bind] in Hnew;
    try discriminate.
  destruct (register newRegistry rg (order_register o)) as [r0| |] eqn:Hreg;
    cbn [mbind result_bind] in Hnew; try discriminate.
  eauto.
Qed.

(** The two maps of [Types()] of a registry that [NewRegistry] built from
    calls of [Register] are inverse to one another: [Inverse] is the table
    of the [Reg], and [Direct] maps a name to a type exactly when
    [Inverse] maps the type to the name. *)
Theorem Types_Direct_Inverse (decls : list (string * reflect.any))
    (o : orders) (rg : Reg) (r : Registry) :
  declare decls newReg = Ok rg ->
  valid_order (Reg_tn rg) (order_register o) ->
  NewRegistry SumSHA256 (declare decls) o = Ok r ->
  Inverse (Registry_Types r) = Reg_tn rg
  /\ forall name typ,
       Direct (Registry_Types r) !! name = Some typ
       <-> Inverse (Registry_Types r) !! typ = Some name.
Proof.
  intros Hd Hv Hnew.
  apply NewRegistry_Ok in Hnew as (rg' & r0 & Hd' & Hreg & Hfin).
  rewrite Hd in Hd'. injection Hd' as <-.
  apply finialize_Ok in Hfin as (h & F & m & b & _ & _ & _ & ->).
  cbn [Registry_Types Direct Inverse nt tn].
  unfold register in Hreg.
  apply register_loop_tables in Hreg as (Htn & _ & Hnt & _).
  2:{ rewrite (range_valid_order _ _ Hv). apply (declare_names_NoDup decls), Hd. }
  cbn [tn nt newRegistry] in Htn, Hnt.
  split; [exact Htn|].
  intros name typ. rewrite Hnt, Htn, (range_elem_of _ _ _ _ Hv).
  rewrite lookup_empty. split; [intros [H|[_ H]]; [exact H|discriminate]|auto].
Qed.

(** *** The schemas under the names *)

Lemma store_root (root : string * nat) (path : list nat) (s : Schema)
    (h : heap) :
  exists o, store root path s h !! ((root, path) : addr) = Some o
            /\ Name_of o = Schema_Name s /\ Kind_of o = Schema_Kind s.
Proof.
  destruct s as [kind name|name el|name l el|name fields|kind rt [e|]];
    cbn [store]; rewrite lookup_insert_eq; eexists;
    (split; [reflexivity|split; reflexivity]).
Qed.

Lemma store_lookup_ne (root : string * nat) (path : list nat) (s : Schema)
    (h : heap) (a : addr) :
  a.1 <> root -> store root path s h !! a = h !! a.
Proof.
  intros Ha.
  assert (Hdel : store root path s (delete a h) !! a = None).
  { rewrite (store_commute (delete a) root).
    - apply lookup_delete_eq.
    - intros k v h' Hk. apply delete_insert_ne. congruence. }
  destruct (h !! a) as [x|] eqn:E.
  - rewrite <- (insert_delete_id h a x E), store_insert_ne by exact Ha.
    rewrite !lookup_insert_eq. reflexivity.
  - rewrite <- (delete_id h a E) at 1. exact Hdel.
Qed.

Lemma getSchema_Kind_Name (rg : Reg) (typ : reflect.Type_) (s : Schema) :
  getSchema rg typ = Ok s ->
  Schema_Kind s = reflect.Type_Kind typ
  /\ (IsRegistered s = true -> Schema_Name s = typeName rg typ).
Proof.
  destruct typ as [kind name|elem|name elem|name l elem|name fields];
    cbn [getSchema]; intros Hs;
    repeat (case_match; try discriminate);
    try (injection Hs as <-; split; [reflexivity|];
         first [reflexivity|discriminate]).
  all: match type of Hs with
       | (?x ≫= _) = _ => destruct x; cbn [mbind result_bind] in Hs;
                          try discriminate
       end.
  all: repeat (case_match; try discriminate).
  all: injection Hs as <-; split; reflexivity.
Qed.

Lemma register_loop_mem (rg : Reg) (entries : list (reflect.Type_ * string)) :
  forall r r' : Registry,
    register_loop rg entries r = Ok r' ->
    NoDup entries.*2 ->
    (forall a : addr, a.1.1 ∉ entries.*2 -> mem r' !! a = mem r !! a)
    /\ (forall typ name, (typ, name) ∈ entries ->
          exists s o,
            getSchema rg typ = Ok s /\ IsRegistered s = true
            /\ mem r' !! (((name, 0%nat), []) : addr) = Some o
            /\ Name_of o = Schema_Name s /\ Kind_of o = Schema_Kind s).
Proof.
  induction entries as [|[typ0 name0] entries IH]; intros r r' Hrun Hnd.
  - injection Hrun as <-. split; [reflexivity|].
    intros typ name Hin. inversion Hin.
  - cbn [register_loop] in Hrun. cbn in Hnd.
    apply list.NoDup_cons in Hnd as [Hhd Hnd].
    destruct (getSchema rg typ0) as [s0| |] eqn:Hs0;
      cbn [mbind result_bind] in Hrun; try discriminate.
    destruct (IsRegistered s0) eqn:Hreg0; [|discriminate].
    cbn [negb] in Hrun.
    destruct (IH _ _ Hrun Hnd) as [Hother Hroots]. cbn [mem] in Hother.
    split.
    + intros a Ha. cbn in Ha. apply not_elem_of_cons in Ha as [Hne Ha].
      rewrite (Hother a Ha). apply store_lookup_ne.
      intros Heq. apply Hne. rewrite Heq. reflexivity.
    + intros typ name Hin. apply elem_of_cons in Hin as [[= -> ->]|Hin].
      * destruct (store_root (name0, 0%nat) [] s0 (mem r))
          as (o & Ho & Hname & Hkind).
        exists s0, o. split; [exact Hs0|]. split; [exact Hreg0|].
        split; [|auto].
        etransitivity; [exact (Hother ((name0, 0%nat), []) Hhd)|exact Ho].
      * exact (Hroots typ name Hin).
Qed.

Lemma resolve_object_Name_Kind (rg : gmap string addr) (h0 : heap)
    (o o' : object) :
  resolve_object rg h0 o = Ok o' ->
  Name_of o' = Name_of o /\ Kind_of o' = Kind_of o.
Proof.
  destruct o as [kind name|name elem|name l elem|name fields|kind typ elem];
    cbn [resolve_object]; intros Hres.
  - case_match; [discriminate|]. injection Hres as <-. auto.
  - destruct (resolve rg h0 elem); cbn [mbind result_bind] in Hres;
      try discriminate. injection Hres as <-. auto.
  - destruct (resolve rg h0 elem); cbn [mbind result_bind] in Hres;
      try discriminate. injection Hres as <-. auto.
  - destruct (mapM_result _ fields); cbn [mbind result_bind] in Hres;
      try discriminate. injection Hres as <-. auto.
  - repeat case_match; try discriminate.
    + destruct (resolve_reference rg h0 _); cbn [mbind result_bind] in Hres;
        try discriminate. injection Hres as <-. auto.
    + injection Hres as <-. auto.
Qed.

(** In a registry that [NewRegistry] built from calls of [Register],
    [SchemaByName] finds a schema under every name of the table of the
    [Reg], and that schema carries the name and has the kind of the type
    registered under it; under any other name it returns the
    missing-schema error. *)
Theorem SchemaByName_registered (decls : list (string * reflect.any))
    (o : orders) (rg : Reg) (r : Registry) :
  declare decls newReg = Ok rg ->
  valid_order (Reg_tn rg) (order_register o) ->
  NewRegistry SumSHA256 (declare decls) o = Ok r ->
  (forall typ name,
     Reg_tn rg !! typ = Some name ->
     exists a s,
       SchemaByName r name = Ok a /\ mem r !! a = Some s
       /\ Name_of s = name /\ Kind_of s = reflect.Type_Kind typ)
  /\ (forall name,
        name ∉ names_of (Reg_tn rg) ->
        SchemaByName r name = Err (ErrMissingSchema name)).
Proof.
  intros Hd Hv Hnew.
  apply NewRegistry_Ok in Hnew as (rg' & r0 & Hd' & Hreg & Hfin).
  rewrite Hd in Hd'. injection Hd' as <-.
  apply finialize_Ok in Hfin as (h & F & m & b & Hfill & _ & _ & ->).
  unfold SchemaByName, schemaByName. cbn [reg mem].
  unfold register in Hreg.
  assert (Hnd : NoDup (range (Reg_tn rg) (order_register o)).*2).
  { rewrite (range_valid_order _ _ Hv). apply (declare_names_NoDup decls), Hd. }
  pose proof (register_loop_tables _ _ _ _ Hreg Hnd) as (_ & _ & _ & Htab).
  pose proof (register_loop_mem _ _ _ _ Hreg Hnd) as [_ Hroots].
  cbn [reg newRegistry] in Htab.
  apply fill_loop_Ok in Hfill as (_ & Hres & Hu).
  split.
  - intros typ name Htn.
    assert (Hin : (typ, name) ∈ range (Reg_tn rg) (order_register o))
      by (apply range_elem_of; assumption).
    destruct (Hroots typ name Hin) as (s & o0 & Hs & Hsreg & Ho0 & Hname & Hkind).
    apply getSchema_Kind_Name in Hs as [Hk Hn]. specialize (Hn Hsreg).
    assert (Ha : reg r0 !! name = Some (((name, 0%nat), []) : addr)).
    { apply Htab. left. split; [|reflexivity].
      apply list_elem_of_fmap. exists (typ, name). auto. }
    assert (Htyp : typeName rg typ = name)
      by (unfold typeName; rewrite Htn; reflexivity).
    destruct (decide (((name, 0%nat), []) ∈ F)) as [HF|HF].
    + destruct (Hres _ HF) as (o1 & o' & H0 & Hro & Hh & _).
      assert (Heq : Some o1 = Some o0)
        by (transitivity (mem r0 !! ((name, 0%nat), [])); [symmetry; exact H0|exact Ho0]).
      injection Heq as ->.
      apply resolve_object_Name_Kind in Hro as [Hn' Hk'].
      exists ((name, 0%nat), []), o'. rewrite Ha.
      split; [reflexivity|]. split; [exact Hh|]. split; congruence.
    + exists ((name, 0%nat), []), o0. rewrite Ha.
      split; [reflexivity|]. split; [rewrite (Hu _ HF); exact Ho0|].
      split; congruence.
  - intros name Hname.
    destruct (reg r0 !! name) as [a|] eqn:E; [|reflexivity].
    exfalso. apply Htab in E as [[Hin _]|[_ E]]; [|rewrite lookup_empty in E; discriminate].
    apply Hname. unfold names_of.
    rewrite <- (range_valid_order _ _ Hv). exact Hin.
Qed.

(** *** What [DecodeRegistry] puts in the tables *)

Lemma DecodeRegistry_loop_tables (res : list registryEntity) :
  forall (i : nat) (r r' : Registry),
    DecodeRegistry_loop SumSHA256 res i r = Ok r' ->
    nt r' = nt r /\ tn r' = tn r
    /\ forall name,
         is_Some (reg r' !! name)
         <-> name ∈ re_Name <$> res \/ is_Some (reg r !! name).
Proof.
  induction res as [|re res IH]; intros i r r' Hrun.
  - injection Hrun as <-. split; [reflexivity|]. split; [reflexivity|].
    intros name. split; [auto|]. intros [H|H]; [inversion H|exact H].
  - cbn [DecodeRegistry_loop] in Hrun.
    destruct (decodeSchema (re_Schema re)) as [s| |]; try discriminate.
    destruct (Schema_Reference SumSHA256 _ _) as [sr| |];
      cbn [mbind result_bind] in Hrun; try discriminate.
    destruct (IH _ _ _ Hrun) as (Hnt & Htn & Hreg). cbn [nt tn reg] in *.
    split; [exact Hnt|]. split; [exact Htn|].
    intros name. rewrite Hreg. cbn [fmap list_fmap]. rewrite elem_of_cons.
    destruct (decide (name = re_Name re)) as [->|Hne].
    + rewrite lookup_insert_eq. split; [auto|]. intros _. right. eauto.
    + rewrite lookup_insert_ne by congruence. tauto.
Qed.

(** A registry that [DecodeRegistry] returns holds a schema under the name
    of each decoded entry, and under no other name; its maps between names
    and types, which [Types()] returns, are empty. *)
Theorem DecodeRegistry_tables (b : list byte) (o : orders) (r : Registry) :
  DecodeRegistry SumSHA256 b o = Ok r ->
  exists res,
    DeserializeRaw_registryEntities b = Ok res
    /\ (forall name,
          (exists a, SchemaByName r name = Ok a) <-> name ∈ re_Name <$> res)
    /\ Direct (Registry_Types r) = ∅ /\ Inverse (Registry_Types r) = ∅.
Proof.
  unfold DecodeRegistry. intros Hdec.
  destruct (DeserializeRaw_registryEntities b) as [res| |];
    cbn [mbind result_bind] in Hdec; try discriminate.
  destruct (DecodeRegistry_loop SumSHA256 res 0 newRegistry) as [r0| |] eqn:Hloop;
    cbn [mbind result_bind] in Hdec; try discriminate.
  apply finialize_Ok in Hdec as (h & F & m & enc & _ & _ & _ & ->).
  apply DecodeRegistry_loop_tables in Hloop as (Hnt & Htn & Hreg).
  exists res. split; [reflexivity|].
  unfold SchemaByName, schemaByName. cbn [Registry_Types Direct Inverse nt tn reg].
  split; [|split; [exact Hnt|exact Htn]].
  intros name. specialize (Hreg name). cbn [reg newRegistry] in Hreg.
  rewrite lookup_empty in Hreg. split.
  - intros [a Ha]. destruct (reg r0 !! name) as [a'|] eqn:E; [|discriminate].
    destruct (proj1 Hreg (ex_intro _ a' eq_refl)) as [H|[? H]];
      [exact H|discriminate].
  - intros Hin. destruct (proj2 Hreg (or_introl Hin)) as [a Ha].
    exists a. rewrite Ha. reflexivity.
Qed.

End Tables.

(** ** The tag of a reference field *)

Section Tags.

Import skyobject.

(** the characters of [s] are not [c] *)
Abbreviation free_of c s := (Forall (fun x => x <> c) (list_ascii_of_string s)).

Lemma Split_nonempty (s : string) (sep : ascii) : gostrings.Split s sep <> [].
Proof.
  destruct s as [|c s]; cbn; [discriminate|].
  destruct (Ascii.eqb c sep); [discriminate|].
  destruct (gostrings.Split s sep); discriminate.
Qed.

Lemma Split_cons_ne (c sep : ascii) (s : string) :
  c <> sep ->
  exists piece pieces,
    gostrings.Split s sep = piece :: pieces
    /\ gostrings.Split (String c s) sep = String c piece :: pieces.
Proof.
  intros Hc. cbn [gostrings.Split].
  apply Ascii.eqb_neq in Hc. rewrite Hc.
  pose proof (Split_nonempty s sep) as Hne.
  destruct (gostrings.Split s sep) as [|piece pieces]; [contradiction|].
  eauto.
Qed.

Lemma Split_free (s : string) (sep : ascii) :
  free_of sep s -> gostrings.Split s sep = [s].
Proof.
  induction s as [|c s IH]; intros Hs; [reflexivity|].
  cbn in Hs. apply Forall_cons in Hs as [Hc Hs].
  destruct (Split_cons_ne c sep s Hc) as (piece & pieces & E & ->).
  rewrite (IH Hs) in E. injection E as <- <-. reflexivity.
Qed.

Lemma Split_singleton (s : string) (sep : ascii) (piece : string) :
  gostrings.Split s sep = [piece] -> s = piece /\ free_of sep s.
Proof.
  revert piece. induction s as [|c s IH]; intros piece Hs.
  - injection Hs as <-. split; [reflexivity|constructor].
  - cbn [gostrings.Split] in Hs.
    destruct (Ascii.eqb_spec c sep) as [->|Hc].
    + injection Hs as _ Hs. exfalso. exact (Split_nonempty _ _ Hs).
    + destruct (gostrings.Split s sep) as [|p ps] eqn:E;
        [exfalso; exact (Split_nonempty _ _ E)|].
      injection Hs as <- ->.
      destruct (IH p eq_refl) as [-> Hfree].
      split; [reflexivity|]. cbn. constructor; assumption.
Qed.

(** the pieces that [Split] returns hold no separator *)
Lemma Split_pieces_free (s : string) (sep : ascii) :
  Forall (fun piece => free_of sep piece) (gostrings.Split s sep).
Proof.
  induction s as [|c s IH]; cbn [gostrings.Split].
  - repeat constructor.
  - destruct (Ascii.eqb_spec c sep) as [->|Hc].
    + constructor; [constructor|exact IH].
    + destruct (gostrings.Split s sep) as [|p ps];
        [repeat constructor; exact Hc|].
      apply Forall_cons in IH as [Hp Hps].
      constructor; [|exact Hps]. cbn. constructor; assumption.
Qed.

Lemma Split_schema (rest : string) :
  gostrings.Split ("schema=" ++ rest) "=" 
  = "schema"%string :: gostrings.Split rest "=".
Proof. reflexivity. Qed.

Lemma HasPrefix_schema (part : string) :
  gostrings.HasPrefix part "schema=" = true <->
  exists rest, part = ("schema=" ++ rest)%string.
Proof.
  unfold gostrings.HasPrefix. split.
  - intros H.
    do 7 (destruct part as [|? part]; cbn [String.prefix] in H;
          [discriminate|];
          match type of H with
          | context [ascii_dec ?a ?b] =>
              destruct (ascii_dec a b) as [Heq|]; [subst|discriminate]
          end).
    exists part. reflexivity.
  - intros [rest ->]. destruct rest; reflexivity.
Qed.

(** A tag whose [skyobject] entry is [schema=Name], with a name that is
    not empty and holds no comma and no equals sign, names the schema
    [Name]; with an empty name, or with an equals sign in the name,
    [TagSchemaName] returns an error. *)
Theorem TagSchemaName_schema (tag : reflect.StructTag) (name : string) :
  reflect.StructTag_Get tag TAG = ("schema=" ++ name)%string ->
  free_of ","%char name ->
  (name <> EmptyString -> free_of "="%char name ->
   TagSchemaName tag = Ok name)
  /\ (name = EmptyString \/ ~ free_of "="%char name ->
      is_Err (TagSchemaName tag)).
Proof.
  intros Hget Hcomma. unfold TagSchemaName. rewrite Hget.
  change (("schema=" ++ name =? "")%string) with false. cbn iota.
  assert (Hsplit : gostrings.Split ("schema=" ++ name) "," 
                   = [("schema=" ++ name)%string]).
  { apply Split_free. cbn. repeat (constructor; [discriminate|]).
    exact Hcomma. }
  rewrite Hsplit. cbn [TagSchemaName_parts].
  rewrite (proj2 (HasPrefix_schema _) (ex_intro _ name eq_refl)).
  cbn [negb]. rewrite Split_schema. split.
  - intros Hne Heq. rewrite (Split_free name "=" Heq).
    apply String.eqb_neq in Hne. rewrite Hne. reflexivity.
  - intros [->|Heq]; [exact I|].
    destruct (gostrings.Split name "=") as [|p [|q ps]] eqn:E.
    + exact I.
    + exfalso. apply Heq. exact (proj2 (Split_singleton _ _ _ E)).
    + exact I.
Qed.

Lemma TagSchemaName_parts_Ok (parts : list string) (skytag sch : string) :
  TagSchemaName_parts parts skytag = Ok sch ->
  sch <> EmptyString /\ free_of "="%char sch
  /\ ("schema=" ++ sch)%string ∈ parts.
Proof.
  induction parts as [|part parts IH]; [discriminate|].
  cbn [TagSchemaName_parts].
  destruct (gostrings.HasPrefix part "schema=") eqn:Hp; cbn [negb].
  2:{ intros H. destruct (IH H) as (? & ? & ?). repeat split; auto.
      right. assumption. }
  apply HasPrefix_schema in Hp as [rest ->]. rewrite Split_schema.
  destruct (gostrings.Split rest "=") as [|p [|q ps]] eqn:E;
    try discriminate.
  destruct (String.eqb_spec p EmptyString) as [|Hne]; [discriminate|].
  intros [= <-]. apply Split_singleton in E as [-> Hfree].
  repeat split; auto. left.
Qed.

(** The name that [TagSchemaName] returns is not empty, holds no comma and
    no equals sign, and stands in the tag: [schema=Name] is one of the
    parts of the [skyobject] entry that the commas separate. *)
Theorem TagSchemaName_Ok (tag : reflect.StructTag) (sch : string) :
  TagSchemaName tag = Ok sch ->
  sch <> EmptyString
  /\ free_of "="%char sch /\ free_of ","%char sch
  /\ ("schema=" ++ sch)%string
     ∈ gostrings.Split (reflect.StructTag_Get tag TAG) ",".
Proof.
  unfold TagSchemaName. case_match; [discriminate|]. intros Hp.
  apply TagSchemaName_parts_Ok in Hp as (Hne & Heq & Hin).
  repeat split; try assumption.
  pose proof (Split_pieces_free (reflect.StructTag_Get tag TAG) ",") as Hfree.
  rewrite Forall_forall in Hfree. specialize (Hfree _ Hin).
  cbn in Hfree. do 7 (apply Forall_cons in Hfree as [_ Hfree]).
  exact Hfree.
Qed.

End Tags.

(** ** The size that [SchemaSize] returns, and the buffer *)

Section SizeBounds.

Import skyobject.

#[local] Arguments Z.mul : simpl never.

Lemma getLength_range (p : list byte) (l : Z) :
  getLength p = Ok l -> 0 <= l < 2 ^ 32.
Proof.
  unfold getLength.
  destruct (encoder.read_uint32 p) as [[u rest]| |] eqn:E;
    cbn [mbind result_bind]; try discriminate.
  intros [= <-]. exact (proj2 (read_uint32_Ok _ _ _ E)).
Qed.

Lemma schemaArraySliceSize_loop_ge (size_el : list byte -> result Z)
    (p : list byte) :
  (forall q m, size_el q = Ok m -> 0 <= m) ->
  forall (left : nat) (n r : Z),
    schemaArraySliceSize_loop size_el left n p = Ok r -> n <= r.
Proof.
  intros Hel left. induction left as [|left IH]; intros n r Hr.
  - injection Hr as <-. lia.
  - cbn [schemaArraySliceSize_loop] in Hr.
    destruct (n >=? len p); [discriminate|].
    destruct (size_el (slice_from n p)) as [m| |] eqn:E;
      cbn [mbind result_bind] in Hr; try discriminate.
    apply Hel in E. apply IH in Hr. lia.
Qed.

Lemma schemaStructSize_loop_ge (sizes : list (list byte -> result Z))
    (p : list byte) :
  Forall (fun size_sf => forall q m, size_sf q = Ok m -> 0 <= m) sizes ->
  forall n r : Z, schemaStructSize_loop sizes n p = Ok r -> n <= r.
Proof.
  induction 1 as [|size_sf sizes Hsf _ IH]; intros n r Hr.
  - injection Hr as <-. lia.
  - cbn [schemaStructSize_loop] in Hr.
    destruct (n >=? len p); [discriminate|].
    destruct (size_sf (slice_from n p)) as [m| |] eqn:E;
      cbn [mbind result_bind] in Hr; try discriminate.
    apply Hsf in E. apply IH in Hr. lia.
Qed.

Lemma schemaArraySliceSize_ge (size_el : list byte -> result Z)
    (elKind : reflect.Kind) (l shift : Z) (p : list byte) (r : Z) :
  (forall q m, size_el q = Ok m -> 0 <= m) ->
  0 <= l -> 0 <= shift ->
  schemaArraySliceSize size_el elKind l shift p = Ok r -> 0 <= r.
Proof.
  intros Hel Hl Hshift. unfold schemaArraySliceSize.
  destruct (Z.gtb_spec (fixedSize elKind) 0) as [Hs|Hs].
  - intros [= <-]. nia.
  - intros Hr. apply schemaArraySliceSize_loop_ge in Hr; [lia|exact Hel].
Qed.

Lemma check_Ok (n : Z) (p : list byte) (r : Z) :
  (if n >? len p then Err ErrInvalidSchemaOrData else Ok n) = Ok r ->
  r = n /\ n <= len p.
Proof.
  destruct (Z.gtb_spec n (len p)); [discriminate|].
  intros [= <-]. split; [reflexivity|lia].
Qed.

Lemma gtb_false (a b : Z) : (a >? b) = false -> a <= b.
Proof. destruct (Z.gtb_spec a b); [discriminate|lia]. Qed.

Lemma refSize_nonneg (p : list byte) (n : Z) : refSize p = Ok n -> 0 <= n.
Proof.
  unfold refSize.
  destruct (encoder.read_uint32 p) as [[l rest]| |] eqn:E;
    cbn [mbind result_bind]; try discriminate.
  apply read_uint32_Ok in E as [_ Hl].
  case_match; [discriminate|]. intros [= <-].
  unfold cipher.SHA256_len. lia.
Qed.

Lemma SchemaSize_nonneg (s : Schema) :
  lengths_nonneg s = true ->
  forall (p : list byte) (n : Z), SchemaSize s p = Ok n -> 0 <= n.
Proof.
  induction s as [kind name|name el IH|name l el IH|name fields IH|kind rt el _]
    using Schema_nested_ind; intros Hwf p n Hn; cbn [lengths_nonneg] in Hwf.
  - cbn [SchemaSize] in Hn.
    repeat (case_match; try discriminate);
      try (injection Hn as <-; lia).
    + destruct (getLength p) as [l| |] eqn:E; cbn [mbind result_bind] in Hn;
        try discriminate.
      apply getLength_range in E. apply check_Ok in Hn as [-> _]. lia.
    + destruct (getLength p); discriminate.
  - cbn [SchemaSize] in Hn.
    destruct (getLength p) as [l| |] eqn:E; cbn [mbind result_bind] in Hn;
      try discriminate.
    apply getLength_range in E.
    destruct (schemaArraySliceSize _ _ l 4 p) as [r| |] eqn:Er;
      cbn [mbind result_bind] in Hn; try discriminate.
    apply check_Ok in Hn as [-> _].
    apply schemaArraySliceSize_ge in Er; [exact Er| |lia|lia].
    intros q m. apply IH, Hwf.
  - cbn [SchemaSize] in Hn. apply andb_prop in Hwf as [Hl%Z.leb_le Hwf].
    destruct (schemaArraySliceSize _ _ l 0 p) as [r| |] eqn:Er;
      cbn [mbind result_bind] in Hn; try discriminate.
    apply check_Ok in Hn as [-> _].
    apply schemaArraySliceSize_ge in Er; [exact Er| |lia|lia].
    intros q m. apply IH, Hwf.
  - cbn [SchemaSize] in Hn.
    destruct (schemaStructSize_loop _ 0 p) as [r| |] eqn:Er;
      cbn [mbind result_bind] in Hn; try discriminate.
    apply check_Ok in Hn as [-> _].
    apply schemaStructSize_loop_ge in Er; [exact Er|].
    apply Forall_map.
    rewrite forallb_forall in Hwf. rewrite Forall_forall in IH |- *.
    intros [fn ft sch] Hin q m. apply (IH _ Hin).
    apply (Hwf (field fn ft sch)). apply list_elem_of_In, Hin.
  - cbn [SchemaSize] in Hn.
    repeat (case_match; try discriminate);
      try (injection Hn as <-; unfold cipher.SHA256_len; lia).
    exact (refSize_nonneg _ _ Hn).
Qed.

(** The size that [SchemaSize] returns for a schema that is not a
    reference lies in the buffer: it is not negative and not greater than
    the length of [p], so that [p[:n]] is a slice of [p].  (The lengths of
    array schemas are taken not to be negative.) *)
Theorem SchemaSize_in_buffer (s : Schema) (p : list byte) (n : Z) :
  IsReference s = false -> lengths_nonneg s = true ->
  SchemaSize s p = Ok n -> 0 <= n <= len p.
Proof.
  intros Href Hwf Hn. split; [exact (SchemaSize_nonneg s Hwf p n Hn)|].
  destruct s as [kind name|name el|name l el|name fields|kind rt el];
    [| | | |discriminate]; cbn [SchemaSize] in Hn.
  - repeat (case_match; try discriminate);
      repeat match goal with
             | H : (_ >? _) = false |- _ => apply gtb_false in H
             end;
      try (injection Hn as <-; lia).
    + destruct (getLength p) as [l| |]; cbn [mbind result_bind] in Hn;
        try discriminate.
      apply check_Ok in Hn as [-> Hn]. lia.
    + destruct (getLength p); discriminate.
  - match type of Hn with
    | (?x ≫= _) = _ => destruct x as [r| |]; cbn [mbind result_bind] in Hn;
                       try discriminate
    end.
    apply check_Ok in Hn as [-> Hn]. exact Hn.
  - match type of Hn with
    | (?x ≫= _) = _ => destruct x as [r| |]; cbn [mbind result_bind] in Hn;
                       try discriminate
    end.
    apply check_Ok in Hn as [-> Hn]. exact Hn.
  - match type of Hn with
    | (?x ≫= _) = _ => destruct x as [r| |]; cbn [mbind result_bind] in Hn;
                       try discriminate
    end.
    apply check_Ok in Hn as [-> Hn]. exact Hn.
Qed.

End SizeBounds.

(** ** Two structs that refer to one another *)

Section MutualReferences.

Import skyobject.

Context (SumSHA256 : list byte -> cipher.SHA256).

(** the two declarations: [A] under [nameA], with one field, a reference
    whose tag names [nameB]; [B] under [nameB], with one field, a
    reference whose tag names [nameA] *)
Context (nameA nameB tA tB fA fB : string).
Context (tagA tagB : reflect.StructTag) (manyA manyB : bool).

Hypothesis nameA_nonempty : nameA <> EmptyString.
Hypothesis nameB_nonempty : nameB <> EmptyString.
Hypothesis names_differ : nameA <> nameB.
Hypothesis tagA_names_B : TagSchemaName tagA = Ok nameB.
Hypothesis tagB_names_A : TagSchemaName tagB = Ok nameA.
Hypothesis fieldA_kept :
  skipped (reflect.Build_StructField fA tagA ""
             (if manyA then typeOfRefs else typeOfRef)) = false.
Hypothesis fieldB_kept :
  skipped (reflect.Build_StructField fB tagB ""
             (if manyB then typeOfRefs else typeOfRef)) = false.

Let A : reflect.Type_ := refStruct tA fA tagA manyA.
Let B : reflect.Type_ := refStruct tB fB tagB manyB.

Let rootA : addr := ((nameA, 0%nat), []).
Let refA : addr := ((nameA, 0%nat), [0%nat]).
Let elemA : addr := ((nameA, 0%nat), [0%nat; 0%nat]).
Let rootB : addr := ((nameB, 0%nat), []).
Let refB : addr := ((nameB, 0%nat), [0%nat]).
Let elemB : addr := ((nameB, 0%nat), [0%nat; 0%nat]).

Let kindOf (many : bool) : reflect.Kind :=
  if many then reflect.Slice else reflect.Array.
Let rtOf (many : bool) : ReferenceType :=
  if many then ReferenceTypeSlice else ReferenceTypeSingle.

Let schemaA : Schema :=
  structSchema nameA
    [field fA (reflect.StructTag_string tagA)
       (referenceSchema (kindOf manyA) (rtOf manyA)
          (Some (schema reflect.Struct nameB)))].
Let schemaB : Schema :=
  structSchema nameB
    [field fB (reflect.StructTag_string tagB)
       (referenceSchema (kindOf manyB) (rtOf manyB)
          (Some (schema reflect.Struct nameA)))].

Let rg : Reg := {| Reg_tn := <[B := nameB]> (<[A := nameA]> ∅) |}.

Let names : gmap string addr := <[nameB := rootB]> (<[nameA := rootA]> ∅).

Let h0 : heap :=
  store (nameB, 0%nat) [] schemaB (store (nameA, 0%nat) [] schemaA ∅).

Let registered : Registry :=
  {| done := false; ref := ref newRegistry; reg := names; srf := ∅;
     nt := <[nameB := B]> (<[nameA := A]> ∅); tn := Reg_tn rg; mem := h0 |}.

Lemma A_ne_B : A <> B.
Proof.
  intros Heq. injection Heq as _ _ Htag _. apply names_differ.
  rewrite Htag in tagA_names_B. congruence.
Qed.

Lemma refStruct_not_reference tname fname tag many :
  ~ isReferenceType (refStruct tname fname tag many).
Proof. intros [H|[H|H]]; discriminate H. Qed.

Lemma declare_pair :
  declare [(nameA, reflect.value_of A); (nameB, reflect.value_of B)] newReg
  = Ok rg.
Proof.
  cbn [declare].
  rewrite (Register_Ok newReg nameA (reflect.value_of A) A);
    [|exact nameA_nonempty|reflexivity|apply refStruct_not_reference|].
  2:{ cbn [Reg_tn newReg]. rewrite names_of_empty. apply not_elem_of_nil. }
  cbn [mbind result_bind].
  rewrite (Register_Ok _ nameB (reflect.value_of B) B);
    [|exact nameB_nonempty|reflexivity|apply refStruct_not_reference|].
  2:{ cbn [Reg_tn newReg]. rewrite insert_empty, names_of_singleton.
      intros Hin%list_elem_of_singleton. congruence. }
  reflexivity.
Qed.

Lemma typeName_A : typeName rg A = nameA.
Proof.
  unfold typeName, rg. cbn [Reg_tn].
  rewrite lookup_insert_ne by (intros H; exact (A_ne_B (eq_sym H))).
  rewrite lookup_insert_eq. reflexivity.
Qed.

Lemma typeName_B : typeName rg B = nameB.
Proof.
  unfold typeName, rg. cbn [Reg_tn]. rewrite lookup_insert_eq. reflexivity.
Qed.

Lemma getSchema_refStruct (tname fname target : string)
    (tag : reflect.StructTag) (many : bool) :
  TagSchemaName tag = Ok target ->
  skipped (reflect.Build_StructField fname tag ""
             (if many then typeOfRefs else typeOfRef)) = false ->
  getSchema rg (refStruct tname fname tag many)
  = Ok (structSchema (typeName rg (refStruct tname fname tag many))
          [field fname (reflect.StructTag_string tag)
             (referenceSchema (kindOf many) (rtOf many)
                (Some (schema reflect.Struct target)))]).
Proof.
  intros Htag Hkept. unfold refStruct.
  rewrite getSchema_TStruct by discriminate.
  cbn [getFields]. rewrite Hkept. unfold getField, mustTagSchemaName.
  rewrite Htag. destruct many.
  - rewrite bool_decide_eq_false_2 by discriminate.
    rewrite bool_decide_eq_true_2 by reflexivity. reflexivity.
  - rewrite bool_decide_eq_true_2 by reflexivity. reflexivity.
Qed.

Lemma getSchema_A : getSchema rg A = Ok schemaA.
Proof.
  unfold A, schemaA.
  rewrite (getSchema_refStruct tA fA nameB tagA manyA tagA_names_B
             fieldA_kept).
  fold A. rewrite typeName_A. reflexivity.
Qed.

Lemma getSchema_B : getSchema rg B = Ok schemaB.
Proof.
  unfold B, schemaB.
  rewrite (getSchema_refStruct tB fB nameA tagB manyB tagB_names_A
             fieldB_kept).
  fold B. rewrite typeName_B. reflexivity.
Qed.

Lemma valid_order_pair : valid_order (Reg_tn rg) [A; B].
Proof.
  unfold valid_order, rg. cbn [Reg_tn].
  rewrite map_to_list_insert.
  2:{ rewrite lookup_insert_ne by exact A_ne_B. apply lookup_empty. }
  rewrite insert_empty, map_to_list_singleton. apply perm_swap.
Qed.

Lemma register_pair (order : list reflect.Type_) :
  valid_order (Reg_tn rg) order ->
  register newRegistry rg order = Ok registered.
Proof.
  intros Hv.
  rewrite (register_order newRegistry rg order [A; B]);
    [|apply (declare_names_NoDup _ _ declare_pair)|exact Hv
     |exact valid_order_pair].
  unfold register, range. cbn [omap list_omap Reg_tn rg].
  rewrite lookup_insert_ne by (intros H; exact (A_ne_B (eq_sym H))).
  rewrite !lookup_insert_eq. cbn [fmap option_fmap option_map register_loop].
  rewrite getSchema_A. cbn [mbind result_bind].
  unfold IsRegistered at 1. unfold schemaA at 1. cbn [Schema_Name].
  rewrite (proj2 (String.eqb_neq _ _) nameA_nonempty). cbn [negb].
  rewrite getSchema_B. cbn [mbind result_bind].
  unfold IsRegistered at 1. unfold schemaB at 1. cbn [Schema_Name].
  rewrite (proj2 (String.eqb_neq _ _) nameB_nonempty). cbn [negb].
  reflexivity.
Qed.

Lemma h0_store :
  h0 = <[rootB := structObj nameB [(fB, reflect.StructTag_string tagB, refB)]]>
         (<[refB := referenceObj (kindOf manyB) (rtOf manyB) (Some elemB)]>
            (<[elemB := schemaObj reflect.Struct nameA]>
               (<[rootA := structObj nameA
                             [(fA, reflect.StructTag_string tagA, refA)]]>
                  (<[refA := referenceObj (kindOf manyA) (rtOf manyA)
                               (Some elemA)]>
                     (<[elemA := schemaObj reflect.Struct nameB]> ∅))))).
Proof. reflexivity. Qed.

Ltac addr_ne :=
  unfold rootA, refA, elemA, rootB, refB, elemB; congruence.

Ltac lookup_h0 :=
  rewrite h0_store;
  repeat first [rewrite lookup_insert_eq
               |rewrite lookup_insert_ne by addr_ne];
  reflexivity.

Lemma h0_rootA :
  h0 !! rootA
  = Some (structObj nameA [(fA, reflect.StructTag_string tagA, refA)]).
Proof. lookup_h0. Qed.

Lemma h0_refA :
  h0 !! refA = Some (referenceObj (kindOf manyA) (rtOf manyA) (Some elemA)).
Proof. lookup_h0. Qed.

Lemma h0_elemA : h0 !! elemA = Some (schemaObj reflect.Struct nameB).
Proof. lookup_h0. Qed.

Lemma h0_rootB :
  h0 !! rootB
  = Some (structObj nameB [(fB, reflect.StructTag_string tagB, refB)]).
Proof. lookup_h0. Qed.

Lemma h0_refB :
  h0 !! refB = Some (referenceObj (kindOf manyB) (rtOf manyB) (Some elemB)).
Proof. lookup_h0. Qed.

Lemma h0_elemB : h0 !! elemB = Some (schemaObj reflect.Struct nameA).
Proof. lookup_h0. Qed.

Lemma names_A : names !! nameA = Some rootA.
Proof.
  unfold names. rewrite lookup_insert_ne by congruence.
  apply lookup_insert_eq.
Qed.

Lemma names_B : names !! nameB = Some rootB.
Proof. unfold names. apply lookup_insert_eq. Qed.

Lemma names_values (name : string) (a : addr) :
  names !! name = Some a -> a = rootA \/ a = rootB.
Proof.
  unfold names. intros H.
  destruct (decide (name = nameB)) as [->|HB].
  - rewrite lookup_insert_eq in H. injection H as <-. auto.
  - rewrite lookup_insert_ne in H by congruence.
    destruct (decide (name = nameA)) as [->|HA].
    + rewrite lookup_insert_eq in H. injection H as <-. auto.
    + rewrite lookup_insert_ne, lookup_empty in H by congruence.
      discriminate.
Qed.

Lemma registered_name (name : string) :
  name <> EmptyString -> negb (String.eqb name EmptyString) = true.
Proof. intros H. apply String.eqb_neq in H. rewrite H. reflexivity. Qed.

Lemma resolve_refA : resolve names h0 refA = Ok refA.
Proof. unfold resolve. rewrite h0_refA. reflexivity. Qed.

Lemma resolve_refB : resolve names h0 refB = Ok refB.
Proof. unfold resolve. rewrite h0_refB. reflexivity. Qed.

Lemma resolve_elemA : resolve_reference names h0 elemA = Ok rootB.
Proof.
  unfold resolve_reference. rewrite h0_elemA. cbn [Name_of].
  rewrite names_B. reflexivity.
Qed.

Lemma resolve_elemB : resolve_reference names h0 elemB = Ok rootA.
Proof.
  unfold resolve_reference. rewrite h0_elemB. cbn [Name_of].
  rewrite names_A. reflexivity.
Qed.

Lemma rtOf_followed (many : bool) :
  (rtOf many =? ReferenceTypeSingle) || (rtOf many =? ReferenceTypeSlice)
  = true.
Proof. destruct many; reflexivity. Qed.

Lemma resolve_object_rootA :
  resolve_object names h0
    (structObj nameA [(fA, reflect.StructTag_string tagA, refA)])
  = Ok (structObj nameA [(fA, reflect.StructTag_string tagA, refA)]).
Proof.
  cbn [resolve_object mapM_result]. unfold resolve_field. cbn [fst snd].
  rewrite resolve_refA. reflexivity.
Qed.

Lemma resolve_object_rootB :
  resolve_object names h0
    (structObj nameB [(fB, reflect.StructTag_string tagB, refB)])
  = Ok (structObj nameB [(fB, reflect.StructTag_string tagB, refB)]).
Proof.
  cbn [resolve_object mapM_result]. unfold resolve_field. cbn [fst snd].
  rewrite resolve_refB. reflexivity.
Qed.

Lemma resolve_object_refA :
  resolve_object names h0
    (referenceObj (kindOf manyA) (rtOf manyA) (Some elemA))
  = Ok (referenceObj (kindOf manyA) (rtOf manyA) (Some rootB)).
Proof.
  cbn [resolve_object]. rewrite rtOf_followed, resolve_elemA. reflexivity.
Qed.

Lemma resolve_object_refB :
  resolve_object names h0
    (referenceObj (kindOf manyB) (rtOf manyB) (Some elemB))
  = Ok (referenceObj (kindOf manyB) (rtOf manyB) (Some rootA)).
Proof.
  cbn [resolve_object]. rewrite rtOf_followed, resolve_elemB. reflexivity.
Qed.

(** the schemas that the fill comes to *)
Let visited (a : addr) : Prop :=
  a = rootA \/ a = refA \/ a = rootB \/ a = refB.

Lemma visited_closed : closed names h0 visited.
Proof.
  intros a o e c [-> | [-> | [-> | ->]]] H0 He Hc.
  - rewrite h0_rootA in H0. injection H0 as <-. cbn in He.
    apply list_elem_of_singleton in He as ->. cbn [resolve_child] in Hc.
    rewrite resolve_refA in Hc. injection Hc as <-. unfold visited. tauto.
  - rewrite h0_refA in H0. injection H0 as <-. cbn [targets] in He.
    rewrite rtOf_followed in He. cbn in He.
    apply list_elem_of_singleton in He as ->. cbn [resolve_child] in Hc.
    rewrite resolve_elemA in Hc. injection Hc as <-. unfold visited. tauto.
  - rewrite h0_rootB in H0. injection H0 as <-. cbn in He.
    apply list_elem_of_singleton in He as ->. cbn [resolve_child] in Hc.
    rewrite resolve_refB in Hc. injection Hc as <-. unfold visited. tauto.
  - rewrite h0_refB in H0. injection H0 as <-. cbn [targets] in He.
    rewrite rtOf_followed in He. cbn in He.
    apply list_elem_of_singleton in He as ->. cbn [resolve_child] in Hc.
    rewrite resolve_elemB in Hc. injection Hc as <-. unfold visited. tauto.
Qed.

Lemma visited_resolvable (a : addr) :
  visited a -> ~ unresolvable names h0 a.
Proof.
  intros [-> | [-> | [-> | ->]]] Hbad.
  - exact (Hbad _ h0_rootA _ resolve_object_rootA).
  - exact (Hbad _ h0_refA _ resolve_object_refA).
  - exact (Hbad _ h0_rootB _ resolve_object_rootB).
  - exact (Hbad _ h0_refB _ resolve_object_refB).
Qed.

Lemma range_elem_lookup {K V : Type} `{Countable K} (m : gmap K V)
    (order : list K) (k : K) (v : V) :
  (k, v) ∈ range m order -> m !! k = Some v.
Proof.
  unfold range. intros Hin.
  apply list_elem_of_omap in Hin as (k' & _ & Hk').
  destruct (m !! k') as [v'|] eqn:E; cbn in Hk'; [|discriminate].
  injection Hk' as <- <-. exact E.
Qed.

Lemma roots_visited (order : list string) (a : addr) :
  a ∈ (range names order).*2 -> visited a.
Proof.
  intros Hin. apply list_elem_of_fmap in Hin as ([name a'] & -> & Hin).
  apply range_elem_lookup, names_values in Hin as [-> | ->];
    unfold visited; cbn; tauto.
Qed.

(** the store after the fill *)
Lemma fill_pair (order : list string) :
  valid_order names order ->
  exists h F,
    fill_loop (S (size h0)) names (range names order) (h0, ∅)
    = Some (Ok (h, F))
    /\ h !! rootA
       = Some (structObj nameA [(fA, reflect.StructTag_string tagA, refA)])
    /\ h !! refA
       = Some (referenceObj (kindOf manyA) (rtOf manyA) (Some rootB))
    /\ h !! rootB
       = Some (structObj nameB [(fB, reflect.StructTag_string tagB, refB)])
    /\ h !! refB
       = Some (referenceObj (kindOf manyB) (rtOf manyB) (Some rootA)).
Proof.
  intros Hv.
  destruct (fill_loop_progress (S (size h0)) names h0)
    with (entries := range names order) (h := h0)
         (F := (∅ : gset addr)) as (res & Hres & _);
    [rewrite size_dom; lia|reflexivity|].
  destruct res as [[h F]|e|].
  2:{ exfalso. exact (fill_loop_no_Err _ _ _ _ _ Hres). }
  2:{ exfalso. apply fill_loop_Panic in Hres as (a & Hreach & Hbad).
      apply (visited_resolvable a); [|exact Hbad].
      apply Hreach; [exact visited_closed|apply roots_visited]. }
  exists h, F. split; [exact Hres|].
  apply fill_loop_Ok in Hres as (HF & Hrs & _).
  assert (HrootA : rootA ∈ F).
  { apply HF, reach_roots. apply list_elem_of_fmap. exists (nameA, rootA).
    split; [reflexivity|]. apply range_lookup; [exact Hv|exact names_A]. }
  assert (HrootB : rootB ∈ F).
  { apply HF, reach_roots. apply list_elem_of_fmap. exists (nameB, rootB).
    split; [reflexivity|]. apply range_lookup; [exact Hv|exact names_B]. }
  destruct (Hrs _ HrootA) as (oA & oA' & H0A & HroA & HhA & HchA).
  rewrite h0_rootA in H0A. injection H0A as <-.
  rewrite resolve_object_rootA in HroA. injection HroA as <-.
  assert (HrefA : refA ∈ F).
  { apply (HchA refA refA); [cbn; left|exact resolve_refA]. }
  destruct (Hrs _ HrefA) as (oa & oa' & H0a & Hroa & Hha & _).
  rewrite h0_refA in H0a. injection H0a as <-.
  rewrite resolve_object_refA in Hroa. injection Hroa as <-.
  destruct (Hrs _ HrootB) as (oB & oB' & H0B & HroB & HhB & HchB).
  rewrite h0_rootB in H0B. injection H0B as <-.
  rewrite resolve_object_rootB in HroB. injection HroB as <-.
  assert (HrefB : refB ∈ F).
  { apply (HchB refB refB); [cbn; left|exact resolve_refB]. }
  destruct (Hrs _ HrefB) as (ob & ob' & H0b & Hrob & Hhb & _).
  rewrite h0_refB in H0b. injection H0b as <-.
  rewrite resolve_object_refB in Hrob. injection Hrob as <-.
  auto.
Qed.

(** the encoding of a struct with one reference field, whose target is a
    registered struct: the target is written as its placeholder *)
Lemma Schema_Encode_refStruct (h : heap) (root ref target : addr)
    (name fname ftag tname : string) (kind : reflect.Kind)
    (rt : ReferenceType) (tfields : list (string * string * addr)) :
  h !! root = Some (structObj name [(fname, ftag, ref)]) ->
  h !! ref = Some (referenceObj kind rt (Some target)) ->
  h !! target = Some (structObj tname tfields) ->
  tname <> EmptyString ->
  exists b, Schema_Encode h root = Ok b.
Proof.
  intros Hroot Href Htarget Htname. unfold Schema_Encode.
  destruct (size h) as [|n] eqn:Hsize.
  { apply map_size_empty_inv in Hsize. subst h.
    rewrite lookup_empty in Hroot. discriminate. }
  cbn [Schema_Encode_fuel]. rewrite Hroot. cbn [mapM_result].
  rewrite Href.
  change (IsRegistered_of (referenceObj kind rt (Some target))) with false.
  cbn iota. rewrite Htarget.
  unfold IsRegistered_of at 1. cbn [Name_of].
  rewrite (registered_name tname Htname).
  cbn [mbind result_bind]. eexists. reflexivity.
Qed.

Lemma mapM_result_Ok {X Y : Type} (f : X -> result Y) (l : list X) :
  (forall x, x ∈ l -> exists y, f x = Ok y) ->
  exists ys, mapM_result f l = Ok ys.
Proof.
  induction l as [|x l IH]; intros Hf; [exists []; reflexivity|].
  cbn [mapM_result].
  destruct (Hf x) as [y Hy]; [left|]. rewrite Hy. cbn [mbind result_bind].
  destruct IH as [ys Hys]; [intros x' Hx'; apply Hf; right; exact Hx'|].
  rewrite Hys. cbn [mbind result_bind]. eexists. reflexivity.
Qed.

Lemma srf_loop_Ok (h : heap) (entries : list (string * addr)) :
  (forall e, e ∈ entries -> exists b, Schema_Encode h e.2 = Ok b) ->
  forall m, exists m', srf_loop SumSHA256 h entries m = Ok m'.
Proof.
  induction entries as [|[name sch] entries IH]; intros He m.
  - exists m. reflexivity.
  - cbn [srf_loop]. unfold Schema_Reference.
    destruct (He (name, sch)) as [b Hb]; [left|]. cbn [snd] in Hb.
    rewrite Hb. cbn [mbind result_bind].
    apply IH. intros e Hin. apply He. right. exact Hin.
Qed.

(** [finialize] of the two schemas registered: the placeholders are
    replaced by the schemas of the table, which makes the store cyclic *)
Lemma finialize_pair (o : orders) :
  valid_order names (order_fill o) ->
  exists r,
    finialize SumSHA256 registered o = Ok r
    /\ reg r = names
    /\ mem r !! rootA
       = Some (structObj nameA [(fA, reflect.StructTag_string tagA, refA)])
    /\ mem r !! refA
       = Some (referenceObj (kindOf manyA) (rtOf manyA) (Some rootB))
    /\ mem r !! rootB
       = Some (structObj nameB [(fB, reflect.StructTag_string tagB, refB)])
    /\ mem r !! refB
       = Some (referenceObj (kindOf manyB) (rtOf manyB) (Some rootA)).
Proof.
  intros Hf.
  destruct (fill_pair (order_fill o) Hf)
    as (h & F & Hfill & HrA & HfA & HrB & HfB).
  assert (Henc : forall (order : list string) (e : string * addr),
             e ∈ range names order -> exists b, Schema_Encode h e.2 = Ok b).
  { intros order [name a] Hin. cbn [snd].
    apply range_elem_lookup, names_values in Hin as [-> | ->].
    - exact (Schema_Encode_refStruct h _ _ _ _ _ _ _ _ _ _ HrA HfA HrB
               nameB_nonempty).
    - exact (Schema_Encode_refStruct h _ _ _ _ _ _ _ _ _ _ HrB HfB HrA
               nameA_nonempty). }
  unfold finialize, finialize_fuel.
  change (mem registered) with h0. change (reg registered) with names.
  rewrite Hfill.
  destruct (srf_loop_Ok h _ (Henc (order_srf o)) (srf registered))
    as [m Hm].
  rewrite Hm. cbn [mbind result_bind].
  unfold Registry_Encode at 1. cbn [reg mem].
  destruct (bool_decide (size names = 0%nat)).
  - cbn [mbind result_bind]. eexists. split; [reflexivity|]. cbn [reg mem].
    auto.
  - destruct (mapM_result_Ok
                (fun '(name, sch) =>
                   b ← Schema_Encode h sch;
                   Ok {| re_Name := name; re_Schema := b |})
                (range names (order_encode o))) as [ent Hent].
    { intros [name a] Hin. destruct (Henc _ _ Hin) as [b Hb].
      cbn [snd] in Hb. rewrite Hb. cbn [mbind result_bind].
      eexists. reflexivity. }
    rewrite Hent. cbn [mbind result_bind]. eexists.
    split; [reflexivity|]. cbn [reg mem]. auto.
Qed.

Lemma NewRegistry_pair (o : orders) :
  valid_order (Reg_tn rg) (order_register o) ->
  valid_order names (order_fill o) ->
  exists r,
    NewRegistry SumSHA256
      (declare [(nameA, reflect.value_of A); (nameB, reflect.value_of B)]) o
    = Ok r
    /\ SchemaByName r nameA = Ok rootA
    /\ SchemaByName r nameB = Ok rootB
    /\ mem r !! rootA
       = Some (structObj nameA [(fA, reflect.StructTag_string tagA, refA)])
    /\ mem r !! refA
       = Some (referenceObj (kindOf manyA) (rtOf manyA) (Some rootB))
    /\ mem r !! rootB
       = Some (structObj nameB [(fB, reflect.StructTag_string tagB, refB)])
    /\ mem r !! refB
       = Some (referenceObj (kindOf manyB) (rtOf manyB) (Some rootA)).
Proof.
  intros Hr Hf. unfold NewRegistry. rewrite declare_pair.
  cbn [mbind result_bind]. rewrite (register_pair _ Hr).
  cbn [mbind result_bind].
  destruct (finialize_pair o Hf) as (r & Hfin & Hreg & Hmem).
  exists r. split; [exact Hfin|].
  unfold SchemaByName, schemaByName. rewrite Hreg, names_A, names_B. auto.
Qed.

Lemma NewRegistry_pair_orders (o : orders) (oe : list string) :
  valid_orders
    (declare [(nameA, reflect.value_of A); (nameB, reflect.value_of B)]) o oe ->
  exists (r : Registry) (a ra b rb : addr),
    NewRegistry SumSHA256
      (declare [(nameA, reflect.value_of A); (nameB, reflect.value_of B)]) o
    = Ok r
    /\ SchemaByName r nameA = Ok a
    /\ SchemaByName r nameB = Ok b
    /\ mem r !! a = Some (structObj nameA [(fA, reflect.StructTag_string tagA, ra)])
    /\ mem r !! ra = Some (referenceObj (kindOf manyA) (rtOf manyA) (Some b))
    /\ mem r !! b = Some (structObj nameB [(fB, reflect.StructTag_string tagB, rb)])
    /\ mem r !! rb = Some (referenceObj (kindOf manyB) (rtOf manyB) (Some a)).
Proof.
  intros Hv. destruct (Hv rg declare_pair) as [Hr Hv'].
  destruct (Hv' registered (register_pair _ Hr)) as (Hf & _).
  destruct (NewRegistry_pair o Hr Hf) as (r & Hnew).
  exists r, rootA, refA, rootB, refB. exact Hnew.
Qed.

End MutualReferences.

(** Two structs that refer to one another by name can be registered: if
    [A], registered as [nameA], has one field, a [Reference] (or
    [References]) whose tag names [nameB], and [B], registered as
    [nameB], has one whose tag names [nameA], then [NewRegistry] returns
    a registry, in every order of its loops, and the store of the
    registry is cyclic: the schema found by [nameA] is a struct whose
    field is a reference to the schema found by [nameB], whose field is a
    reference to the schema found by [nameA]. *)
Theorem NewRegistry_mutual_references
    (SumSHA256 : list byte -> cipher.SHA256)
    (nameA nameB tA tB fA fB : string) (tagA tagB : reflect.StructTag)
    (manyA manyB : bool) (o : skyobject.orders) (oe : list string) :
  nameA <> EmptyString -> nameB <> EmptyString -> nameA <> nameB ->
  skyobject.TagSchemaName tagA = Ok nameB ->
  skyobject.TagSchemaName tagB = Ok nameA ->
  skyobject.skipped
    (reflect.Build_StructField fA tagA ""
       (if manyA then skyobject.typeOfRefs else skyobject.typeOfRef))
  = false ->
  skyobject.skipped
    (reflect.Build_StructField fB tagB ""
       (if manyB then skyobject.typeOfRefs else skyobject.typeOfRef))
  = false ->
  skyobject.valid_orders
    (skyobject.declare
       [(nameA, reflect.value_of (skyobject.refStruct tA fA tagA manyA));
        (nameB, reflect.value_of (skyobject.refStruct tB fB tagB manyB))])
    o oe ->
  exists (r : skyobject.Registry) (a ra b rb : skyobject.addr),
    skyobject.NewRegistry SumSHA256
      (skyobject.declare
         [(nameA, reflect.value_of (skyobject.refStruct tA fA tagA manyA));
          (nameB, reflect.value_of (skyobject.refStruct tB fB tagB manyB))])
      o
    = Ok r
    /\ skyobject.SchemaByName r nameA = Ok a
    /\ skyobject.SchemaByName r nameB = Ok b
    /\ skyobject.mem r !! a
       = Some (skyobject.structObj nameA
                 [(fA, reflect.StructTag_string tagA, ra)])
    /\ skyobject.mem r !! ra
       = Some (skyobject.referenceObj
                 (if manyA then reflect.Slice else reflect.Array)
                 (if manyA then skyobject.ReferenceTypeSlice
                  else skyobject.ReferenceTypeSingle)
                 (Some b))
    /\ skyobject.mem r !! b
       = Some (skyobject.structObj nameB
                 [(fB, reflect.StructTag_string tagB, rb)])
    /\ skyobject.mem r !! rb
       = Some (skyobject.referenceObj
                 (if manyB then reflect.Slice else reflect.Array)
                 (if manyB then skyobject.ReferenceTypeSlice
                  else skyobject.ReferenceTypeSingle)
                 (Some a)).
Proof.
  intros HA HB Hne HtA HtB HkA HkB Hv.
  exact (NewRegistry_pair_orders SumSHA256 nameA nameB tA tB fA fB tagA tagB
           manyA manyB HA HB Hne HtA HtB HkA HkB o oe Hv).
Qed.

(** *** Concrete runs of the size engine and of finalization *)

Section FinalizedExamples.

Import skyobject.

Ltac solve_valid_order :=
  apply (bool_decide_unpack _); vm_compute; exact I.

Lemma finialize_registered_AB :
  finialize exampleSum registered_AB orders_AB = Ok registry_AB.
Proof. vm_cast_no_check (eq_refl (Ok registry_AB)). Qed.

Lemma SchemaSize_exact_witness :
  exact_on (SchemaSize strings_schema)
    [x02; x00; x00; x00; x01; x00; x00; x00; x41; x00; x00; x00; x00].
Proof.
  apply (SchemaSize_exact strings_schema strings_value).
  vm_compute. reflexivity.
Defined.

Lemma SchemaSize_encode_witness :
  SchemaSize trailing_empty_schema [x07] = Ok (len [x07])
  \/ is_Err (SchemaSize trailing_empty_schema [x07]).
Proof.
  apply (SchemaSize_encode trailing_empty_schema trailing_empty_value).
  vm_compute. reflexivity.
Defined.

Lemma finialize_any_order_witness :
  match finialize exampleSum registered_AB orders_AB,
        finialize exampleSum registered_AB orders_BA with
  | Ok r1, Ok r2 =>
      Registry_Reference r1 = Registry_Reference r2
      /\ reg r1 = reg r2 /\ mem r1 = mem r2
      /\ nt r1 = nt r2 /\ tn r1 = tn r2
  | Panic, Panic => True
  | _, _ => False
  end.
Proof.
  apply (finialize_any_order exampleSum registered_AB orders_AB orders_BA);
    solve_valid_order.
Defined.

Lemma Registry_Encode_any_order_witness :
  Registry_Encode registry_AB ["a"%string; "b"%string]
  = Registry_Encode registry_AB ["b"%string; "a"%string].
Proof.
  apply (Registry_Encode_any_order registry_AB); solve_valid_order.
Defined.

Lemma finialize_resolved_witness :
  exists F : gset addr,
    (forall name a, reg registered_AB !! name = Some a -> a ∈ F)
    /\ (forall a, a ∈ F ->
          resolved (reg registered_AB) (mem registered_AB) (mem registry_AB)
            F a)
    /\ untouched (mem registered_AB) (mem registry_AB) F.
Proof.
  apply (finialize_resolved exampleSum registered_AB registry_AB orders_AB).
  - solve_valid_order.
  - exact finialize_registered_AB.
Defined.

Lemma Reference_digest_of_Encode_witness :
  exists b, Registry_Encode registry_AB ["b"%string; "a"%string] = Ok b
            /\ Registry_Reference registry_AB = exampleSum b.
Proof.
  apply (Reference_digest_of_Encode exampleSum registered_AB registry_AB
           orders_AB).
  - solve_valid_order.
  - solve_valid_order.
  - exact finialize_registered_AB.
Defined.

Lemma SchemaByReference_Reference_witness :
  exists sr a',
    Schema_Reference exampleSum (mem registry_AB) (("a"%string, 0%nat), [])
    = Ok sr
    /\ SchemaByReference registry_AB sr = Ok a'
    /\ Schema_Reference exampleSum (mem registry_AB) a' = Ok sr.
Proof.
  apply (SchemaByReference_Reference exampleSum registered_AB registry_AB
           orders_AB "a").
  - solve_valid_order.
  - exact finialize_registered_AB.
  - vm_cast_no_check (eq_refl (Some (("a"%string, 0%nat), @nil nat))).
Defined.

Lemma declare_AB : declare decls_AB newReg = Ok Reg_AB.
Proof. vm_cast_no_check (eq_refl (Ok Reg_AB)). Qed.

Lemma NewRegistry_AB :
  NewRegistry exampleSum (declare decls_AB) orders_AB = Ok registry_AB.
Proof. vm_cast_no_check (eq_refl (Ok registry_AB)). Qed.

Lemma DecodeRegistry_AB :
  DecodeRegistry exampleSum encoded_AB orders_AB = Ok decoded_AB.
Proof. vm_cast_no_check (eq_refl (Ok decoded_AB)). Qed.

Lemma Types_Direct_Inverse_witness :
  Inverse (Registry_Types registry_AB) = Reg_tn Reg_AB
  /\ forall name typ,
       Direct (Registry_Types registry_AB) !! name = Some typ
       <-> Inverse (Registry_Types registry_AB) !! typ = Some name.
Proof.
  apply (Types_Direct_Inverse exampleSum decls_AB orders_AB Reg_AB
           registry_AB).
  - exact declare_AB.
  - solve_valid_order.
  - exact NewRegistry_AB.
Defined.

Lemma SchemaByName_registered_witness :
  (forall typ name,
     Reg_tn Reg_AB !! typ = Some name ->
     exists a s,
       SchemaByName registry_AB name = Ok a /\ mem registry_AB !! a = Some s
       /\ Name_of s = name /\ Kind_of s = reflect.Type_Kind typ)
  /\ (forall name,
        name ∉ names_of (Reg_tn Reg_AB) ->
        SchemaByName registry_AB name = Err (ErrMissingSchema name)).
Proof.
  apply (SchemaByName_registered exampleSum decls_AB orders_AB Reg_AB
           registry_AB).
  - exact declare_AB.
  - solve_valid_order.
  - exact NewRegistry_AB.
Defined.

Lemma DecodeRegistry_tables_witness :
  exists res,
    DeserializeRaw_registryEntities encoded_AB = Ok res
    /\ (forall name,
          (exists a, SchemaByName decoded_AB name = Ok a)
          <-> name ∈ re_Name <$> res)
    /\ Direct (Registry_Types decoded_AB) = ∅
    /\ Inverse (Registry_Types decoded_AB) = ∅.
Proof.
  apply (DecodeRegistry_tables exampleSum encoded_AB orders_AB decoded_AB).
  exact DecodeRegistry_AB.
Defined.

End FinalizedExamples.

Lemma Encode_Decode_witness :
  node.Encode vec_to_list node.DataMsg_example
  = [x07; x03; x00; x00; x00; x01; x02; x03]
  /\ node.encodable node.DataMsg_example.
Proof.
  apply (Encode_Decode vec_to_list (encoder.read_array 32)).
  - intros b rp rest. apply read_array_inv.
  - vm_compute. reflexivity.
Defined.

Lemma MsgType_String_inj_witness : node.DataMsgType = 7.
Proof. apply (MsgType_String_inj node.DataMsgType 7). reflexivity. Defined.


Lemma TagSchemaName_schema_witness :
  ("b"%string <> EmptyString ->
   Forall (fun x => x <> "="%char) (list_ascii_of_string "b") ->
   skyobject.TagSchemaName (skyobject.schemaTag "b") = Ok "b"%string)
  /\ ("b"%string = EmptyString
      \/ ~ Forall (fun x => x <> "="%char) (list_ascii_of_string "b") ->
      is_Err (skyobject.TagSchemaName (skyobject.schemaTag "b"))).
Proof.
  apply (TagSchemaName_schema (skyobject.schemaTag "b") "b").
  - reflexivity.
  - repeat constructor. discriminate.
Defined.

Lemma TagSchemaName_Ok_witness :
  "b"%string <> EmptyString
  /\ Forall (fun x => x <> "="%char) (list_ascii_of_string "b")
  /\ Forall (fun x => x <> ","%char) (list_ascii_of_string "b")
  /\ ("schema=" ++ "b")%string
     ∈ gostrings.Split
         (reflect.StructTag_Get (skyobject.schemaTag "b") skyobject.TAG) ",".
Proof.
  apply (TagSchemaName_Ok (skyobject.schemaTag "b") "b"). reflexivity.
Defined.

Lemma SchemaSize_in_buffer_witness :
  0 <= 13
  <= len [x02; x00; x00; x00; x01; x00; x00; x00; x41; x00; x00; x00; x00;
          x07].
Proof.
  apply (SchemaSize_in_buffer skyobject.strings_schema
           [x02; x00; x00; x00; x01; x00; x00; x00; x41; x00; x00; x00; x00;
            x07] 13).
  - reflexivity.
  - reflexivity.
  - vm_compute. reflexivity.
Defined.

Lemma NewRegistry_mutual_references_witness :
  exists (r : skyobject.Registry) (a ra b rb : skyobject.addr),
    skyobject.NewRegistry skyobject.exampleSum
      (skyobject.declare skyobject.decls_AB) skyobject.orders_AB
    = Ok r
    /\ skyobject.SchemaByName r "a" = Ok a
    /\ skyobject.SchemaByName r "b" = Ok b
    /\ skyobject.mem r !! a
       = Some (skyobject.structObj "a"
                 [("B"%string,
                   reflect.StructTag_string (skyobject.schemaTag "b"), ra)])
    /\ skyobject.mem r !! ra
       = Some (skyobject.referenceObj reflect.Array
                 skyobject.ReferenceTypeSingle (Some b))
    /\ skyobject.mem r !! b
       = Some (skyobject.structObj "b"
                 [("A"%string,
                   reflect.StructTag_string (skyobject.schemaTag "a"), rb)])
    /\ skyobject.mem r !! rb
       = Some (skyobject.referenceObj reflect.Slice
                 skyobject.ReferenceTypeSlice (Some a)).
Proof.
  apply (NewRegistry_mutual_references skyobject.exampleSum "a" "b" "A" "B"
           "B" "A" (skyobject.schemaTag "b") (skyobject.schemaTag "a")
           false true skyobject.orders_AB ["a"%string; "b"%string]).
  - discriminate.
  - discriminate.
  - discriminate.
  - reflexivity.
  - reflexivity.
  - reflexivity.
  - reflexivity.
  - apply check_orders_sound. vm_compute. reflexivity.
Defined.
